(** * draftjs-to-markdown: a shallow embedding of [src/js/index.js]

    The conversion of a draft-js raw content state to a markdown string is
    embedded function by function.  JavaScript numbers that hold offsets and
    lengths are integers ([Z]); strings are sequences of characters
    ([string]; the program compares a character only with the blank, the
    newline, [&], [<] and [>]); an object used as a dictionary is a finite
    map or, when the iteration order of its keys is observed, an association
    list in insertion order; a sparse array ([new Array(n)] filled by index)
    is a finite map from indices to its own elements.  A value that may be
    [undefined] is an [option].  A thrown [TypeError] is an [Err] result.

    The objects, arrays and strings of the program inherit from
    [Object.prototype], and the program can write to it (a style range tagged
    [__proto__]); what it has written there is the state of a run, threaded
    through the functions that build the style arrays and read by every
    lookup under a name or an index taken from the input. *)

From Equations Require Import Equations.
From stdpp Require Import gmap strings list fin_maps pretty.
From Stdlib Require Import ZArith Ascii String Lia.

Local Open Scope string_scope.
Local Open Scope list_scope.
Local Open Scope Z_scope.

(** ** JavaScript values and strings *)

Module Js.

(** Template-literal interpolation [`${v}`] of a value that is a string or
    [undefined]. *)
Definition tpl (v : option string) : string :=
  match v with
  | Some s => s
  | None => "undefined"
  end.

(** [Array.prototype.join('')]: [undefined] elements contribute nothing. *)
Definition join (parts : list (option string)) : string :=
  fold_right (fun p acc => match p with Some s => s +:+ acc | None => acc end) "" parts.

(** Joining an array all of whose elements are strings. *)
Definition concat (parts : list string) : string :=
  fold_right String.append "" parts.

(** [s[i]] for a natural index: [undefined] out of range. *)
Definition charAt (s : string) (i : nat) : option ascii := String.get i s.

(** [s[i]] for an integer index. *)
Definition charAtZ (s : string) (i : Z) : option ascii :=
  if i <? 0 then None else String.get (Z.to_nat i) s.

(** [s.substring(n)]. *)
Fixpoint substring_from (n : nat) (s : string) : string :=
  match n, s with
  | O, _ => s
  | S n', String _ s' => substring_from n' s'
  | S _, EmptyString => EmptyString
  end.

(** [s.substring(0, n)]. *)
Fixpoint substring_to (n : nat) (s : string) : string :=
  match n, s with
  | O, _ => EmptyString
  | S n', String c s' => String c (substring_to n' s')
  | S _, EmptyString => EmptyString
  end.

(** [s.startsWith(p)]. *)
Definition startsWith (p s : string) : bool := String.prefix p s.

(** [s.replace(c, by)] with a one-character string pattern: only the first
    occurrence is replaced. *)
Fixpoint replace_first (c : ascii) (by_ : string) (s : string) : string :=
  match s with
  | EmptyString => EmptyString
  | String a s' =>
      if Ascii.eqb a c then by_ +:+ s' else String a (replace_first c by_ s')
  end.

(** [k] copies of [s], concatenated. *)
Fixpoint repeat (s : string) (k : nat) : string :=
  match k with
  | O => EmptyString
  | S k' => s +:+ repeat s k'
  end.

End Js.

(** ** Object.prototype *)

(** Every object literal, array, string and function of the program inherits
    the properties of [Object.prototype].  The program writes to it in one
    place: in [getStyleArrayForBlock], [inlineStyles[range.style][i] = true]
    with the tag [__proto__] is [Object.prototype[i] = true].  The state of a
    run is therefore the set of the integers [i] for which [Object.prototype]
    has acquired the property named [i]; each of them holds [true].  In a
    fresh realm the set is empty. *)
Definition ObjectPrototype : Type := gset Z.

(** What a property inherited from [Object.prototype] holds. *)
Inductive inherited : Type :=
  | IPrototype
      (* [__proto__]: the accessor answers [Object.prototype] itself *)
  | IFunction (name : string)
      (* a built-in function, with the [name] it carries *)
  | ITrue
      (* a property that the program has put there *).

(** The functions that [Object.prototype] has from the start, under the
    property names on the left; on the right the name of the function. *)
Definition prototype_functions : list (string * string) :=
  [ ("constructor", "Object");
    ("__defineGetter__", "__defineGetter__");
    ("__defineSetter__", "__defineSetter__");
    ("hasOwnProperty", "hasOwnProperty");
    ("__lookupGetter__", "__lookupGetter__");
    ("__lookupSetter__", "__lookupSetter__");
    ("isPrototypeOf", "isPrototypeOf");
    ("propertyIsEnumerable", "propertyIsEnumerable");
    ("toString", "toString");
    ("valueOf", "valueOf");
    ("toLocaleString", "toLocaleString") ].

(** [table[k]] for a table given by its own properties. *)
Fixpoint assoc (k : string) (m : list (string * string)) : option string :=
  match m with
  | [] => None
  | (k', v) :: m' => if String.eqb k k' then Some v else assoc k m'
  end.

(** The name of the property [i] for an integer [i]: its decimal numeral
    (offsets and keys are far below the numbers that JavaScript prints with
    an exponent). *)
Definition index_name (i : Z) : string := pretty i.

(** [object[name]] for an object without an own property [name]: what it
    inherits from [Object.prototype], [undefined] when there is nothing. *)
Definition inherited_property (proto : ObjectPrototype) (name : string)
    : option inherited :=
  if String.eqb name "__proto__" then Some IPrototype
  else match assoc name prototype_functions with
       | Some f => Some (IFunction f)
       | None =>
           if existsb (fun i => String.eqb name (index_name i)) (elements proto)
           then Some ITrue
           else None
       end.

(** The string that an inherited value becomes when an array that holds it
    is joined.  The text of a built-in function is left to the engine by the
    language standard, within a fixed shape; it is given here as V8 prints
    it. *)
Definition inherited_text (v : inherited) : string :=
  match v with
  | IPrototype => "[object Object]"
  | IFunction name => "function " +:+ name +:+ "() { [native code] }"
  | ITrue => "true"
  end.

(** ** Results: a value or a thrown error *)

Inductive error : Type :=
  | TypeError_entity_undefined
      (* [entity.type] read on [entityMap[entityKey] === undefined] *)
  | TypeError_number_property
      (* [inlineStyles.length[i] = true]: module code is strict, so creating
         a property on a number primitive throws *)
  | TypeError_boolean_property
      (* [true[i] = true], when [inlineStyles[range.style]] is an inherited
         [true]: the same, on a boolean primitive *).

Inductive result (A : Type) : Type :=
  | Ok (a : A)
  | Err (e : error).
Arguments Ok {A} a.
Arguments Err {A} e.

(** A computation that reads and writes [Object.prototype] and may throw:
    from the state before, the value and the state after, or the error. *)
Definition M (A : Type) : Type := ObjectPrototype -> result (A * ObjectPrototype).

Definition ret {A : Type} (a : A) : M A := fun proto => Ok (a, proto).

Definition bind {A B : Type} (m : M A) (k : A -> M B) : M B :=
  fun proto =>
    match m proto with
    | Ok (a, proto') => k a proto'
    | Err e => Err e
    end.

Definition throw {A : Type} (e : error) : M A := fun _ => Err e.

(** The state of [Object.prototype] at this point of the run. *)
Definition get_prototype : M ObjectPrototype := fun proto => Ok (proto, proto).

(** [Object.prototype[i] = true]. *)
Definition set_prototype_index (i : Z) : M unit := fun proto => Ok (tt, proto ∪ {[i]}).

(** The outcome of an expression that only reads the state. *)
Definition lift {A : Type} (r : result A) : M A :=
  fun proto =>
    match r with
    | Ok a => Ok (a, proto)
    | Err e => Err e
    end.

Notation "x <- r ;; k" := (bind r (fun x => k))
  (at level 100, r at next level, right associativity).

(** ** Data model *)

Record InlineStyleRange : Type := mkInlineStyleRange {
  isr_style : string;
  isr_offset : Z;
  isr_length : Z
}.

Record EntityRange : Type := mkEntityRange {
  er_key : Z;
  er_offset : Z;
  er_length : Z
}.

(** The [data] of an entity: [url] and [src], either of which may be
    missing. *)
Record EntityData : Type := mkEntityData {
  data_url : option string;
  data_src : option string
}.

Record Entity : Type := mkEntity {
  entity_type : string;
  entity_data : EntityData
}.

Record Block : Type := mkBlock {
  block_type : string;
  block_text : string;
  block_depth : Z;
  block_inlineStyleRanges : list InlineStyleRange;
  block_entityRanges : list EntityRange;
  block_data : list (string * string)
}.

(** [text.length]. *)
Definition text_length (b : Block) : Z := Z.of_nat (String.length (block_text b)).

(** An entity section [{start, end, entityKey}]; a plain section has no
    [entityKey] property. *)
Record EntitySection : Type := mkEntitySection {
  sec_start : Z;
  sec_end : Z;
  sec_entityKey : option Z
}.

(** ** Helpers of [./common] *)

(** Modelled from the spec: [isEmptyString] of [./common] is not part of the
    sources; section 4.6 calls a block atomic when it has "an empty text
    field", so the test is emptiness of the string. *)
Definition isEmptyString (s : string) : bool :=
  match s with
  | EmptyString => true
  | String _ _ => false
  end.

(** Modelled from the spec: [forEach] of [./common] is not part of the
    sources; section 9 describes it as iterating over an object's keys in
    the order in which they were inserted, calling the callback with key and
    value: the keys are those put into the object, not inherited ones.  The
    callback here updates an accumulator. *)
Definition forEach {K V S : Type} (obj : list (K * V)) (callback : S -> K -> V -> S)
    (init : S) : S :=
  fold_left (fun acc kv => callback acc (fst kv) (snd kv)) obj init.

(** Modelled from the spec: [isList] of [./common] is not part of the
    sources; section 4.7 names the two list types. *)
Definition isList (blockType : string) : bool :=
  String.eqb blockType "unordered-list-item" || String.eqb blockType "ordered-list-item".

(** ** Block type symbols *)

(** The own properties of the table. *)
Definition blockTypesMapping : list (string * string) :=
  [ ("unstyled", "");
    ("header-one", "# ");
    ("header-two", "## ");
    ("header-three", "### ");
    ("header-four", "#### ");
    ("header-five", "##### ");
    ("header-six", "###### ");
    ("unordered-list-item", "- ");
    ("ordered-list-item", "1. ");
    ("blockquote", "> ") ].

(** What [getBlockTagSymbol] returns when it is not [undefined]: a string, or
    a value that the table inherits. *)
Inductive symbol : Type :=
  | SString (s : string)
  | SInherited (v : inherited).

(** The string that a symbol becomes when [blockMarkdown] is joined. *)
Definition symbol_text (s : symbol) : string :=
  match s with
  | SString s => s
  | SInherited v => inherited_text v
  end.

(** [block.type && blockTypesMapping[block.type]]: the empty type is falsy and
    is returned itself; the table is an object literal, so a type that is
    none of its own properties is looked up in [Object.prototype]. *)
Definition getBlockTagSymbol (proto : ObjectPrototype) (block : Block) : option symbol :=
  if String.eqb (block_type block) "" then Some (SString (block_type block))
  else match assoc (block_type block) blockTypesMapping with
       | Some s => Some (SString s)
       | None => SInherited <$> inherited_property proto (block_type block)
       end.

Definition isAtomicBlock (block : Block) : bool :=
  (0 <? Z.of_nat (List.length (block_entityRanges block)))
  && isEmptyString (block_text block).

(** ** Entities *)

(** The third parameter is [undefined] when the caller omits it.  The map is
    an object: for a key that is none of its own, [entityMap[entityKey]] is
    what [Object.prototype] holds under that index, the value [true], whose
    [type] is [undefined], or else [undefined], on which reading [type]
    throws. *)
Definition getEntityMarkdown (proto : ObjectPrototype) (entityMap : gmap Z Entity)
    (entityKey : Z) (text : option string) : result (option string) :=
  match entityMap !! entityKey with
  | None =>
      if bool_decide (entityKey ∈ proto) then Ok text
      else Err TypeError_entity_undefined
  | Some entity =>
      if String.eqb (entity_type entity) "LINK" || String.eqb (entity_type entity) "MENTION"
      then Ok (Some ("[" +:+ Js.tpl text +:+ "](" +:+ Js.tpl (data_url (entity_data entity)) +:+ ")"))
      else if String.eqb (entity_type entity) "IMAGE"
      then Ok (Some ("!(" +:+ Js.tpl (data_src (entity_data entity)) +:+ ")"))
      else Ok text
  end.

(** One turn of the [forEach] over the entity ranges: the state is the array
    [sections] and the variable [lastOffset]. *)
Definition entitySections_step (st : list EntitySection * Z) (r : EntityRange)
    : list EntitySection * Z :=
  let '(sections, lastOffset) := st in
  let sections :=
    if lastOffset <? er_offset r
    then sections ++ [mkEntitySection lastOffset (er_offset r - 1) None]
    else sections in
  (sections ++ [mkEntitySection (er_offset r) (er_offset r + er_length r) (Some (er_key r))],
   er_offset r + er_length r).

Definition getEntitySections (entityRanges : list EntityRange) (blockLength : Z)
    : list EntitySection :=
  let '(sections, lastOffset) := fold_left entitySections_step entityRanges ([], 0) in
  if lastOffset <? blockLength
  then sections ++ [mkEntitySection lastOffset blockLength None]
  else sections.

(** ** Inline styles *)

Inductive StyleKey : Type :=
  | COLOR | BGCOLOR | FONTSIZE | FONTFAMILY
  | SUBSCRIPT | SUPERSCRIPT | CODE | STRIKETHROUGH | UNDERLINE | ITALIC | BOLD.

Global Instance StyleKey_eq_dec : EqDecision StyleKey.
Proof. solve_decision. Defined.

Definition key_name (k : StyleKey) : string :=
  match k with
  | COLOR => "COLOR" | BGCOLOR => "BGCOLOR" | FONTSIZE => "FONTSIZE"
  | FONTFAMILY => "FONTFAMILY" | SUBSCRIPT => "SUBSCRIPT"
  | SUPERSCRIPT => "SUPERSCRIPT" | CODE => "CODE"
  | STRIKETHROUGH => "STRIKETHROUGH" | UNDERLINE => "UNDERLINE"
  | ITALIC => "ITALIC" | BOLD => "BOLD"
  end.

Definition all_keys : list StyleKey :=
  [COLOR; BGCOLOR; FONTSIZE; FONTFAMILY; SUBSCRIPT; SUPERSCRIPT; CODE;
   STRIKETHROUGH; UNDERLINE; ITALIC; BOLD].

(** What a slot of a style array holds when it is not [undefined]. *)
Inductive slot : Type :=
  | VTrue
  | VStr (s : string).

Global Instance slot_eq_dec : EqDecision slot.
Proof. solve_decision. Defined.

(** JavaScript truthiness of a slot read: [undefined] and the empty string
    are falsy. *)
Definition truthy (v : option slot) : bool :=
  match v with
  | None => false
  | Some VTrue => true
  | Some (VStr s) => negb (String.eqb s "")
  end.

(** [`${v}`] for a slot value. *)
Definition slot_tpl (v : slot) : string :=
  match v with
  | VTrue => "true"
  | VStr s => s
  end.

(** The object [inlineStyles]: eleven sparse arrays, each given by its own
    elements, and [length]. *)
Record InlineStyles : Type := mkInlineStyles {
  style_array : StyleKey -> gmap Z slot;
  styles_length : Z
}.

(** [inlineStyles[key][i] = v]. *)
Definition set_slot (s : InlineStyles) (k : StyleKey) (i : Z) (v : slot) : InlineStyles :=
  mkInlineStyles
    (fun k' => if decide (k' = k) then <[i := v]> (style_array s k') else style_array s k')
    (styles_length s).

(** [array[i]] for one of the arrays: its own element or, at a hole or
    outside the array, what [Object.prototype] holds under the index [i]. *)
Definition array_get (proto : ObjectPrototype) (array : gmap Z slot) (i : Z)
    : option slot :=
  match array !! i with
  | Some v => Some v
  | None => if bool_decide (i ∈ proto) then Some VTrue else None
  end.

(** The own property [name] of [inlineStyles]: one of the eleven arrays, the
    number [length], or none. *)
Inductive property : Type :=
  | PArray (k : StyleKey)
  | PLength
  | PUndefined.

Definition own_property (name : string) : property :=
  if String.eqb name "length" then PLength
  else match List.find (fun k => String.eqb name (key_name k)) all_keys with
       | Some k => PArray k
       | None => PUndefined
       end.

(** A loop whose body may throw: the first error ends it. *)
Fixpoint foldM {A S : Type} (body : S -> A -> M S) (l : list A) (s : S) : M S :=
  match l with
  | [] => ret s
  | x :: l' => s' <- body s x;; foldM body l' s'
  end.

(** The body of [for (let i = offset; i < length; i += 1)] in
    [getStyleArrayForBlock], for one index [i].  In the last branch
    [inlineStyles[range.style]] is an own property of [inlineStyles] or, for
    want of one, an inherited one; the assignment goes to whatever object
    that is. *)
Definition style_write (range : InlineStyleRange) (inlineStyles : InlineStyles) (i : Z)
    : M InlineStyles :=
  let style := isr_style range in
  if Js.startsWith "color-" style
  then ret (set_slot inlineStyles COLOR i (VStr (Js.substring_from 6 style)))
  else if Js.startsWith "bgcolor-" style
  then ret (set_slot inlineStyles BGCOLOR i (VStr (Js.substring_from 8 style)))
  else if Js.startsWith "fontsize-" style
  then ret (set_slot inlineStyles FONTSIZE i (VStr (Js.substring_from 9 style)))
  else if Js.startsWith "fontfamily-" style
  then ret (set_slot inlineStyles FONTFAMILY i (VStr (Js.substring_from 11 style)))
  else match own_property style with
       | PArray k => ret (set_slot inlineStyles k i VTrue)
       | PLength =>
           (* [inlineStyles.length] is truthy unless the text is empty *)
           if styles_length inlineStyles =? 0 then ret inlineStyles
           else throw TypeError_number_property
       | PUndefined =>
           proto <- get_prototype;;
           match inherited_property proto style with
           | Some IPrototype =>
               (* [Object.prototype[i] = true] *)
               _ <- set_prototype_index i;; ret inlineStyles
           | Some (IFunction _) =>
               (* a property of the function object, which nothing reads *)
               ret inlineStyles
           | Some ITrue => throw TypeError_boolean_property
           | None => ret inlineStyles
           end
       end.

(** The callback of [inlineStyleRanges.forEach]. *)
Definition style_range (inlineStyles : InlineStyles) (range : InlineStyleRange)
    : M InlineStyles :=
  foldM (style_write range) (seqZ (isr_offset range) (isr_length range)) inlineStyles.

Definition getStyleArrayForBlock (block : Block) : M InlineStyles :=
  foldM style_range (block_inlineStyleRanges block)
        (mkInlineStyles (fun _ => ∅) (text_length block)).

Definition sameStyleAsPrevious (proto : ObjectPrototype) (inlineStyles : InlineStyles)
    (styles : list StyleKey) (index : Z) : bool :=
  if (0 <? index) && (index <? styles_length inlineStyles)
  then fold_left
         (fun sameStyled style =>
            sameStyled
            && bool_decide (array_get proto (style_array inlineStyles style) index
                            = array_get proto (style_array inlineStyles style) (index - 1)))
         styles true
  else false.

(** The object [styles] of [getStylesAtOffset]: its properties in insertion
    order. *)
Definition Styles : Type := list (StyleKey * slot).

(** [if (inlineStyles.K[offset]) styles.K = inlineStyles.K[offset]]. *)
Definition copy_slot (proto : ObjectPrototype) (inlineStyles : InlineStyles) (offset : Z)
    (k : StyleKey) (styles : Styles) : Styles :=
  match array_get proto (style_array inlineStyles k) offset with
  | Some v => if truthy (Some v) then styles ++ [(k, v)] else styles
  | None => styles
  end.

(** [if (inlineStyles.K[offset]) styles.K = true]. *)
Definition flag_slot (proto : ObjectPrototype) (inlineStyles : InlineStyles) (offset : Z)
    (k : StyleKey) (styles : Styles) : Styles :=
  if truthy (array_get proto (style_array inlineStyles k) offset)
  then styles ++ [(k, VTrue)]
  else styles.

Definition getStylesAtOffset (proto : ObjectPrototype) (inlineStyles : InlineStyles)
    (offset : Z) : Styles :=
  let styles := [] in
  let styles := copy_slot proto inlineStyles offset COLOR styles in
  let styles := copy_slot proto inlineStyles offset BGCOLOR styles in
  let styles := copy_slot proto inlineStyles offset FONTSIZE styles in
  let styles := copy_slot proto inlineStyles offset FONTFAMILY styles in
  let styles := flag_slot proto inlineStyles offset SUBSCRIPT styles in
  let styles := flag_slot proto inlineStyles offset SUPERSCRIPT styles in
  let styles := flag_slot proto inlineStyles offset CODE styles in
  let styles := flag_slot proto inlineStyles offset STRIKETHROUGH styles in
  let styles := flag_slot proto inlineStyles offset UNDERLINE styles in
  let styles := flag_slot proto inlineStyles offset ITALIC styles in
  let styles := flag_slot proto inlineStyles offset BOLD styles in
  styles.

(** What [text[i]] gives when it is not [undefined]: a character of the
    text or, past its ends, the [true] that [Object.prototype] holds under
    the index. *)
Inductive element : Type :=
  | EChar (c : ascii)
  | ETrue.

(** [text[i]]. *)
Definition text_get (proto : ObjectPrototype) (text : string) (i : Z) : option element :=
  match Js.charAtZ text i with
  | Some c => Some (EChar c)
  | None => if bool_decide (i ∈ proto) then Some ETrue else None
  end.

(** A style section [{styles, text, start, end}]; [text] is an array of the
    values [text[i]]. *)
Record StyleSection : Type := mkStyleSection {
  ss_styles : Styles;
  ss_text : list (option element);
  ss_start : Z;
  ss_end : Z
}.

(** The variable [section] aliases the last element pushed on
    [styleSections]; a mutation through it is a mutation of that element. *)
Fixpoint alter_last {A : Type} (f : A -> A) (l : list A) : list A :=
  match l with
  | [] => []
  | [x] => [f x]
  | x :: l' => x :: alter_last f l'
  end.

(** The body of the [for] loop of [getStyleSections]; nothing in it writes
    to [Object.prototype]. *)
Definition styleSections_step (proto : ObjectPrototype) (text : string)
    (inlineStyles : InlineStyles) (styles : list StyleKey) (start : Z)
    (styleSections : list StyleSection) (i : Z) : list StyleSection :=
  if negb (i =? start) && sameStyleAsPrevious proto inlineStyles styles i
  then alter_last
         (fun section =>
            mkStyleSection (ss_styles section) (ss_text section ++ [text_get proto text i])
                           (ss_start section) (i + 1))
         styleSections
  else styleSections
         ++ [mkStyleSection (getStylesAtOffset proto inlineStyles i)
                            [text_get proto text i] i (i + 1)].

Definition getStyleSections (block : Block) (styles : list StyleKey) (start end_ : Z)
    : M (list StyleSection) :=
  if 0 <? text_length block
  then inlineStyles <- getStyleArrayForBlock block;;
       proto <- get_prototype;;
       ret (fold_left (styleSections_step proto (block_text block) inlineStyles styles start)
                      (seqZ start (end_ - start)) [])
  else ret [].

(** ** Text and markup *)

Definition newline : ascii := "010"%char.

(** The double quote character. *)
Definition dquote : ascii := "034"%char.

(** The [switch] of [getSectionText] on one element of the text array, with
    the string that the result becomes in the join: the default case returns
    the element itself, an [undefined] joins as nothing and a [true] as its
    name. *)
Definition escape_char (ch : option element) : option string :=
  match ch with
  | None => None
  | Some ETrue => Some "true"
  | Some (EChar c) =>
      if Ascii.eqb c newline then Some ("\s\s" +:+ String newline "")
      else if Ascii.eqb c "&" then Some "&amp;"
      else if Ascii.eqb c "<" then Some "&lt;"
      else if Ascii.eqb c ">" then Some "&gt;"
      else Some (String c "")
  end.

Definition getSectionText (text : list (option element)) : string :=
  if 0 <? Z.of_nat (List.length text)
  then Js.join (map escape_char text)
  else "".

Definition addInlineStyleMarkup (style : string) (content : string) : string :=
  if String.eqb style "BOLD" then "**" +:+ content +:+ "**"
  else if String.eqb style "ITALIC" then "*" +:+ content +:+ "*"
  else if String.eqb style "UNDERLINE" then "__" +:+ content +:+ "__"
  else if String.eqb style "STRIKETHROUGH" then "~~" +:+ content +:+ "~~"
  else if String.eqb style "CODE" then "`" +:+ content +:+ "`"
  else if String.eqb style "SUPERSCRIPT" then "<sup>" +:+ content +:+ "</sup>"
  else if String.eqb style "SUBSCRIPT" then "<sub>" +:+ content +:+ "</sub>"
  else content.

Definition getStyleTagSectionMarkdown (styles : Styles) (text : string) : string :=
  forEach styles (fun content style _ => addInlineStyleMarkup (key_name style) content) text.

(** [styles.K]. *)
Fixpoint styles_get (k : StyleKey) (styles : Styles) : option slot :=
  match styles with
  | [] => None
  | (k', v) :: styles' => if decide (k' = k) then Some v else styles_get k styles'
  end.

Definition addStylePropertyMarkdown (styleSection : StyleSection) : string :=
  let styles := ss_styles styleSection in
  let content := getSectionText (ss_text styleSection) in
  let prop (k : StyleKey) (name : string) (styleString : string) : string :=
    match styles_get k styles with
    | Some v => if truthy (Some v) then styleString +:+ name +:+ ": " +:+ slot_tpl v +:+ ";"
                else styleString
    | None => styleString
    end in
  if truthy (styles_get COLOR styles) || truthy (styles_get BGCOLOR styles)
     || truthy (styles_get FONTSIZE styles) || truthy (styles_get FONTFAMILY styles)
  then
    let styleString := "style=" +:+ String dquote EmptyString in
    let styleString := prop COLOR "color" styleString in
    let styleString := prop BGCOLOR "background-color" styleString in
    let styleString := prop FONTSIZE "font-size" styleString in
    let styleString := prop FONTFAMILY "font-family" styleString in
    let styleString := styleString +:+ String dquote EmptyString in
    "<span " +:+ styleString +:+ ">" +:+ content +:+ "</span>"
  else content.

Definition toggle_keys : list StyleKey :=
  [BOLD; ITALIC; UNDERLINE; STRIKETHROUGH; CODE; SUPERSCRIPT; SUBSCRIPT].

Definition property_keys : list StyleKey :=
  [COLOR; BGCOLOR; FONTSIZE; FONTFAMILY].

(** The callback of [styleSections.forEach] in [getEntitySectionMarkdown]. *)
Definition styleSection_markdown (block : Block) (styleSectionText : string)
    (styleSection : StyleSection) : M string :=
  stylePropertySections <-
    getStyleSections block property_keys (ss_start styleSection) (ss_end styleSection);;
  let stylePropertySectionText :=
    fold_left (fun acc stylePropertySection =>
                 acc +:+ addStylePropertyMarkdown stylePropertySection)
              stylePropertySections "" in
  ret (styleSectionText
       +:+ getStyleTagSectionMarkdown (ss_styles styleSection) stylePropertySectionText).

Definition getEntitySectionMarkdown (block : Block) (entityMap : gmap Z Entity)
    (entitySection : EntitySection) : M (option string) :=
  styleSections <-
    getStyleSections block toggle_keys (sec_start entitySection) (sec_end entitySection);;
  styleSectionText <- foldM (styleSection_markdown block) styleSections "";;
  let sectionText := Js.concat [styleSectionText] in
  match sec_entityKey entitySection with
  | Some entityKey =>
      proto <- get_prototype;;
      lift (getEntityMarkdown proto entityMap entityKey (Some sectionText))
  | None => ret (Some sectionText)
  end.

(** ** Leading and trailing blanks *)

(** A value together with the equation that names it, for the termination
    argument below. *)
Definition inspect {A : Type} (x : A) : {y : A | x = y} := exist _ x eq_refl.

(** The [for] loop of [trimLeadingZeros]: the test reads the original
    [sectionText], the bound is the length of the growing [replacedText].
    The loop goes on only while [sectionText[i]] is a blank, so at most
    [sectionText.length] times.  (Past the end of [sectionText] the value of
    [sectionText[i]] is [undefined] or an inherited [true]; neither is a
    blank, and the loop ends there.) *)
Equations? trimLeading_loop (sectionText : string) (i : nat) (replacedText : string)
    : string by wf (String.length sectionText - i)%nat lt :=
  trimLeading_loop sectionText i replacedText with (i <? String.length replacedText)%nat := {
    | false := replacedText
    | true with inspect (Js.charAt sectionText i) := {
        | exist _ None _ := replacedText
        | exist _ (Some c) Hc with Ascii.eqb c " " := {
            | true := trimLeading_loop sectionText (S i)
                        (Js.replace_first " " "&nbsp;" replacedText)
            | false := replacedText } } }.
Proof.
  clear trimLeading_loop. unfold Js.charAt in Hc.
  assert (Hlt : (i < String.length sectionText)%nat).
  { revert i Hc. induction sectionText as [|a s IH]; intros [|i] Hc; simpl in *;
      try discriminate; try lia.
    apply IH in Hc. lia. }
  lia.
Qed.

Definition trimLeadingZeros (sectionText : string) : string :=
  if String.eqb sectionText "" then sectionText
  else trimLeading_loop sectionText 0 sectionText.

(** The [for] loop of [trimTrailingZeros], [n] being [i + 1]: it runs while
    [i >= 0]. *)
Fixpoint trimTrailing_loop (n : nat) (replacedText : string) : string :=
  match n with
  | O => replacedText
  | S i =>
      match Js.charAt replacedText i with
      | Some c =>
          if Ascii.eqb c " "
          then trimTrailing_loop i
                 (Js.substring_to i replacedText +:+ "&nbsp;"
                  +:+ Js.substring_from (S i) replacedText)
          else replacedText
      | None => replacedText
      end
  end.

Definition trimTrailingZeros (sectionText : string) : string :=
  if String.eqb sectionText "" then sectionText
  else trimTrailing_loop (String.length sectionText) sectionText.

(** ** Blocks *)

(** The callback of [entitySections.forEach] in [getBlockContentMarkdown];
    [n] is [entitySections.length].  A value that is [undefined] is falsy and
    goes through both trimming functions unchanged. *)
Definition blockContent_step (block : Block) (entityMap : gmap Z Entity) (n : nat)
    (blockMarkdown : list (option string)) (indexed : nat * EntitySection)
    : M (list (option string)) :=
  let '(index, section) := indexed in
  sectionText <- getEntitySectionMarkdown block entityMap section;;
  let sectionText :=
    if (index =? 0)%nat then trimLeadingZeros <$> sectionText else sectionText in
  let sectionText :=
    if (index =? n - 1)%nat then trimTrailingZeros <$> sectionText else sectionText in
  ret (blockMarkdown ++ [sectionText]).

Definition getBlockContentMarkdown (block : Block) (entityMap : gmap Z Entity)
    : M (option string) :=
  if isAtomicBlock block
  then match block_entityRanges block with
       | r :: _ =>
           proto <- get_prototype;;
           lift (getEntityMarkdown proto entityMap (er_key r) None)
       | [] => ret None (* not reached: an atomic block has an entity range *)
       end
  else
    let entitySections := getEntitySections (block_entityRanges block) (text_length block) in
    blockMarkdown <-
      foldM (blockContent_step block entityMap (List.length entitySections))
            (imap pair entitySections) [];;
    ret (Some (Js.join blockMarkdown)).

Definition getBlockStyle (data : list (string * string)) : string :=
  forEach data (fun styles key value => styles +:+ key +:+ ":" +:+ value +:+ ";") "".

Definition getBlockStyleProperty (blockData : list (string * string))
    (content : option string) : option string :=
  let blockStyle := getBlockStyle blockData in
  if String.eqb blockStyle "" then content
  else Some ("<span style=" +:+ String dquote EmptyString +:+ blockStyle
             +:+ String dquote EmptyString +:+ ">" +:+ Js.tpl content +:+ "</span>").

(** The symbol is looked up and pushed before the content is rendered.
    [block.data], when present, is an object; an absent [data] and an empty
    one leave the content as it is. *)
Definition getBlockMarkdown (block : Block) (entityMap : gmap Z Entity) : M string :=
  proto <- get_prototype;;
  let blockTagSymbol := getBlockTagSymbol proto block in
  blockContentMarkdown <- getBlockContentMarkdown block entityMap;;
  let blockContentMarkdown := getBlockStyleProperty (block_data block) blockContentMarkdown in
  ret (Js.join [symbol_text <$> blockTagSymbol; blockContentMarkdown;
                Some (String newline "")]).

Definition getDepthPadding (depth : Z) : string :=
  Js.repeat " " (Z.to_nat (depth * 4)).

Record ContentState : Type := mkContentState {
  blocks : list Block;
  entityMap : gmap Z Entity
}.

Definition draftToMarkdown (editorContent : ContentState) : M string :=
  markdown <-
    foldM (fun markdown block =>
             content <- getBlockMarkdown block (entityMap editorContent);;
             let content :=
               if isList (block_type block)
               then getDepthPadding (block_depth block) +:+ content
               else content in
             ret (markdown ++ [content]))
          (blocks editorContent) [];;
  ret (Js.concat markdown).

(** * Definitions for the statements

    The functions below are not part of the program: they say, in the words
    of the specification, what the program is compared with, name the parts
    of its loops that the proofs follow, and fix the concrete blocks used as
    examples. *)

(** The number of blanks a string begins with. *)
Fixpoint leading_blanks (s : string) : nat :=
  match s with
  | EmptyString => O
  | String c s' => if Ascii.eqb c " " then S (leading_blanks s') else O
  end.

(** The number of blanks a string ends with. *)
Fixpoint trailing_blanks (s : string) : nat :=
  match s with
  | EmptyString => O
  | String c s' =>
      let n := trailing_blanks s' in
      if (n =? String.length s')%nat && Ascii.eqb c " " then S n else n
  end.

(** What section 4.5 asks of the leading end: each blank of the leading run
    becomes one marker, the rest of the string stays. *)
Definition leading_blanks_replaced (s : string) : string :=
  Js.repeat "&nbsp;" (leading_blanks s) +:+ Js.substring_from (leading_blanks s) s.

(** The same for the trailing end. *)
Definition trailing_blanks_replaced (s : string) : string :=
  Js.substring_to (String.length s - trailing_blanks s) s
  +:+ Js.repeat "&nbsp;" (trailing_blanks s).

(** Where the coverage of the ranges seen so far ends: the end of the last
    range, or [0] when there is none. *)
Definition coverage_end (rs : list EntityRange) : Z :=
  match last rs with
  | Some r => er_offset r + er_length r
  | None => 0
  end.

(** The sections pushed while the ranges [rs] are visited. *)
Definition emitted (rs : list EntityRange) : list EntitySection :=
  fst (fold_left entitySections_step rs ([], 0)).

(** The plain section pushed before range [r] when the coverage so far ends
    at [prev]. *)
Definition gap_section (prev : Z) (r : EntityRange) : list EntitySection :=
  if prev <? er_offset r then [mkEntitySection prev (er_offset r - 1) None] else [].

Definition entity_section (r : EntityRange) : EntitySection :=
  mkEntitySection (er_offset r) (er_offset r + er_length r) (Some (er_key r)).

(** The plain section pushed after the last range. *)
Definition final_section (lastOffset blockLength : Z) : list EntitySection :=
  if lastOffset <? blockLength then [mkEntitySection lastOffset blockLength None] else [].

(** The array and the value a style tag stands for, in the words of section
    4.1, written out tag by tag: a property tag gives the text after its
    prefix, a toggle name gives [true] in the array of that name, and so does
    the name of a property array; any other tag gives nothing. *)
Definition style_kind (style : string) : option (StyleKey * slot) :=
  if Js.startsWith "color-" style then Some (COLOR, VStr (Js.substring_from 6 style))
  else if Js.startsWith "bgcolor-" style then Some (BGCOLOR, VStr (Js.substring_from 8 style))
  else if Js.startsWith "fontsize-" style then Some (FONTSIZE, VStr (Js.substring_from 9 style))
  else if Js.startsWith "fontfamily-" style
  then Some (FONTFAMILY, VStr (Js.substring_from 11 style))
  else if String.eqb style "BOLD" then Some (BOLD, VTrue)
  else if String.eqb style "ITALIC" then Some (ITALIC, VTrue)
  else if String.eqb style "UNDERLINE" then Some (UNDERLINE, VTrue)
  else if String.eqb style "STRIKETHROUGH" then Some (STRIKETHROUGH, VTrue)
  else if String.eqb style "CODE" then Some (CODE, VTrue)
  else if String.eqb style "SUPERSCRIPT" then Some (SUPERSCRIPT, VTrue)
  else if String.eqb style "SUBSCRIPT" then Some (SUBSCRIPT, VTrue)
  else if String.eqb style "COLOR" then Some (COLOR, VTrue)
  else if String.eqb style "BGCOLOR" then Some (BGCOLOR, VTrue)
  else if String.eqb style "FONTSIZE" then Some (FONTSIZE, VTrue)
  else if String.eqb style "FONTFAMILY" then Some (FONTFAMILY, VTrue)
  else None.

(** The value that range [r] puts in slot [i] of array [k], if it covers it. *)
Definition writes_to (k : StyleKey) (i : Z) (r : InlineStyleRange) : option slot :=
  match style_kind (isr_style r) with
  | Some (k', v) =>
      if bool_decide (k' = k) && (isr_offset r <=? i) && (i <? isr_offset r + isr_length r)
      then Some v else None
  | None => None
  end.

(** Last write wins: the values written to slot [i] of array [k], in input
    order, and the last of them. *)
Definition last_write (k : StyleKey) (i : Z) (ranges : list InlineStyleRange) : option slot :=
  last (omap (writes_to k i) ranges).

(** One write to the arrays, for a tag that does not throw. *)
Definition write_pure (range : InlineStyleRange) (s : InlineStyles) (i : Z) : InlineStyles :=
  match style_kind (isr_style range) with
  | Some (k, v) => set_slot s k i v
  | None => s
  end.

(** All the writes of one range. *)
Definition range_pure (s : InlineStyles) (range : InlineStyleRange) : InlineStyles :=
  fold_left (write_pure range) (seqZ (isr_offset range) (isr_length range)) s.

(** The comparison of [sameStyleAsPrevious] without its bounds test. *)
Definition same_slots (proto : ObjectPrototype) (inlineStyles : InlineStyles)
    (styles : list StyleKey) (index : Z) : bool :=
  forallb (fun style =>
             bool_decide (array_get proto (style_array inlineStyles style) index
                          = array_get proto (style_array inlineStyles style) (index - 1)))
          styles.

(** The loop body with the comparison alone: what the body does at an index
    inside the text. *)
Definition run_step (proto : ObjectPrototype) (text : string) (inlineStyles : InlineStyles)
    (styles : list StyleKey) (start : Z) (styleSections : list StyleSection) (i : Z)
    : list StyleSection :=
  if negb (i =? start) && same_slots proto inlineStyles styles i
  then alter_last
         (fun section =>
            mkStyleSection (ss_styles section) (ss_text section ++ [text_get proto text i])
                           (ss_start section) (i + 1))
         styleSections
  else styleSections
         ++ [mkStyleSection (getStylesAtOffset proto inlineStyles i)
                            [text_get proto text i] i (i + 1)].

(** The positions at which the loop opens a run. *)
Definition opens_run (proto : ObjectPrototype) (inlineStyles : InlineStyles)
    (styles : list StyleKey) (start i : Z) : bool :=
  negb (negb (i =? start) && same_slots proto inlineStyles styles i).

(** The runs [sections] tile [[a, b)]: each begins where the one before it
    ends, none is empty, the first begins at [a] and the last ends at [b]. *)
Fixpoint tiles (a b : Z) (sections : list StyleSection) : Prop :=
  match sections with
  | [] => a = b
  | section :: rest =>
      ss_start section = a /\ a < ss_end section /\ tiles (ss_end section) b rest
  end.

(** The markup of key [k], applied when the slot of [k] at [offset] is
    truthy. *)
Definition wrap_if (proto : ObjectPrototype) (inlineStyles : InlineStyles) (offset : Z)
    (content : string) (k : StyleKey) : string :=
  if truthy (array_get proto (style_array inlineStyles k) offset)
  then addInlineStyleMarkup (key_name k) content
  else content.

(** The order in which [getStylesAtOffset] inserts the toggle keys. *)
Definition toggle_insertion_order : list StyleKey :=
  [SUBSCRIPT; SUPERSCRIPT; CODE; STRIKETHROUGH; UNDERLINE; ITALIC; BOLD].

(** Rendering every element in turn; the first error ends it. *)
Fixpoint mapM {A B : Type} (f : A -> M B) (l : list A) : M (list B) :=
  match l with
  | [] => ret []
  | x :: l' => y <- f x;; ys <- mapM f l';; ret (y :: ys)
  end.

(** What the callback of [getBlockContentMarkdown] does to the text of the
    section at [index] out of [n]. *)
Definition trim_at (n index : nat) (sectionText : option string) : option string :=
  let sectionText :=
    if (index =? 0)%nat then trimLeadingZeros <$> sectionText else sectionText in
  if (index =? n - 1)%nat then trimTrailingZeros <$> sectionText else sectionText.

(** Section 4.5 in its own words: the first text is trimmed at its leading
    end, the last text at its trailing end, nothing else is touched. *)
Definition trim_first (texts : list (option string)) : list (option string) :=
  match texts with
  | [] => []
  | t :: rest => (trimLeadingZeros <$> t) :: rest
  end.

Definition trim_edges (texts : list (option string)) : list (option string) :=
  alter_last (fmap trimTrailingZeros) (trim_first texts).

(** The arrays of a block without inline style ranges. *)
Definition no_styles (len : Z) : InlineStyles := mkInlineStyles (fun _ => ∅) len.

(** The escaping of section 4.4, character by character. *)
Definition escape1 (c : ascii) : string :=
  if Ascii.eqb c newline then "\s\s" +:+ String newline ""
  else if Ascii.eqb c "&" then "&amp;"
  else if Ascii.eqb c "<" then "&lt;"
  else if Ascii.eqb c ">" then "&gt;"
  else String c "".

Fixpoint escape_text (text : string) : string :=
  match text with
  | EmptyString => EmptyString
  | String c text' => escape1 c +:+ escape_text text'
  end.

(** The span that [getBlockStyleProperty] puts around the content when the
    block has style data. *)
Definition block_style_span (data : list (string * string)) (content : string) : string :=
  if String.eqb (getBlockStyle data) "" then content
  else "<span style=" +:+ String dquote EmptyString +:+ getBlockStyle data
       +:+ String dquote EmptyString +:+ ">" +:+ content +:+ "</span>".

(** The prefix of a block type in the words of section 4.7, type by type:
    one to six [#] and a blank for the six headings, [- ] and [1. ] for the
    two list items, [> ] for a blockquote, nothing for unstyled text and, as
    section 7 has it, for a type that the table does not know. *)
Definition block_prefix (block : Block) : string :=
  let type := block_type block in
  if String.eqb type "header-one" then "# "
  else if String.eqb type "header-two" then "## "
  else if String.eqb type "header-three" then "### "
  else if String.eqb type "header-four" then "#### "
  else if String.eqb type "header-five" then "##### "
  else if String.eqb type "header-six" then "###### "
  else if String.eqb type "unordered-list-item" then "- "
  else if String.eqb type "ordered-list-item" then "1. "
  else if String.eqb type "blockquote" then "> "
  else "".

(** The names of the properties that every object inherits from a fresh
    [Object.prototype]. *)
Definition prototype_names : list string :=
  [ "__proto__"; "constructor"; "__defineGetter__"; "__defineSetter__";
    "hasOwnProperty"; "__lookupGetter__"; "__lookupSetter__"; "isPrototypeOf";
    "propertyIsEnumerable"; "toString"; "valueOf"; "toLocaleString" ].

(** The string [name] is the numeral of an index that [Object.prototype]
    holds. *)
Definition names_index (proto : ObjectPrototype) (name : string) : Prop :=
  exists i, i ∈ proto /\ name = index_name i.

(** [Object.prototype] holds no index of [[a, b)]. *)
Definition clean_on (proto : ObjectPrototype) (a b : Z) : Prop :=
  forall i, a <= i < b -> i ∉ proto.

(** The indices that a range puts on [Object.prototype]: the offsets it
    covers, when its tag is [__proto__]. *)
Definition prototype_range (r : InlineStyleRange) : gset Z :=
  if String.eqb (isr_style r) "__proto__"
  then list_to_set (seqZ (isr_offset r) (isr_length r))
  else ∅.

(** The indices that the ranges of a block put there. *)
Definition prototype_writes (ranges : list InlineStyleRange) : gset Z :=
  ⋃ (prototype_range <$> ranges).

(** The tag begins with one of the four prefixes of the property tags. *)
Definition prefixed (style : string) : bool :=
  Js.startsWith "color-" style || Js.startsWith "bgcolor-" style
  || Js.startsWith "fontsize-" style || Js.startsWith "fontfamily-" style.

(** Range [r] makes the builder throw [e] when the loop comes to it with a
    text of length [len] and [Object.prototype] in state [proto]: it covers
    an offset, and its tag is [length] (with a text that is not empty) or the
    numeral of an index that [Object.prototype] holds. *)
Definition range_throws (len : Z) (proto : ObjectPrototype) (r : InlineStyleRange)
    (e : error) : Prop :=
  0 < isr_length r /\ prefixed (isr_style r) = false
  /\ ((isr_style r = "length" /\ len <> 0 /\ e = TypeError_number_property)
      \/ (names_index proto (isr_style r) /\ e = TypeError_boolean_property)).

(** Some range of the list makes the builder throw, in the state in which
    the ranges before it leave [Object.prototype]. *)
Definition some_range_throws (len : Z) (proto : ObjectPrototype)
    (ranges : list InlineStyleRange) : Prop :=
  exists pre r post e,
    ranges = pre ++ r :: post
    /\ range_throws len (proto ∪ prototype_writes pre) r e.

Definition link_map : gmap Z Entity :=
  {[ 0 := mkEntity "LINK" (mkEntityData (Some "u") None) ]}.

Definition image_map : gmap Z Entity :=
  {[ 0 := mkEntity "IMAGE" (mkEntityData None (Some "a.png")) ]}.

(** The atomic block of section 8. *)
Definition atomic_block : Block :=
  mkBlock "unstyled" "" 0 [] [mkEntityRange 0 0 0] [].

(** Four characters, the third of which is a link. *)
Definition gap_block : Block :=
  mkBlock "unstyled" "abcd" 0 [] [mkEntityRange 0 2 1] [].

Definition bold_underline_block : Block :=
  mkBlock "unstyled" "x" 0
          [mkInlineStyleRange "BOLD" 0 1; mkInlineStyleRange "UNDERLINE" 0 1] [] [].

Definition bold_italic_block : Block :=
  mkBlock "unstyled" "abcdefgh" 0
          [mkInlineStyleRange "BOLD" 0 5; mkInlineStyleRange "ITALIC" 2 5] [] [].

Definition two_colors_block : Block :=
  mkBlock "unstyled" "abcd" 0
          [mkInlineStyleRange "color-red" 0 3; mkInlineStyleRange "color-blue" 1 2] [] [].

Definition leading_blank_block : Block :=
  mkBlock "unstyled" " a" 0 [] [] [].

Definition missing_key_block : Block :=
  mkBlock "unstyled" "ab" 0 [] [mkEntityRange 7 0 1] [].

(** Two characters, the first of which is an entity with key 0 and is
    covered by a range tagged [__proto__]. *)
Definition prototype_key_block : Block :=
  mkBlock "unstyled" "ab" 0 [mkInlineStyleRange "__proto__" 0 1] [mkEntityRange 0 0 1] [].

(** A block with style data. *)
Definition centered_block : Block :=
  mkBlock "unstyled" "hi" 0 [] [] [("text-align", "center")].


(** ** Definitions for the further properties *)

(** What every run of [getStyleSections] is: its styles are those at its
    first offset, its text is the characters of its interval, and inside it
    every selected key keeps its value from one offset to the next. *)
Definition run_ok (proto : ObjectPrototype) (text : string) (inlineStyles : InlineStyles)
    (styles : list StyleKey) (section : StyleSection) : Prop :=
  ss_styles section = getStylesAtOffset proto inlineStyles (ss_start section)
  /\ ss_text section
     = map (text_get proto text)
           (seqZ (ss_start section) (ss_end section - ss_start section))
  /\ forall j k, ss_start section < j < ss_end section -> k ∈ styles ->
                 array_get proto (style_array inlineStyles k) j
                 = array_get proto (style_array inlineStyles k) (j - 1).

(** The value the styles object holds for key [k]: the slot itself for a
    property key, [true] for a toggle key, nothing when the slot is falsy. *)
Definition style_at (proto : ObjectPrototype) (inlineStyles : InlineStyles) (offset : Z)
    (k : StyleKey) : option slot :=
  if truthy (array_get proto (style_array inlineStyles k) offset)
  then if bool_decide (k ∈ property_keys)
       then array_get proto (style_array inlineStyles k) offset
       else Some VTrue
  else None.

(** One declaration of the style attribute, empty when the slot is falsy. *)
Definition declaration (proto : ObjectPrototype) (inlineStyles : InlineStyles)
    (offset : Z) (k : StyleKey) (name : string) : string :=
  match style_at proto inlineStyles offset k with
  | Some v => name +:+ ": " +:+ slot_tpl v +:+ ";"
  | None => EmptyString
  end.

(** Offset [j] is in section [section]. *)
Definition covers (j : Z) (section : EntitySection) : bool :=
  (sec_start section <=? j) && (j <? sec_end section).

(** The number of sections that offset [j] is in. *)
Definition cover_count (j : Z) (sections : list EntitySection) : nat :=
  List.length (List.filter (covers j) sections).

(** The ranges are sorted and do not overlap, the first beginning at [prev]
    or later, and none has a negative length. *)
Fixpoint ranges_sorted (prev : Z) (rs : list EntityRange) : Prop :=
  match rs with
  | [] => True
  | r :: rs' =>
      prev <= er_offset r /\ 0 <= er_length r
      /\ ranges_sorted (er_offset r + er_length r) rs'
  end.

(** Offset [j] is the last offset of a gap: some range begins at [j + 1],
    after the end of the coverage before it. *)
Fixpoint gap_seam (prev j : Z) (rs : list EntityRange) : bool :=
  match rs with
  | [] => false
  | r :: rs' =>
      ((prev <? er_offset r) && (j =? er_offset r - 1))
      || gap_seam (er_offset r + er_length r) j rs'
  end.

(** The sections pushed for the ranges [rs] when the coverage so far ends at
    [prev], and where the coverage ends after them. *)
Fixpoint sections_from (prev : Z) (rs : list EntityRange) : list EntitySection :=
  match rs with
  | [] => []
  | r :: rs' =>
      gap_section prev r ++ entity_section r
        :: sections_from (er_offset r + er_length r) rs'
  end.

Fixpoint end_from (prev : Z) (rs : list EntityRange) : Z :=
  match rs with
  | [] => prev
  | r :: rs' => end_from (er_offset r + er_length r) rs'
  end.

(** The output of one block in the document: its markdown, after the padding
    of its depth when its type is a list type. *)
Definition block_output (entityMap : gmap Z Entity) (block : Block) : M string :=
  content <- getBlockMarkdown block entityMap;;
  ret (if isList (block_type block)
       then getDepthPadding (block_depth block) +:+ content
       else content).

(** The style arrays of a block whose one range is the toggle [k] over the
    whole text. *)
Definition toggle_arrays (block : Block) (k : StyleKey) : InlineStyles :=
  range_pure (no_styles (text_length block))
             (mkInlineStyleRange (key_name k) 0 (text_length block)).

(** The style arrays of [bold_italic_block]. *)
Definition bold_italic_arrays : InlineStyles :=
  fold_left range_pure (block_inlineStyleRanges bold_italic_block) (no_styles 8).

Definition length_tag_block : Block :=
  mkBlock "unstyled" "ab" 0 [mkInlineStyleRange "length" 0 1] [] [].

(** A range tagged [__proto__] over offset 3, then a range tagged [3]. *)
Definition numeral_tag_block : Block :=
  mkBlock "unstyled" "abcd" 0
          [mkInlineStyleRange "__proto__" 3 1; mkInlineStyleRange "3" 0 1] [] [].

(** One character, covered by a range tagged [__proto__]. *)
Definition prototype_block : Block :=
  mkBlock "unstyled" "a" 0 [mkInlineStyleRange "__proto__" 0 1] [] [].

Definition plain_block : Block :=
  mkBlock "unstyled" "cd" 0 [] [] [].

(** The indices that the blocks of a document put on [Object.prototype]. *)
Definition document_writes (bs : list Block) : gset Z :=
  ⋃ ((fun block => prototype_writes (block_inlineStyleRanges block)) <$> bs).

Definition bold_block : Block :=
  mkBlock "unstyled" " hi " 0 [mkInlineStyleRange "BOLD" 0 4] [] [].

Definition embed_map : gmap Z Entity :=
  {[ 0 := mkEntity "EMBED" (mkEntityData (Some "u") None) ]}.

Definition larger_map : gmap Z Entity :=
  <[ 5 := mkEntity "IMAGE" (mkEntityData None (Some "a.png")) ]> link_map.

(** The characters a numeral begins with. *)
Definition numeral_head (c : ascii) : Prop :=
  In c ["-"; "0"; "1"; "2"; "3"; "4"; "5"; "6"; "7"; "8"; "9"]%char.

(** While a block is rendered from state [proto], [Object.prototype] holds
    what it held and, at most, what the ranges of the block put there. *)
Definition reached (block : Block) (proto proto' : ObjectPrototype) : Prop :=
  proto ⊆ proto' /\ proto' ⊆ proto ∪ prototype_writes (block_inlineStyleRanges block).

(** The error that a write under the tag [style] raises, if it raises one,
    with a text of length [len] and [Object.prototype] in state [proto]. *)
Definition tag_error (len : Z) (proto : ObjectPrototype) (style : string) : option error :=
  match style_kind style with
  | Some _ => None
  | None =>
      if String.eqb style "length"
      then if len =? 0 then None else Some TypeError_number_property
      else match inherited_property proto style with
           | Some ITrue => Some TypeError_boolean_property
           | _ => None
           end
  end.

(** The indices that the writes of the indices [l] under the tag [style] put
    on [Object.prototype]. *)
Definition tag_writes (style : string) (l : list Z) : gset Z :=
  if String.eqb style "__proto__" then list_to_set l else ∅.

(** The error of the first range that throws, when the ranges are visited
    from state [proto]. *)
Definition range_error (len : Z) (proto : ObjectPrototype) (r : InlineStyleRange)
    : option error :=
  if 0 <? isr_length r then tag_error len proto (isr_style r) else None.

Fixpoint first_error (len : Z) (proto : ObjectPrototype) (ranges : list InlineStyleRange)
    : option error :=
  match ranges with
  | [] => None
  | r :: ranges' =>
      match range_error len proto r with
      | Some e => Some e
      | None => first_error len (proto ∪ prototype_range r) ranges'
      end
  end.

(** * Tactics *)

(** Settle a comparison of integers that [lia] decides. *)
Ltac ltb_true a b :=
  replace (a <? b) with true by (symmetry; apply Z.ltb_lt; simpl; lia).

Ltac ltb_false a b :=
  replace (a <? b) with false by (symmetry; apply Z.ltb_ge; simpl; lia).

(** Walk down a chain of [if]s, closing each taken branch with [tac]. *)
Ltac walk_ifs tac :=
  repeat (match goal with |- context [if ?b then _ else _] => destruct b end; [tac|]).

(** * Facts about strings *)

Section StringFacts.

Lemma sapp_nil_l (s : string) : "" +:+ s = s.
Proof. reflexivity. Qed.

Lemma sapp_cons (a : ascii) (s t : string) : String a s +:+ t = String a (s +:+ t).
Proof. reflexivity. Qed.

Lemma sapp_nil_r (s : string) : s +:+ "" = s.
Proof. induction s as [|a s IH]; [reflexivity|]. rewrite sapp_cons, IH. reflexivity. Qed.

Lemma sapp_assoc (s t u : string) : (s +:+ t) +:+ u = s +:+ t +:+ u.
Proof.
  induction s as [|a s IH]; [reflexivity|].
  rewrite !sapp_cons, IH. reflexivity.
Qed.

Lemma length_sapp (s t : string) :
  String.length (s +:+ t) = (String.length s + String.length t)%nat.
Proof.
  induction s as [|a s IH]; [reflexivity|].
  rewrite sapp_cons. simpl. rewrite IH. reflexivity.
Qed.

Lemma charAt_app_l (s t : string) (i : nat) :
  (i < String.length s)%nat -> Js.charAt (s +:+ t) i = Js.charAt s i.
Proof.
  unfold Js.charAt. revert i.
  induction s as [|a s IH]; intros i Hi; simpl in Hi; [lia|].
  rewrite sapp_cons. destruct i as [|i]; simpl; [reflexivity|].
  apply IH. lia.
Qed.

Lemma charAt_app_r (s t : string) (i : nat) :
  Js.charAt (s +:+ t) (String.length s + i) = Js.charAt t i.
Proof.
  unfold Js.charAt. induction s as [|a s IH]; [reflexivity|].
  rewrite sapp_cons. simpl. exact IH.
Qed.

Lemma charAt_lt (s : string) (i : nat) (c : ascii) :
  Js.charAt s i = Some c -> (i < String.length s)%nat.
Proof.
  unfold Js.charAt. revert i.
  induction s as [|a s IH]; intros [|i] H; simpl in *; try discriminate; try lia.
  apply IH in H. lia.
Qed.

Lemma charAt_ge (s : string) (i : nat) :
  (String.length s <= i)%nat -> Js.charAt s i = None.
Proof.
  unfold Js.charAt. revert i.
  induction s as [|a s IH]; intros [|i] H; simpl in *; try reflexivity; try lia.
  apply IH. lia.
Qed.

Lemma substring_to_app (s t : string) :
  Js.substring_to (String.length s) (s +:+ t) = s.
Proof.
  induction s as [|a s IH]; [reflexivity|].
  rewrite sapp_cons. simpl. rewrite IH. reflexivity.
Qed.

Lemma substring_from_app (s t : string) :
  Js.substring_from (String.length s) (s +:+ t) = t.
Proof.
  induction s as [|a s IH]; [reflexivity|].
  rewrite sapp_cons. simpl. exact IH.
Qed.

Lemma substring_split (n : nat) (s : string) :
  Js.substring_to n s +:+ Js.substring_from n s = s.
Proof.
  revert s. induction n as [|n IH]; intros s; [reflexivity|].
  destruct s as [|a s]; [reflexivity|].
  simpl. rewrite sapp_cons, IH. reflexivity.
Qed.

Lemma length_substring_to (n : nat) (s : string) :
  (n <= String.length s)%nat -> String.length (Js.substring_to n s) = n.
Proof.
  revert s. induction n as [|n IH]; intros s Hn; [reflexivity|].
  destruct s as [|a s]; simpl in *; [lia|].
  rewrite IH; [reflexivity|lia].
Qed.

Lemma repeat_snoc (s : string) (k : nat) : Js.repeat s k +:+ s = s +:+ Js.repeat s k.
Proof.
  induction k as [|k IH]; simpl.
  - rewrite sapp_nil_l, sapp_nil_r. reflexivity.
  - rewrite sapp_assoc, IH. reflexivity.
Qed.

Lemma length_repeat_char (c : ascii) (k : nat) :
  String.length (Js.repeat (String c "") k) = k.
Proof.
  induction k as [|k IH]; [reflexivity|].
  change (Js.repeat (String c "") (S k)) with (String c (Js.repeat (String c "") k)).
  simpl. rewrite IH. reflexivity.
Qed.

(** Every string of positive length ends in a last character. *)
Lemma string_snoc_inv (s : string) (n : nat) :
  String.length s = S n ->
  exists s' c, s = s' +:+ String c "" /\ String.length s' = n.
Proof.
  revert n. induction s as [|a s IH]; intros n Hn; simpl in Hn; [discriminate|].
  destruct s as [|b s].
  - exists "", a. split; [reflexivity|]. simpl in *. lia.
  - destruct n as [|n]; [simpl in Hn; lia|].
    destruct (IH n) as (s' & c & Hs & Hl); [simpl in *; lia|].
    exists (String a s'), c. rewrite sapp_cons, <- Hs. split; [reflexivity|].
    simpl. rewrite Hl. reflexivity.
Qed.

End StringFacts.

(** * Leading and trailing blanks *)

Section Trim.

Lemma trimLeading_loop_eq (sectionText : string) (i : nat) (replacedText : string) :
  trimLeading_loop sectionText i replacedText =
  if (i <? String.length replacedText)%nat
  then match Js.charAt sectionText i with
       | Some c =>
           if Ascii.eqb c " "
           then trimLeading_loop sectionText (S i) (Js.replace_first " " "&nbsp;" replacedText)
           else replacedText
       | None => replacedText
       end
  else replacedText.
Proof.
  rewrite trimLeading_loop_equation_1.
  destruct (i <? String.length replacedText)%nat; [|reflexivity].
  unfold trimLeading_loop_unfold_clause_1.
  destruct (inspect (Js.charAt sectionText i)) as [[c|] Hc]; simpl.
  - destruct (Ascii.eqb c " ") eqn:Hblank; simpl; rewrite Hc, Hblank; reflexivity.
  - rewrite Hc. reflexivity.
Qed.

Lemma blanks_split (s : string) :
  s = Js.repeat " " (leading_blanks s) +:+ Js.substring_from (leading_blanks s) s.
Proof.
  induction s as [|c s IH]; [reflexivity|].
  simpl. destruct (Ascii.eqb_spec c " ") as [->|Hc]; [|reflexivity].
  simpl. rewrite sapp_assoc, <- IH. reflexivity.
Qed.

Lemma leading_blanks_rest (s : string) :
  leading_blanks (Js.substring_from (leading_blanks s) s) = O.
Proof.
  induction s as [|c s IH]; [reflexivity|].
  simpl. destruct (Ascii.eqb_spec c " ") as [->|Hc]; simpl; [exact IH|].
  destruct (Ascii.eqb_spec c " "); [contradiction|reflexivity].
Qed.

Lemma replace_first_nbsp (j : nat) (t : string) :
  Js.replace_first " " "&nbsp;" (Js.repeat "&nbsp;" j +:+ String " " t)
  = Js.repeat "&nbsp;" (S j) +:+ t.
Proof.
  induction j as [|j IH].
  - reflexivity.
  - change (Js.repeat "&nbsp;" (S j)) with ("&nbsp;" +:+ Js.repeat "&nbsp;" j) at 1.
    rewrite sapp_assoc.
    change ("&nbsp;" +:+ Js.repeat "&nbsp;" j +:+ String " " t)
      with (String "&" (String "n" (String "b" (String "s" (String "p" (String ";"
              (Js.repeat "&nbsp;" j +:+ String " " t))))))).
    simpl Js.replace_first. rewrite IH.
    change (Js.repeat "&nbsp;" (S (S j))) with ("&nbsp;" +:+ Js.repeat "&nbsp;" (S j)).
    rewrite sapp_assoc. reflexivity.
Qed.

Lemma length_repeat_nbsp (j : nat) : String.length (Js.repeat "&nbsp;" j) = (6 * j)%nat.
Proof.
  induction j as [|j IH]; [reflexivity|].
  change (Js.repeat "&nbsp;" (S j)) with ("&nbsp;" +:+ Js.repeat "&nbsp;" j).
  rewrite length_sapp, IH. simpl. lia.
Qed.

(** The loop invariant of [trimLeadingZeros]: after [j] turns the first [j]
    blanks are markers and the remaining ones are still blanks. *)
Lemma trimLeading_loop_blanks (d k j : nat) (rest : string) :
  (k = j + d)%nat -> leading_blanks rest = O ->
  trimLeading_loop (Js.repeat " " k +:+ rest) j
    (Js.repeat "&nbsp;" j +:+ Js.repeat " " d +:+ rest)
  = Js.repeat "&nbsp;" k +:+ rest.
Proof.
  revert j. induction d as [|d IH]; intros j Hk Hrest.
  - assert (k = j) as -> by lia. rewrite sapp_nil_l.
    rewrite trimLeading_loop_eq.
    destruct (j <? _)%nat; [|reflexivity].
    replace j with (String.length (Js.repeat " " j) + 0)%nat at 2
      by (rewrite length_repeat_char; lia).
    rewrite charAt_app_r.
    destruct rest as [|c rest]; [reflexivity|].
    simpl in *. destruct (Ascii.eqb c " "); [discriminate|reflexivity].
  - rewrite trimLeading_loop_eq.
    assert (Hlen : (j <? String.length
                     (Js.repeat "&nbsp;" j +:+ Js.repeat " " (S d) +:+ rest))%nat = true).
    { apply Nat.ltb_lt. rewrite !length_sapp, length_repeat_nbsp, length_repeat_char. lia. }
    rewrite Hlen.
    assert (Hc : Js.charAt (Js.repeat " " k +:+ rest) j = Some " "%char).
    { rewrite charAt_app_l by (rewrite length_repeat_char; lia).
      subst k. clear. induction j as [|j IHj]; [reflexivity|exact IHj]. }
    rewrite Hc. simpl Ascii.eqb.
    change (Js.repeat " " (S d)) with (String " " (Js.repeat " " d)).
    rewrite sapp_cons, replace_first_nbsp.
    apply IH; [lia|assumption].
Qed.

Lemma trimLeadingZeros_replaced (s : string) :
  trimLeadingZeros s = leading_blanks_replaced s.
Proof.
  unfold trimLeadingZeros, leading_blanks_replaced.
  destruct (String.eqb_spec s "") as [->|_]; [reflexivity|].
  pose proof (trimLeading_loop_blanks (leading_blanks s) (leading_blanks s) 0
                (Js.substring_from (leading_blanks s) s) eq_refl
                (leading_blanks_rest s)) as H.
  rewrite sapp_nil_l in H. rewrite <- !blanks_split in H. exact H.
Qed.

Lemma trailing_blanks_snoc (p : string) (c : ascii) :
  trailing_blanks (p +:+ String c "")
  = if Ascii.eqb c " " then S (trailing_blanks p) else O.
Proof.
  induction p as [|a p IH].
  - rewrite sapp_nil_l. simpl. destruct (Ascii.eqb c " "); reflexivity.
  - rewrite sapp_cons. simpl. rewrite IH, length_sapp. simpl.
    destruct (Ascii.eqb c " ").
    + replace (S (trailing_blanks p) =? String.length p + 1)%nat
        with (trailing_blanks p =? String.length p)%nat.
      * destruct ((trailing_blanks p =? String.length p)%nat && Ascii.eqb a " ");
          reflexivity.
      * destruct (Nat.eqb_spec (trailing_blanks p) (String.length p));
          symmetry; [apply Nat.eqb_eq|apply Nat.eqb_neq]; lia.
    + replace (0 =? String.length p + 1)%nat with false; [reflexivity|].
      symmetry. apply Nat.eqb_neq. lia.
Qed.

Lemma trailing_blanks_le (s : string) : (trailing_blanks s <= String.length s)%nat.
Proof.
  induction s as [|a s IH]; simpl; [lia|].
  destruct ((trailing_blanks s =? String.length s)%nat && Ascii.eqb a " "); lia.
Qed.

Lemma substring_to_app_le (k : nat) (s t : string) :
  (k <= String.length s)%nat -> Js.substring_to k (s +:+ t) = Js.substring_to k s.
Proof.
  revert s. induction k as [|k IH]; intros s Hk; [reflexivity|].
  destruct s as [|a s]; simpl in Hk; [lia|].
  rewrite sapp_cons. simpl. rewrite IH by lia. reflexivity.
Qed.

Lemma substring_to_all (s : string) : Js.substring_to (String.length s) s = s.
Proof. induction s as [|a s IH]; simpl; [reflexivity|]. rewrite IH. reflexivity. Qed.

Lemma trimTrailing_loop_S (i : nat) (replacedText : string) :
  trimTrailing_loop (S i) replacedText
  = match Js.charAt replacedText i with
    | Some c =>
        if Ascii.eqb c " "
        then trimTrailing_loop i
               (Js.substring_to i replacedText +:+ "&nbsp;"
                +:+ Js.substring_from (S i) replacedText)
        else replacedText
    | None => replacedText
    end.
Proof. reflexivity. Qed.

(** The loop invariant of [trimTrailingZeros]: the text is a prefix [p] still
    to be scanned from its end, followed by what the loop has produced. *)
Lemma trimTrailing_loop_blanks (n : nat) (p q : string) :
  String.length p = n ->
  trimTrailing_loop n (p +:+ q)
  = Js.substring_to (n - trailing_blanks p) p
    +:+ Js.repeat "&nbsp;" (trailing_blanks p) +:+ q.
Proof.
  revert p q. induction n as [|i IH]; intros p q Hp.
  - destruct p; [reflexivity|discriminate].
  - destruct (string_snoc_inv p i Hp) as (p' & c & -> & Hp').
    rewrite trimTrailing_loop_S.
    assert (Hc : Js.charAt ((p' +:+ String c "") +:+ q) i = Some c).
    { rewrite sapp_assoc. replace i with (String.length p' + 0)%nat by lia.
      rewrite charAt_app_r. reflexivity. }
    rewrite Hc, trailing_blanks_snoc.
    destruct (Ascii.eqb c " ").
    + subst i. rewrite sapp_assoc, substring_to_app.
      replace (S (String.length p')) with (String.length (p' +:+ String c ""))
        by (rewrite length_sapp; simpl; lia).
      rewrite <- (sapp_assoc p' (String c "") q), substring_from_app.
      rewrite IH by reflexivity.
      rewrite length_sapp. simpl String.length.
      replace (String.length p' + 1 - S (trailing_blanks p'))%nat
        with (String.length p' - trailing_blanks p')%nat by lia.
      rewrite substring_to_app_le by (pose proof (trailing_blanks_le p'); lia).
      change (Js.repeat "&nbsp;" (S (trailing_blanks p')))
        with ("&nbsp;" +:+ Js.repeat "&nbsp;" (trailing_blanks p')).
      rewrite <- repeat_snoc, !sapp_assoc. reflexivity.
    + rewrite Nat.sub_0_r, <- Hp, substring_to_all. reflexivity.
Qed.

Lemma trimTrailingZeros_replaced (s : string) :
  trimTrailingZeros s = trailing_blanks_replaced s.
Proof.
  unfold trimTrailingZeros, trailing_blanks_replaced.
  destruct (String.eqb_spec s "") as [->|_]; [reflexivity|].
  rewrite <- (sapp_nil_r s) at 2.
  rewrite trimTrailing_loop_blanks by reflexivity.
  rewrite sapp_nil_r. reflexivity.
Qed.

Lemma leading_blanks_replaced_none (s : string) :
  leading_blanks (leading_blanks_replaced s) = O.
Proof.
  unfold leading_blanks_replaced.
  destruct (leading_blanks s) as [|k] eqn:Hk.
  - rewrite sapp_nil_l. rewrite <- Hk at 1. apply leading_blanks_rest.
  - reflexivity.
Qed.

Lemma trailing_blanks_replaced_none (s : string) :
  trailing_blanks (trailing_blanks_replaced s) = O.
Proof.
  unfold trailing_blanks_replaced.
  destruct (trailing_blanks s) as [|k] eqn:Hk.
  - simpl Js.repeat. rewrite sapp_nil_r, Nat.sub_0_r, substring_to_all. exact Hk.
  - change (Js.repeat "&nbsp;" (S k)) with ("&nbsp;" +:+ Js.repeat "&nbsp;" k).
    rewrite <- repeat_snoc.
    change "&nbsp;" with ("&nbsp" +:+ String ";" "") at 2.
    rewrite <- !sapp_assoc. rewrite trailing_blanks_snoc. reflexivity.
Qed.

Lemma leading_blanks_replaced_id (s : string) :
  leading_blanks s = O -> leading_blanks_replaced s = s.
Proof. unfold leading_blanks_replaced. intros ->. reflexivity. Qed.

Lemma trailing_blanks_replaced_id (s : string) :
  trailing_blanks s = O -> trailing_blanks_replaced s = s.
Proof.
  unfold trailing_blanks_replaced. intros ->.
  rewrite Nat.sub_0_r, substring_to_all. apply sapp_nil_r.
Qed.

(** C10: both whitespace-trimming operations are idempotent:
    [trimLeadingZeros (trimLeadingZeros s) = trimLeadingZeros s] and
    [trimTrailingZeros (trimTrailingZeros s) = trimTrailingZeros s] for every
    string [s]. *)
Theorem trim_idempotent (s : string) :
  trimLeadingZeros (trimLeadingZeros s) = trimLeadingZeros s
  /\ trimTrailingZeros (trimTrailingZeros s) = trimTrailingZeros s.
Proof.
  split.
  - rewrite (trimLeadingZeros_replaced s), trimLeadingZeros_replaced.
    apply leading_blanks_replaced_id, leading_blanks_replaced_none.
  - rewrite (trimTrailingZeros_replaced s), trimTrailingZeros_replaced.
    apply trailing_blanks_replaced_id, trailing_blanks_replaced_none.
Qed.

End Trim.

(** * The entity sectioner *)

Section EntitySections.

Lemma entitySections_step_eq (sections : list EntitySection) (lastOffset : Z)
    (r : EntityRange) :
  entitySections_step (sections, lastOffset) r
  = (sections ++ gap_section lastOffset r ++ [entity_section r],
     er_offset r + er_length r).
Proof.
  unfold entitySections_step, gap_section, entity_section.
  destruct (lastOffset <? er_offset r); simpl; rewrite <- ?List.app_assoc; reflexivity.
Qed.

Lemma entitySections_lastOffset (rs : list EntityRange) :
  snd (fold_left entitySections_step rs ([], 0)) = coverage_end rs.
Proof.
  induction rs as [|r rs _] using rev_ind; [reflexivity|].
  rewrite fold_left_app. simpl.
  destruct (fold_left entitySections_step rs ([], 0)) as [sections lastOffset].
  rewrite entitySections_step_eq. unfold coverage_end. rewrite last_snoc. reflexivity.
Qed.

Lemma entitySections_extend (rs : list EntityRange) (sections : list EntitySection)
    (lastOffset : Z) :
  exists more, fst (fold_left entitySections_step rs (sections, lastOffset))
               = sections ++ more.
Proof.
  revert sections lastOffset. induction rs as [|r rs IH]; intros sections lastOffset.
  - exists []. simpl. rewrite app_nil_r. reflexivity.
  - cbn [fold_left]. rewrite entitySections_step_eq.
    destruct (IH (sections ++ gap_section lastOffset r ++ [entity_section r])
                 (er_offset r + er_length r)) as [more Hmore].
    exists ((gap_section lastOffset r ++ [entity_section r]) ++ more).
    rewrite Hmore, <- !app_assoc. reflexivity.
Qed.

Lemma getEntitySections_final (rs : list EntityRange) (blockLength : Z) :
  getEntitySections rs blockLength
  = emitted rs ++ final_section (coverage_end rs) blockLength.
Proof.
  unfold getEntitySections, emitted, final_section.
  rewrite <- entitySections_lastOffset.
  destruct (fold_left entitySections_step rs ([], 0)) as [sections lastOffset]. simpl.
  destruct (lastOffset <? blockLength); [reflexivity|].
  rewrite app_nil_r. reflexivity.
Qed.

(** C1: for every entity range [r], met after the ranges [pre], the sectioner
    pushes first, exactly when [r]'s offset is greater than the end of the
    coverage so far (the end of the previous range, or 0), a plain section
    from that end to [offset - 1], and then the entity section
    [[offset, offset + length)] with [r]'s key; after the last range a plain
    section is pushed exactly when the coverage ends before the text length,
    and it ends at the text length. *)
Theorem getEntitySections_sections :
  (forall (pre post : list EntityRange) (r : EntityRange) (blockLength : Z),
      exists after,
        getEntitySections (pre ++ r :: post) blockLength
        = emitted pre
            ++ (if coverage_end pre <? er_offset r
                then [mkEntitySection (coverage_end pre) (er_offset r - 1) None]
                else [])
            ++ mkEntitySection (er_offset r) (er_offset r + er_length r) (Some (er_key r))
            :: after)
  /\ (forall (rs : list EntityRange) (blockLength : Z),
         getEntitySections rs blockLength
         = emitted rs
             ++ (if coverage_end rs <? blockLength
                 then [mkEntitySection (coverage_end rs) blockLength None]
                 else [])).
Proof.
  split.
  - intros pre post r blockLength.
    rewrite getEntitySections_final. unfold emitted at 1.
    rewrite fold_left_app. cbn [fold_left].
    pose proof (entitySections_lastOffset pre) as Hlast.
    unfold emitted.
    destruct (fold_left entitySections_step pre ([], 0)) as [sections lastOffset].
    simpl in Hlast. subst lastOffset. rewrite entitySections_step_eq.
    destruct (entitySections_extend post
                (sections ++ gap_section (coverage_end pre) r ++ [entity_section r])
                (er_offset r + er_length r)) as [more Hmore].
    rewrite Hmore.
    exists (more ++ final_section (coverage_end (pre ++ r :: post)) blockLength).
    simpl fst. unfold gap_section, entity_section.
    rewrite <- !app_assoc. reflexivity.
  - apply getEntitySections_final.
Qed.

End EntitySections.

(** * Names inherited from Object.prototype *)

Section Prototype.

Lemma pretty_N_char_head (d : N) : numeral_head (pretty_N_char d).
Proof.
  unfold pretty_N_char, numeral_head.
  repeat (match goal with |- context [match ?x with _ => _ end] => destruct x end);
    simpl; tauto.
Qed.

Lemma pretty_N_go_head (x : N) :
  forall s, (0 < x)%N ->
            exists c rest, pretty_N_go x s = String c rest /\ numeral_head c.
Proof.
  induction (N.lt_wf_0 x) as [x _ IH]. intros s Hx.
  rewrite pretty_N_go_step by exact Hx.
  destruct (decide (0 < x `div` 10)%N) as [Hdiv|Hdiv].
  - apply IH; [|exact Hdiv]. apply N.div_lt; lia.
  - assert (Hzero : (x `div` 10)%N = 0%N)
      by (destruct (x `div` 10)%N; [reflexivity|exfalso; apply Hdiv; reflexivity]).
    rewrite Hzero, pretty_N_go_0.
    eexists _, _. split; [reflexivity|apply pretty_N_char_head].
Qed.

Lemma index_name_head (i : Z) :
  exists c rest, index_name i = String c rest /\ numeral_head c.
Proof.
  unfold index_name, pretty, pretty_Z. destruct i as [|p|p].
  - exists "0"%char, "". split; [reflexivity|]. unfold numeral_head. simpl. tauto.
  - unfold pretty, pretty_N. destruct (decide (N.pos p = 0%N)) as [H|_]; [discriminate|].
    apply pretty_N_go_head. lia.
  - exists "-"%char, (pretty (N.pos p)). split; [reflexivity|].
    unfold numeral_head. simpl. tauto.
Qed.

(** A numeral is no tag with a prefix, no own property of [inlineStyles] and
    no name of a fresh [Object.prototype]. *)
Lemma index_name_plain (i : Z) :
  prefixed (index_name i) = false
  /\ own_property (index_name i) = PUndefined
  /\ style_kind (index_name i) = None
  /\ String.eqb (index_name i) "__proto__" = false
  /\ assoc (index_name i) prototype_functions = None.
Proof.
  destruct (index_name_head i) as (c & rest & -> & Hc).
  unfold numeral_head in Hc. simpl in Hc.
  repeat (destruct Hc as [<-|Hc]; [repeat split; reflexivity|]). contradiction.
Qed.

Lemma names_index_exists (proto : ObjectPrototype) (name : string) :
  existsb (fun i => String.eqb name (index_name i)) (elements proto) = true
  <-> names_index proto name.
Proof.
  rewrite existsb_exists. unfold names_index. split.
  - intros (i & Hi & Heq). exists i. split.
    + apply elem_of_elements, list_elem_of_In. exact Hi.
    + apply String.eqb_eq. exact Heq.
  - intros (i & Hi & ->). exists i. split.
    + apply list_elem_of_In, elem_of_elements. exact Hi.
    + apply String.eqb_refl.
Qed.

(** The three things a name can inherit. *)
Lemma inherited_property_true (proto : ObjectPrototype) (name : string) :
  inherited_property proto name = Some ITrue <-> names_index proto name.
Proof.
  unfold inherited_property. split.
  - destruct (String.eqb name "__proto__"); [discriminate|].
    destruct (assoc name prototype_functions); [discriminate|].
    destruct (existsb _ _) eqn:Hex; [|discriminate].
    intros _. apply names_index_exists. exact Hex.
  - intros Hname. pose proof Hname as (i & _ & ->).
    destruct (index_name_plain i) as (_ & _ & _ & -> & ->).
    apply names_index_exists in Hname. rewrite Hname. reflexivity.
Qed.

Lemma inherited_property_prototype (proto : ObjectPrototype) (name : string) :
  inherited_property proto name = Some IPrototype <-> name = "__proto__".
Proof.
  unfold inherited_property. split.
  - destruct (String.eqb_spec name "__proto__"); [intros _; assumption|].
    destruct (assoc name prototype_functions); [discriminate|].
    destruct (existsb _ _); discriminate.
  - intros ->. reflexivity.
Qed.

Lemma prototype_names_spec (name : string) :
  name ∈ prototype_names
  <-> String.eqb name "__proto__" = true \/ is_Some (assoc name prototype_functions).
Proof.
  unfold prototype_names. rewrite list_elem_of_In. split.
  - simpl. intros Hin.
    repeat (destruct Hin as [<-|Hin];
            [first [left; reflexivity | right; eexists; reflexivity]|]).
    contradiction.
  - intros [Hproto|[f Hassoc]].
    + apply String.eqb_eq in Hproto as ->. simpl. tauto.
    + revert Hassoc. simpl.
      repeat match goal with
             | |- context [String.eqb name ?x] =>
                 destruct (String.eqb_spec name x) as [->|_];
                 [intros _; repeat (first [left; reflexivity | right])|]
             end.
      intros [=].
Qed.

Lemma inherited_property_none (proto : ObjectPrototype) (name : string) :
  inherited_property proto name = None
  <-> (name ∉ prototype_names) /\ ~ names_index proto name.
Proof.
  rewrite prototype_names_spec, <- names_index_exists. unfold inherited_property.
  destruct (String.eqb name "__proto__").
  { split; [discriminate|]. intros [H _]. exfalso. apply H. left. reflexivity. }
  destruct (assoc name prototype_functions) as [f|].
  { split; [discriminate|]. intros [H _]. exfalso. apply H. right. eexists. reflexivity. }
  destruct (existsb _ _).
  - split; [discriminate|]. intros [_ H]. exfalso. apply H. reflexivity.
  - split; [|reflexivity]. intros _. split; [|discriminate].
    intros [H|[f H]]; discriminate.
Qed.

(** On a fresh [Object.prototype] no numeral names anything. *)
Lemma names_index_empty (name : string) : ~ names_index ∅ name.
Proof. intros (i & Hi & _). apply not_elem_of_empty in Hi. exact Hi. Qed.

Lemma names_index_mono (proto proto' : ObjectPrototype) (name : string) :
  proto ⊆ proto' -> names_index proto name -> names_index proto' name.
Proof. intros Hsub (i & Hi & Hname). exists i. split; [apply Hsub|]; assumption. Qed.

End Prototype.

(** * The style vector builder *)

Section StyleVector.

(** ** Loops in the monad *)

Lemma bind_Ok {A B : Type} (m : M A) (k : A -> M B) (proto proto' : ObjectPrototype)
    (a : A) :
  m proto = Ok (a, proto') -> (x <- m;; k x) proto = k a proto'.
Proof. intros H. unfold bind. rewrite H. reflexivity. Qed.

Lemma bind_Err {A B : Type} (m : M A) (k : A -> M B) (proto : ObjectPrototype)
    (e : error) :
  m proto = Err e -> (x <- m;; k x) proto = Err e.
Proof. intros H. unfold bind. rewrite H. reflexivity. Qed.

Lemma foldM_cons {A S : Type} (body : S -> A -> M S) (x : A) (l : list A) (s : S)
    (proto : ObjectPrototype) :
  foldM body (x :: l) s proto
  = match body s x proto with
    | Ok (s', proto') => foldM body l s' proto'
    | Err e => Err e
    end.
Proof. reflexivity. Qed.

Lemma foldM_app {A S : Type} (body : S -> A -> M S) (l1 l2 : list A) (s : S)
    (proto : ObjectPrototype) :
  foldM body (l1 ++ l2) s proto
  = match foldM body l1 s proto with
    | Ok (s', proto') => foldM body l2 s' proto'
    | Err e => Err e
    end.
Proof.
  revert s proto. induction l1 as [|x l1 IH]; intros s proto; [reflexivity|].
  rewrite <- List.app_comm_cons, !foldM_cons.
  destruct (body s x proto) as [[s' proto']|e]; [apply IH|reflexivity].
Qed.

(** ** Tags *)

Lemma own_property_length (style : string) :
  own_property style = PLength -> style = "length".
Proof.
  unfold own_property. destruct (String.eqb_spec style "length"); [trivial|].
  destruct (List.find _ all_keys); discriminate.
Qed.

Lemma style_kind_prefixed (style : string) :
  style_kind style = None -> prefixed style = false.
Proof.
  unfold style_kind, prefixed.
  destruct (Js.startsWith "color-" style); [discriminate|].
  destruct (Js.startsWith "bgcolor-" style); [discriminate|].
  destruct (Js.startsWith "fontsize-" style); [discriminate|].
  destruct (Js.startsWith "fontfamily-" style); [discriminate|]. reflexivity.
Qed.

Lemma style_kind_names (style : string) (k : StyleKey) (v : slot) :
  style_kind style = Some (k, v) ->
  style <> "length" /\ style <> "__proto__" /\ forall i, style <> index_name i.
Proof.
  intros Hkind. repeat split.
  - intros ->. discriminate.
  - intros ->. discriminate.
  - intros i ->. destruct (index_name_plain i) as (_ & _ & Hnone & _). congruence.
Qed.

(** One write, in full: the tag throws, or the arrays and [Object.prototype]
    get what the tag stands for. *)
Lemma style_write_eq (range : InlineStyleRange) (s : InlineStyles) (i : Z)
    (proto : ObjectPrototype) :
  style_write range s i proto
  = match tag_error (styles_length s) proto (isr_style range) with
    | Some e => Err e
    | None => Ok (write_pure range s i, proto ∪ tag_writes (isr_style range) [i])
    end.
Proof.
  unfold style_write, write_pure, tag_error, tag_writes, style_kind.
  generalize (isr_style range). intros style.
  assert (Hsame : forall t : InlineStyles, Ok (t, proto) = Ok (t, proto ∪ ∅))
    by (intros t; rewrite union_empty_r_L; reflexivity).
  destruct (Js.startsWith "color-" style) eqn:H1.
  { destruct (String.eqb_spec style "__proto__") as [->|_]; [discriminate|apply Hsame]. }
  destruct (Js.startsWith "bgcolor-" style) eqn:H2.
  { destruct (String.eqb_spec style "__proto__") as [->|_]; [discriminate|apply Hsame]. }
  destruct (Js.startsWith "fontsize-" style) eqn:H3.
  { destruct (String.eqb_spec style "__proto__") as [->|_]; [discriminate|apply Hsame]. }
  destruct (Js.startsWith "fontfamily-" style) eqn:H4.
  { destruct (String.eqb_spec style "__proto__") as [->|_]; [discriminate|apply Hsame]. }
  unfold own_property. cbn [List.find all_keys key_name].
  destruct (String.eqb_spec style "length") as [->|_].
  { cbn. destruct (styles_length s =? 0); [apply Hsame|reflexivity]. }
  repeat match goal with
         | |- context [String.eqb style ?x] =>
             lazymatch x with
             | "__proto__" => fail
             | _ => destruct (String.eqb_spec style x) as [->|_]; [apply Hsame|]
             end
         end.
  unfold bind, get_prototype, inherited_property.
  destruct (String.eqb_spec style "__proto__") as [->|_].
  { cbn. rewrite union_empty_r_L. reflexivity. }
  destruct (assoc style prototype_functions); [apply Hsame|].
  destruct (existsb _ _); [reflexivity|apply Hsame].
Qed.

Lemma write_pure_length (range : InlineStyleRange) (s : InlineStyles) (i : Z) :
  styles_length (write_pure range s i) = styles_length s.
Proof. unfold write_pure. destruct (style_kind _) as [[k v]|]; reflexivity. Qed.

Lemma tag_error_prototype (len : Z) (proto : ObjectPrototype) :
  tag_error len proto "__proto__" = None.
Proof. reflexivity. Qed.

(** When the tag does not throw, no write of the range does, whatever the
    indices. *)
Lemma style_writes_ok (range : InlineStyleRange) (l : list Z) :
  forall (s : InlineStyles) (proto : ObjectPrototype),
    tag_error (styles_length s) proto (isr_style range) = None ->
    foldM (style_write range) l s proto
    = Ok (fold_left (write_pure range) l s, proto ∪ tag_writes (isr_style range) l).
Proof.
  induction l as [|i l IH]; intros s proto Hok.
  - unfold tag_writes. cbn. destruct (String.eqb _ _); rewrite union_empty_r_L; reflexivity.
  - rewrite foldM_cons, style_write_eq, Hok. cbn [fold_left].
    rewrite IH.
    + f_equal. f_equal. unfold tag_writes.
      destruct (String.eqb (isr_style range) "__proto__").
      * rewrite !list_to_set_cons, list_to_set_nil, union_empty_r_L, (assoc_L (∪)).
        reflexivity.
      * rewrite !union_empty_r_L. reflexivity.
    + rewrite write_pure_length. revert Hok. unfold tag_writes.
      destruct (String.eqb_spec (isr_style range) "__proto__") as [->|_].
      * intros _. apply tag_error_prototype.
      * rewrite union_empty_r_L. trivial.
Qed.

Lemma tag_writes_range (range : InlineStyleRange) :
  tag_writes (isr_style range) (seqZ (isr_offset range) (isr_length range))
  = prototype_range range.
Proof. reflexivity. Qed.

(** One range, in full. *)
Lemma style_range_eq (s : InlineStyles) (range : InlineStyleRange)
    (proto : ObjectPrototype) :
  style_range s range proto
  = match range_error (styles_length s) proto range with
    | Some e => Err e
    | None => Ok (range_pure s range, proto ∪ prototype_range range)
    end.
Proof.
  unfold style_range, range_error, range_pure.
  destruct (Z.ltb_spec 0 (isr_length range)) as [Hpos|Hnone].
  - destruct (tag_error (styles_length s) proto (isr_style range)) as [e|] eqn:Herr.
    + rewrite seqZ_cons by exact Hpos. rewrite foldM_cons, style_write_eq, Herr.
      reflexivity.
    + rewrite style_writes_ok by exact Herr. rewrite tag_writes_range. reflexivity.
  - rewrite seqZ_nil by lia. unfold prototype_range.
    rewrite seqZ_nil by lia. cbn.
    destruct (String.eqb _ _); rewrite union_empty_r_L; reflexivity.
Qed.

Lemma fold_write_pure_length (range : InlineStyleRange) (l : list Z) (s : InlineStyles) :
  styles_length (fold_left (write_pure range) l s) = styles_length s.
Proof.
  revert s. induction l as [|i l IH]; intros s; [reflexivity|].
  cbn [fold_left]. rewrite IH. apply write_pure_length.
Qed.

Lemma range_pure_length (s : InlineStyles) (range : InlineStyleRange) :
  styles_length (range_pure s range) = styles_length s.
Proof. apply fold_write_pure_length. Qed.

Lemma fold_range_pure_length (rs : list InlineStyleRange) (s : InlineStyles) :
  styles_length (fold_left range_pure rs s) = styles_length s.
Proof.
  revert s. induction rs as [|r rs IH]; intros s; [reflexivity|].
  cbn [fold_left]. rewrite IH. apply fold_write_pure_length.
Qed.

Lemma prototype_writes_cons (r : InlineStyleRange) (rs : list InlineStyleRange) :
  prototype_writes (r :: rs) = prototype_range r ∪ prototype_writes rs.
Proof. reflexivity. Qed.

Lemma prototype_writes_app (rs1 rs2 : list InlineStyleRange) :
  prototype_writes (rs1 ++ rs2) = prototype_writes rs1 ∪ prototype_writes rs2.
Proof. unfold prototype_writes. rewrite fmap_app. apply union_list_app_L. Qed.

(** All the ranges, in full: the first range that throws ends the loop;
    without one, the arrays hold the writes of the ranges and
    [Object.prototype] the indices of those tagged [__proto__]. *)
Lemma style_ranges_eq (ranges : list InlineStyleRange) :
  forall (s : InlineStyles) (proto : ObjectPrototype),
    foldM style_range ranges s proto
    = match first_error (styles_length s) proto ranges with
      | Some e => Err e
      | None => Ok (fold_left range_pure ranges s, proto ∪ prototype_writes ranges)
      end.
Proof.
  induction ranges as [|r ranges IH]; intros s proto.
  - cbn. rewrite union_empty_r_L. reflexivity.
  - rewrite foldM_cons, style_range_eq. cbn [first_error fold_left].
    destruct (range_error (styles_length s) proto r) as [e|]; [reflexivity|].
    rewrite IH, range_pure_length.
    destruct (first_error _ _ ranges); [reflexivity|].
    rewrite prototype_writes_cons, (assoc_L (∪)). reflexivity.
Qed.

Lemma getStyleArrayForBlock_eq (block : Block) (proto : ObjectPrototype) :
  getStyleArrayForBlock block proto
  = match first_error (text_length block) proto (block_inlineStyleRanges block) with
    | Some e => Err e
    | None =>
        Ok (fold_left range_pure (block_inlineStyleRanges block)
                      (no_styles (text_length block)),
            proto ∪ prototype_writes (block_inlineStyleRanges block))
    end.
Proof. unfold getStyleArrayForBlock. rewrite style_ranges_eq. reflexivity. Qed.

(** ** The slots of the arrays *)

Lemma set_slot_lookup (s : InlineStyles) (k k' : StyleKey) (i j : Z) (v : slot) :
  style_array (set_slot s k i v) k' !! j
  = if bool_decide (k = k') && bool_decide (i = j) then Some v
    else style_array s k' !! j.
Proof.
  simpl. destruct (decide (k' = k)) as [->|Hk].
  - rewrite bool_decide_eq_true_2 by reflexivity. simpl.
    destruct (decide (i = j)) as [->|Hij].
    + rewrite bool_decide_eq_true_2 by reflexivity. apply lookup_insert_eq.
    + rewrite bool_decide_eq_false_2 by assumption. apply lookup_insert_ne. assumption.
  - rewrite bool_decide_eq_false_2 by congruence. reflexivity.
Qed.

(** The slots after the loop of one range over the indices [l]. *)
Lemma write_pure_fold_lookup (range : InlineStyleRange) (l : list Z) (s : InlineStyles)
    (k : StyleKey) (j : Z) :
  style_array (fold_left (write_pure range) l s) k !! j
  = match style_kind (isr_style range) with
    | Some (k', v) =>
        if bool_decide (k' = k) && bool_decide (j ∈ l) then Some v
        else style_array s k !! j
    | None => style_array s k !! j
    end.
Proof.
  revert s. induction l as [|i l IH]; intros s.
  - simpl. destruct (style_kind _) as [[k' v]|]; [|reflexivity].
    destruct (bool_decide (k' = k)); reflexivity.
  - cbn [fold_left]. rewrite IH. unfold write_pure.
    destruct (style_kind (isr_style range)) as [[k' v]|]; [|reflexivity].
    rewrite set_slot_lookup.
    destruct (decide (k' = k)) as [->|Hk].
    + rewrite !bool_decide_eq_true_2 by reflexivity. simpl.
      destruct (decide (j ∈ l)) as [Hl|Hl].
      * rewrite !bool_decide_eq_true_2; [reflexivity| |assumption].
        apply list_elem_of_further. assumption.
      * rewrite (bool_decide_eq_false_2 (j ∈ l)) by assumption.
        destruct (decide (i = j)) as [->|Hij].
        -- rewrite !bool_decide_eq_true_2; [reflexivity|apply list_elem_of_here|reflexivity].
        -- rewrite !bool_decide_eq_false_2; [reflexivity| |assumption].
           intros Hin. apply elem_of_cons in Hin as [Hin|Hin]; [congruence|contradiction].
    + rewrite !bool_decide_eq_false_2 by assumption. reflexivity.
Qed.

Lemma range_pure_lookup (s : InlineStyles) (range : InlineStyleRange) (k : StyleKey)
    (j : Z) :
  style_array (range_pure s range) k !! j
  = match writes_to k j range with
    | Some v => Some v
    | None => style_array s k !! j
    end.
Proof.
  unfold range_pure, writes_to. rewrite write_pure_fold_lookup.
  destruct (style_kind (isr_style range)) as [[k' v]|]; [|reflexivity].
  destruct (bool_decide (k' = k)); simpl; [|reflexivity].
  destruct (decide (j ∈ seqZ (isr_offset range) (isr_length range))) as [Hin|Hin].
  - rewrite bool_decide_eq_true_2 by assumption.
    apply elem_of_seqZ in Hin.
    replace (isr_offset range <=? j) with true by (symmetry; apply Z.leb_le; lia).
    ltb_true j (isr_offset range + isr_length range).
    reflexivity.
  - rewrite bool_decide_eq_false_2 by assumption.
    rewrite elem_of_seqZ in Hin.
    destruct (Z.leb_spec (isr_offset range) j); simpl; [|reflexivity].
    destruct (Z.ltb_spec j (isr_offset range + isr_length range)); [lia|reflexivity].
Qed.

Lemma fold_range_pure_lookup (rs : list InlineStyleRange) (s : InlineStyles)
    (k : StyleKey) (j : Z) :
  style_array (fold_left range_pure rs s) k !! j
  = match last_write k j rs with
    | Some v => Some v
    | None => style_array s k !! j
    end.
Proof.
  revert s. induction rs as [|r rs IH]; intros s; [reflexivity|].
  cbn [fold_left]. rewrite IH, range_pure_lookup.
  unfold last_write. cbn [omap list_omap].
  destruct (writes_to k j r) as [v|]; [|reflexivity].
  rewrite last_cons. destruct (last (omap (writes_to k j) rs)); reflexivity.
Qed.

(** The own elements of the arrays that the builder returns, and the state
    in which it leaves [Object.prototype]. *)
Lemma getStyleArrayForBlock_slots (block : Block) (proto proto' : ObjectPrototype)
    (inlineStyles : InlineStyles) :
  getStyleArrayForBlock block proto = Ok (inlineStyles, proto') ->
  styles_length inlineStyles = text_length block
  /\ proto' = proto ∪ prototype_writes (block_inlineStyleRanges block)
  /\ forall k i, style_array inlineStyles k !! i
                 = last_write k i (block_inlineStyleRanges block).
Proof.
  rewrite getStyleArrayForBlock_eq.
  destruct (first_error _ _ _); [discriminate|]. intros [= <- <-].
  split; [apply fold_range_pure_length|]. split; [reflexivity|].
  intros k i. rewrite fold_range_pure_lookup. simpl. rewrite lookup_empty.
  destruct (last_write k i _); reflexivity.
Qed.


(** ** When a range throws *)

Lemma tag_error_spec (len : Z) (proto : ObjectPrototype) (style : string) (e : error) :
  tag_error len proto style = Some e
  <-> prefixed style = false
      /\ ((style = "length" /\ len <> 0 /\ e = TypeError_number_property)
          \/ (names_index proto style /\ e = TypeError_boolean_property)).
Proof.
  unfold tag_error. split.
  - destruct (style_kind style) as [[k v]|] eqn:Hkind; [discriminate|].
    intros H. split; [apply style_kind_prefixed; exact Hkind|]. revert H.
    destruct (String.eqb_spec style "length") as [->|_].
    + destruct (Z.eqb_spec len 0); [discriminate|]. intros [= <-]. left. auto.
    + destruct (inherited_property proto style) as [[| |]|] eqn:Hin; try discriminate.
      intros [= <-]. right. split; [|reflexivity].
      apply inherited_property_true. exact Hin.
  - intros [_ [(-> & Hlen & ->)|(Hname & ->)]].
    + cbn. destruct (Z.eqb_spec len 0); [contradiction|reflexivity].
    + pose proof Hname as (i & _ & Hi).
      destruct (index_name_plain i) as (_ & Hown & Hkind & _).
      rewrite <- Hi in Hown, Hkind. rewrite Hkind.
      destruct (String.eqb_spec style "length") as [->|_]; [discriminate|].
      apply inherited_property_true in Hname. rewrite Hname. reflexivity.
Qed.

Lemma range_error_spec (len : Z) (proto : ObjectPrototype) (r : InlineStyleRange)
    (e : error) :
  range_error len proto r = Some e <-> range_throws len proto r e.
Proof.
  unfold range_error, range_throws.
  destruct (Z.ltb_spec 0 (isr_length r)) as [Hpos|Hnone].
  - rewrite tag_error_spec. tauto.
  - split; [discriminate|]. intros [Hpos _]. lia.
Qed.

(** The first error is the error of some range, in the state that the ranges
    before it have made. *)
Lemma first_error_some (len : Z) (ranges : list InlineStyleRange) :
  forall (proto : ObjectPrototype) (e : error),
    first_error len proto ranges = Some e ->
    exists pre r post,
      ranges = pre ++ r :: post
      /\ range_throws len (proto ∪ prototype_writes pre) r e.
Proof.
  induction ranges as [|r ranges IH]; intros proto e; [discriminate|].
  cbn [first_error]. destruct (range_error len proto r) as [e'|] eqn:Hr.
  - intros [= ->]. exists [], r, ranges. split; [reflexivity|].
    unfold prototype_writes. cbn. rewrite union_empty_r_L.
    apply range_error_spec. exact Hr.
  - intros H. apply IH in H as (pre & r' & post & -> & Hthrows).
    exists (r :: pre), r', post. split; [reflexivity|].
    rewrite prototype_writes_cons, (assoc_L (∪)). exact Hthrows.
Qed.

Lemma first_error_throws (len : Z) (pre : list InlineStyleRange) :
  forall (proto : ObjectPrototype) (r : InlineStyleRange) (post : list InlineStyleRange)
         (e : error),
    range_throws len (proto ∪ prototype_writes pre) r e ->
    exists e', first_error len proto (pre ++ r :: post) = Some e'.
Proof.
  induction pre as [|r0 pre IH]; intros proto r post e Hthrows.
  - revert Hthrows. unfold prototype_writes. cbn [fmap list_fmap union_list foldr].
    rewrite union_empty_r_L. intros Hthrows. apply range_error_spec in Hthrows.
    exists e. cbn [app first_error]. rewrite Hthrows. reflexivity.
  - rewrite <- List.app_comm_cons. cbn [first_error].
    destruct (range_error len proto r0) as [e0|]; [exists e0; reflexivity|].
    apply (IH _ r post e).
    rewrite prototype_writes_cons, (assoc_L (∪)) in Hthrows. exact Hthrows.
Qed.

Lemma first_error_none (len : Z) (proto : ObjectPrototype)
    (ranges : list InlineStyleRange) :
  first_error len proto ranges = None <-> ~ some_range_throws len proto ranges.
Proof.
  split.
  - intros Hnone (pre & r & post & e & -> & Hthrows).
    destruct (first_error_throws len pre proto r post e Hthrows) as [e' He'].
    congruence.
  - intros Hno. destruct (first_error len proto ranges) as [e|] eqn:H; [|reflexivity].
    exfalso. apply Hno. apply first_error_some in H as (pre & r & post & -> & Hthrows).
    exists pre, r, post, e. split; [reflexivity|exact Hthrows].
Qed.

(** Ranges whose tags are all style kinds never throw and leave
    [Object.prototype] as it is. *)
Lemma first_error_kinds (len : Z) (ranges : list InlineStyleRange) :
  Forall (fun r => style_kind (isr_style r) <> None) ranges ->
  prototype_writes ranges = ∅
  /\ forall proto, first_error len proto ranges = None.
Proof.
  induction 1 as [|r ranges Hr _ [IHw IHe]]; [split; reflexivity|].
  assert (Hnone : prototype_range r = ∅).
  { unfold prototype_range.
    destruct (String.eqb_spec (isr_style r) "__proto__") as [Heq|_]; [|reflexivity].
    rewrite Heq in Hr. exfalso. apply Hr. reflexivity. }
  split.
  - rewrite prototype_writes_cons, Hnone, IHw, union_empty_r_L. reflexivity.
  - intros proto. cbn [first_error]. unfold range_error, tag_error.
    destruct (style_kind (isr_style r)); [|contradiction].
    rewrite Hnone, union_empty_r_L.
    destruct (0 <? isr_length r); apply IHe.
Qed.


End StyleVector.
(** * The run splitter *)

Section RunSplitter.

Lemma fold_same_slots (f : StyleKey -> bool) (styles : list StyleKey) (b : bool) :
  fold_left (fun sameStyled style => sameStyled && f style) styles b
  = b && forallb f styles.
Proof.
  revert b. induction styles as [|k styles IH]; intros b; simpl.
  - rewrite andb_true_r. reflexivity.
  - rewrite IH, andb_assoc. reflexivity.
Qed.

Lemma fold_left_ext_in {A B : Type} (f g : A -> B -> A) (l : list B) (a : A) :
  (forall a' x, x ∈ l -> f a' x = g a' x) ->
  fold_left f l a = fold_left g l a.
Proof.
  revert a. induction l as [|x l IH]; intros a Hfg; [reflexivity|].
  cbn [fold_left]. rewrite Hfg by apply list_elem_of_here.
  apply IH. intros a' y Hy. apply Hfg, list_elem_of_further, Hy.
Qed.

Lemma alter_last_snoc {A : Type} (f : A -> A) (l : list A) (x : A) :
  alter_last f (l ++ [x]) = l ++ [f x].
Proof.
  induction l as [|y l IH]; [reflexivity|].
  simpl. rewrite IH. destruct (l ++ [x]) eqn:Hl; [|reflexivity].
  destruct l; discriminate.
Qed.

Lemma alter_last_starts (f : StyleSection -> StyleSection) (l : list StyleSection) :
  (forall s, ss_start (f s) = ss_start s) ->
  map ss_start (alter_last f l) = map ss_start l.
Proof.
  intros Hf. induction l as [|x l IH]; [reflexivity|].
  destruct l as [|y l]; simpl; [rewrite Hf; reflexivity|].
  simpl in IH. rewrite IH. reflexivity.
Qed.

Lemma tiles_snoc (a b : Z) (l : list StyleSection) (s : StyleSection) :
  tiles a b (l ++ [s]) <-> tiles a (ss_start s) l /\ ss_start s < ss_end s /\ ss_end s = b.
Proof.
  revert a. induction l as [|x l IH]; intros a; simpl.
  - split.
    + intros (Hs & Hlt & He). repeat split; congruence.
    + intros (Hs & Hlt & He). repeat split; congruence.
  - rewrite IH. tauto.
Qed.

(** ** One call of the loop of [getStyleSections] *)

Section Loop.

Context (proto : ObjectPrototype) (text : string) (inlineStyles : InlineStyles)
        (styles : list StyleKey) (start : Z).

Lemma sameStyleAsPrevious_inside (index : Z) :
  0 < index < styles_length inlineStyles ->
  sameStyleAsPrevious proto inlineStyles styles index
  = same_slots proto inlineStyles styles index.
Proof.
  intros [Hlo Hhi]. unfold sameStyleAsPrevious, same_slots.
  ltb_true 0 index. ltb_true index (styles_length inlineStyles).
  simpl. apply fold_same_slots.
Qed.

Lemma styleSections_step_inside (styleSections : list StyleSection) (i : Z) :
  0 <= start <= i -> i < styles_length inlineStyles ->
  styleSections_step proto text inlineStyles styles start styleSections i
  = run_step proto text inlineStyles styles start styleSections i.
Proof.
  intros Hstart Hi. unfold styleSections_step, run_step.
  destruct (Z.eqb_spec i start) as [->|Hne]; [reflexivity|].
  rewrite sameStyleAsPrevious_inside by lia. reflexivity.
Qed.

(** Inside the text the loop of [getStyleSections] is the loop of
    [run_step]. *)
Lemma styleSections_fold_inside (end_ : Z) (acc : list StyleSection) :
  0 <= start -> end_ <= styles_length inlineStyles ->
  fold_left (styleSections_step proto text inlineStyles styles start)
            (seqZ start (end_ - start)) acc
  = fold_left (run_step proto text inlineStyles styles start) (seqZ start (end_ - start)) acc.
Proof.
  intros Hstart Hend. apply fold_left_ext_in.
  intros a i Hi. apply elem_of_seqZ in Hi.
  apply styleSections_step_inside; lia.
Qed.

Lemma run_step_starts (l : list Z) (acc : list StyleSection) :
  map ss_start (fold_left (run_step proto text inlineStyles styles start) l acc)
  = map ss_start acc ++ List.filter (opens_run proto inlineStyles styles start) l.
Proof.
  revert acc. induction l as [|i l IH]; intros acc.
  - simpl. rewrite List.app_nil_r. reflexivity.
  - cbn [fold_left List.filter]. rewrite IH. unfold run_step, opens_run.
    destruct (negb (i =? start) && same_slots proto inlineStyles styles i); simpl.
    + rewrite alter_last_starts by reflexivity. reflexivity.
    + rewrite map_app, <- List.app_assoc. reflexivity.
Qed.

Lemma same_slots_false (i : Z) :
  same_slots proto inlineStyles styles i = false <->
  exists k, k ∈ styles
            /\ array_get proto (style_array inlineStyles k) i
               <> array_get proto (style_array inlineStyles k) (i - 1).
Proof.
  unfold same_slots. clear text start. induction styles as [|k styles' IH]; simpl.
  - split; [discriminate|]. intros (k & Hk & _). apply elem_of_nil in Hk. contradiction.
  - rewrite andb_false_iff, IH. split.
    + intros [Hk|(k' & Hk' & Hne)].
      * exists k. split; [apply list_elem_of_here|].
        apply bool_decide_eq_false in Hk. exact Hk.
      * exists k'. split; [apply list_elem_of_further|]; assumption.
    + intros (k' & Hk' & Hne). apply elem_of_cons in Hk' as [->|Hk'].
      * left. apply bool_decide_eq_false. exact Hne.
      * right. exists k'. split; assumption.
Qed.

(** Where runs begin, for a range inside the text. *)
Lemma run_starts (end_ i : Z) :
  0 <= start -> end_ <= styles_length inlineStyles ->
  i ∈ map ss_start
        (fold_left (styleSections_step proto text inlineStyles styles start)
                   (seqZ start (end_ - start)) [])
  <-> start <= i < end_
      /\ (i = start
          \/ exists k, k ∈ styles
                       /\ array_get proto (style_array inlineStyles k) i
                          <> array_get proto (style_array inlineStyles k) (i - 1)).
Proof.
  intros Hstart Hend.
  rewrite styleSections_fold_inside, run_step_starts by assumption.
  simpl. rewrite list_elem_of_In, filter_In, <- list_elem_of_In, elem_of_seqZ.
  unfold opens_run. rewrite negb_true_iff, andb_false_iff, negb_false_iff.
  rewrite Z.eqb_eq, same_slots_false. split; intros [Hi Hrun]; (split; [lia|exact Hrun]).
Qed.

(** A range over which the loop never opens a second run is one run. *)
Lemma run_step_extend (n : nat) :
  forall (a : Z) (section : StyleSection) (acc : list StyleSection),
    ss_end section = a ->
    (forall i, a <= i < a + Z.of_nat n ->
               i <> start /\ same_slots proto inlineStyles styles i = true) ->
    fold_left (run_step proto text inlineStyles styles start) (seqZ a (Z.of_nat n))
              (acc ++ [section])
    = acc ++ [mkStyleSection (ss_styles section)
                (ss_text section ++ map (text_get proto text) (seqZ a (Z.of_nat n)))
                (ss_start section) (a + Z.of_nat n)].
Proof.
  induction n as [|n IH]; intros a section acc Hend Hsame.
  - simpl. rewrite List.app_nil_r, Z.add_0_r, <- Hend. destruct section; reflexivity.
  - rewrite seqZ_cons by lia. cbn [fold_left map]. unfold run_step at 2.
    destruct (Hsame a) as [Hne Hs]; [lia|]. rewrite Hs.
    replace (a =? start) with false by (symmetry; apply Z.eqb_neq; exact Hne).
    cbn [negb andb]. rewrite alter_last_snoc.
    replace (Z.pred (Z.of_nat (S n))) with (Z.of_nat n) by lia.
    rewrite IH; [|simpl; lia|intros i Hi; apply Hsame; lia].
    cbn [ss_styles ss_text ss_start]. rewrite <- List.app_assoc.
    do 3 f_equal. lia.
Qed.

Lemma run_single (n : nat) :
  (forall i, start < i < start + Z.of_nat (S n) ->
             same_slots proto inlineStyles styles i = true) ->
  fold_left (run_step proto text inlineStyles styles start) (seqZ start (Z.of_nat (S n))) []
  = [mkStyleSection (getStylesAtOffset proto inlineStyles start)
       (map (text_get proto text) (seqZ start (Z.of_nat (S n))))
       start (start + Z.of_nat (S n))].
Proof.
  intros Hsame. rewrite seqZ_cons by lia. cbn [fold_left map]. unfold run_step at 2.
  rewrite Z.eqb_refl. cbn [negb andb].
  replace (Z.pred (Z.of_nat (S n))) with (Z.of_nat n) by lia.
  rewrite (run_step_extend n (Z.succ start) _ []);
    [|simpl; lia|intros i Hi; split; [lia|apply Hsame; lia]].
  simpl. do 2 f_equal. lia.
Qed.

(** Each turn of the loop moves the end of the tiling by one: it lengthens
    the last run or adds a run of one character. *)
Lemma styleSections_step_tiles (acc : list StyleSection) (i : Z) :
  tiles start i acc ->
  tiles start (i + 1) (styleSections_step proto text inlineStyles styles start acc i).
Proof.
  intros Hacc. unfold styleSections_step.
  destruct (Z.eqb_spec i start) as [Heq|Hne]; cbn [negb andb].
  - apply tiles_snoc. cbn [ss_start ss_end]. repeat split; [assumption|lia].
  - destruct (sameStyleAsPrevious proto inlineStyles styles i).
    + destruct acc as [|x acc] using rev_ind; [simpl in Hacc; congruence|].
      rewrite alter_last_snoc. apply tiles_snoc in Hacc as (Hl & Hlt & He).
      apply tiles_snoc. cbn [ss_start ss_end]. repeat split; [assumption|lia].
    + apply tiles_snoc. cbn [ss_start ss_end]. repeat split; [assumption|lia].
Qed.

Lemma styleSections_fold_tiles (n : nat) :
  forall (a : Z) (acc : list StyleSection),
    tiles start a acc ->
    tiles start (a + Z.of_nat n)
          (fold_left (styleSections_step proto text inlineStyles styles start)
                     (seqZ a (Z.of_nat n)) acc).
Proof.
  induction n as [|n IH]; intros a acc Hacc.
  - simpl. rewrite Z.add_0_r. exact Hacc.
  - rewrite seqZ_cons by lia. cbn [fold_left].
    replace (Z.pred (Z.of_nat (S n))) with (Z.of_nat n) by lia.
    replace (a + Z.of_nat (S n)) with (Z.succ a + Z.of_nat n) by lia.
    apply IH. apply styleSections_step_tiles. exact Hacc.
Qed.

End Loop.

(** ** Reading where Object.prototype holds nothing *)

Lemma array_get_clean (proto : ObjectPrototype) (array : gmap Z slot) (i : Z) :
  i ∉ proto -> array_get proto array i = array !! i.
Proof.
  intros Hi. unfold array_get. destruct (array !! i); [reflexivity|].
  rewrite bool_decide_eq_false_2 by exact Hi. reflexivity.
Qed.

Lemma array_get_fresh (array : gmap Z slot) (i : Z) : array_get ∅ array i = array !! i.
Proof. apply array_get_clean, not_elem_of_empty. Qed.

Lemma text_get_clean (proto : ObjectPrototype) (text : string) (i : Z) :
  i ∉ proto -> text_get proto text i = EChar <$> Js.charAtZ text i.
Proof.
  intros Hi. unfold text_get. destruct (Js.charAtZ text i); [reflexivity|].
  rewrite bool_decide_eq_false_2 by exact Hi. reflexivity.
Qed.

Lemma getStylesAtOffset_clean (proto : ObjectPrototype) (inlineStyles : InlineStyles)
    (i : Z) :
  i ∉ proto -> getStylesAtOffset proto inlineStyles i = getStylesAtOffset ∅ inlineStyles i.
Proof.
  intros Hi. unfold getStylesAtOffset, copy_slot, flag_slot.
  rewrite !(array_get_clean proto) by exact Hi. rewrite !array_get_fresh. reflexivity.
Qed.

Lemma same_slots_clean (proto : ObjectPrototype) (inlineStyles : InlineStyles)
    (styles : list StyleKey) (i : Z) :
  i ∉ proto -> i - 1 ∉ proto ->
  same_slots proto inlineStyles styles i = same_slots ∅ inlineStyles styles i.
Proof.
  intros Hi Hprev. unfold same_slots.
  induction styles as [|k styles IH]; [reflexivity|]. cbn [forallb]. rewrite IH.
  rewrite !(array_get_clean proto) by assumption. rewrite !array_get_fresh. reflexivity.
Qed.

(** Over offsets that [Object.prototype] does not hold, the loop reads what
    it reads in a fresh realm. *)
Lemma run_step_clean (proto : ObjectPrototype) (text : string)
    (inlineStyles : InlineStyles) (styles : list StyleKey) (start end_ : Z)
    (acc : list StyleSection) :
  clean_on proto start end_ ->
  fold_left (run_step proto text inlineStyles styles start) (seqZ start (end_ - start)) acc
  = fold_left (run_step ∅ text inlineStyles styles start) (seqZ start (end_ - start)) acc.
Proof.
  intros Hclean. apply fold_left_ext_in. intros a i Hi. apply elem_of_seqZ in Hi.
  unfold run_step.
  rewrite (getStylesAtOffset_clean proto), (text_get_clean proto), (text_get_clean ∅)
    by (first [apply Hclean; lia | apply not_elem_of_empty]).
  destruct (Z.eqb_spec i start) as [->|Hne]; [reflexivity|].
  rewrite (same_slots_clean proto) by (apply Hclean; lia). reflexivity.
Qed.

(** The runs of a range tile it: whatever the inline style ranges, every
    offset of [[start, end)] is in one run and in one only. *)
Lemma getStyleSections_tiles (block : Block) (styles : list StyleKey) (start end_ : Z)
    (proto proto' : ObjectPrototype) (sections : list StyleSection) :
  0 < text_length block -> start <= end_ ->
  getStyleSections block styles start end_ proto = Ok (sections, proto') ->
  tiles start end_ sections.
Proof.
  intros Htext Hrange. unfold getStyleSections.
  ltb_true 0 (text_length block). unfold bind.
  destruct (getStyleArrayForBlock block proto) as [[inlineStyles proto1]|]; [|discriminate].
  cbn. intros [= <- <-].
  replace end_ with (start + Z.of_nat (Z.to_nat (end_ - start))) at 1 by lia.
  replace (end_ - start) with (Z.of_nat (Z.to_nat (end_ - start))) at 2 by lia.
  apply styleSections_fold_tiles. reflexivity.
Qed.

(** The loop of [getStyleSections], once the arrays are built. *)
Lemma getStyleSections_fold (block : Block) (styles : list StyleKey) (start end_ : Z)
    (proto proto' : ObjectPrototype) (inlineStyles : InlineStyles) :
  getStyleArrayForBlock block proto = Ok (inlineStyles, proto') ->
  0 < text_length block ->
  getStyleSections block styles start end_ proto
  = Ok (fold_left (styleSections_step proto' (block_text block) inlineStyles styles start)
                  (seqZ start (end_ - start)) [],
        proto').
Proof.
  intros Harrays Htext. unfold getStyleSections.
  ltb_true 0 (text_length block). unfold bind. rewrite Harrays. reflexivity.
Qed.

(** The three runs of BOLD over [[0,5)] and ITALIC over [[2,7)], computed
    with the comparison alone in a fresh realm. *)
Lemma bold_italic_runs (text : string) (len : Z) (ranges : list InlineStyleRange) :
  ranges ≡ₚ [mkInlineStyleRange "BOLD" 0 5; mkInlineStyleRange "ITALIC" 2 5] ->
  fold_left (run_step ∅ text (fold_left range_pure ranges (no_styles len)) toggle_keys 0)
            (seqZ 0 (7 - 0)) []
  = [ mkStyleSection [(BOLD, VTrue)] [text_get ∅ text 0; text_get ∅ text 1] 0 2;
      mkStyleSection [(ITALIC, VTrue); (BOLD, VTrue)]
                     [text_get ∅ text 2; text_get ∅ text 3; text_get ∅ text 4] 2 5;
      mkStyleSection [(ITALIC, VTrue)] [text_get ∅ text 5; text_get ∅ text 6] 5 7 ].
Proof.
  intros Hperm. symmetry in Hperm.
  apply Permutation_length_2_inv in Hperm as [-> | ->]; vm_compute; reflexivity.
Qed.

Lemma text_get_same (proto : ObjectPrototype) (text : string) (i : Z) :
  i ∉ proto -> text_get ∅ text i = text_get proto text i.
Proof.
  intros Hi. rewrite (text_get_clean proto) by exact Hi.
  apply text_get_clean, not_elem_of_empty.
Qed.

(** C6: in a block whose text has at least 7 characters and whose inline
    style ranges are BOLD over [[0,5)] and ITALIC over [[2,7)], the split of
    [[0,7)] over the toggle keys gives the three runs [[0,2)], [[2,5)],
    [[5,7)] with BOLD, BOLD and ITALIC, and ITALIC ([Object.prototype]
    holding no offset of the range, as in a fresh realm); and in every block
    whose ranges do not make the builder throw, for a range [[start, end)]
    of its text, a run starts at [i] exactly when [i] is in the range and is
    [start] or some selected key has at [i] another value than at
    [i - 1]. *)
Theorem getStyleSections_runs (block : Block) (proto : ObjectPrototype) :
  (7 <= text_length block ->
   block_inlineStyleRanges block
     ≡ₚ [mkInlineStyleRange "BOLD" 0 5; mkInlineStyleRange "ITALIC" 2 5] ->
   clean_on proto 0 7 ->
   getStyleSections block toggle_keys 0 7 proto
   = Ok ([ mkStyleSection [(BOLD, VTrue)]
             [text_get proto (block_text block) 0; text_get proto (block_text block) 1]
             0 2;
           mkStyleSection [(ITALIC, VTrue); (BOLD, VTrue)]
             [text_get proto (block_text block) 2; text_get proto (block_text block) 3;
              text_get proto (block_text block) 4] 2 5;
           mkStyleSection [(ITALIC, VTrue)]
             [text_get proto (block_text block) 5; text_get proto (block_text block) 6]
             5 7 ],
         proto))
  /\ (~ some_range_throws (text_length block) proto (block_inlineStyleRanges block) ->
      forall (styles : list StyleKey) (start end_ : Z),
        0 <= start -> end_ <= text_length block ->
        exists inlineStyles proto' sections,
          getStyleArrayForBlock block proto = Ok (inlineStyles, proto')
          /\ getStyleSections block styles start end_ proto
             = Ok (sections, if 0 <? text_length block then proto' else proto)
          /\ forall i,
               i ∈ map ss_start sections
               <-> start <= i < end_
                   /\ (i = start
                       \/ exists k, k ∈ styles
                                    /\ array_get proto' (style_array inlineStyles k) i
                                       <> array_get proto' (style_array inlineStyles k)
                                                    (i - 1))).
Proof.
  split.
  - intros Hlen Hranges Hclean.
    assert (Hkinds : Forall (fun r => style_kind (isr_style r) <> None)
                            (block_inlineStyleRanges block)).
    { rewrite Hranges. repeat constructor; discriminate. }
    destruct (first_error_kinds (text_length block) _ Hkinds) as [Hwrites Herror].
    erewrite getStyleSections_fold;
      [|rewrite getStyleArrayForBlock_eq, Herror, Hwrites, union_empty_r_L; reflexivity
       |lia].
    f_equal. f_equal.
    rewrite styleSections_fold_inside; [|lia|rewrite fold_range_pure_length; simpl; lia].
    rewrite (run_step_clean proto) by exact Hclean.
    rewrite (bold_italic_runs _ _ _ Hranges).
    rewrite !(text_get_same proto) by (apply Hclean; lia). reflexivity.
  - intros Hthrows styles start end_ Hstart Hend.
    apply first_error_none in Hthrows.
    pose proof (getStyleArrayForBlock_eq block proto) as Harrays.
    rewrite Hthrows in Harrays.
    destruct (getStyleArrayForBlock_slots _ _ _ _ Harrays) as (Hl & _ & _).
    destruct (Z.ltb_spec 0 (text_length block)) as [Hpos|Hzero].
    + eexists _, _, _. split; [exact Harrays|].
      split; [apply getStyleSections_fold; [exact Harrays|exact Hpos]|].
      intros i. apply run_starts; [assumption|]. rewrite Hl. assumption.
    + eexists _, _, []. split; [exact Harrays|]. unfold getStyleSections.
      ltb_false 0 (text_length block). split; [reflexivity|].
      intros i. split.
      * intros Hi. apply elem_of_nil in Hi. contradiction.
      * intros [Hi _]. lia.
Qed.

End RunSplitter.
(** * Toggle markup *)

Section ToggleMarkup.

Lemma getStyleTagSectionMarkdown_snoc (styles : Styles) (k : StyleKey) (v : slot)
    (text : string) :
  getStyleTagSectionMarkdown (styles ++ [(k, v)]) text
  = addInlineStyleMarkup (key_name k) (getStyleTagSectionMarkdown styles text).
Proof. unfold getStyleTagSectionMarkdown, forEach. rewrite fold_left_app. reflexivity. Qed.

Lemma tag_copy_slot (proto : ObjectPrototype) (inlineStyles : InlineStyles) (offset : Z)
    (k : StyleKey) (styles : Styles) (text : string) :
  k ∈ property_keys ->
  getStyleTagSectionMarkdown (copy_slot proto inlineStyles offset k styles) text
  = getStyleTagSectionMarkdown styles text.
Proof.
  intros Hk. unfold copy_slot.
  destruct (array_get proto (style_array inlineStyles k) offset) as [v|]; [|reflexivity].
  destruct (truthy (Some v)); [|reflexivity].
  rewrite getStyleTagSectionMarkdown_snoc.
  unfold property_keys in Hk.
  repeat (apply elem_of_cons in Hk as [->|Hk]; [reflexivity|]).
  apply elem_of_nil in Hk. contradiction.
Qed.

Lemma tag_flag_slot (proto : ObjectPrototype) (inlineStyles : InlineStyles) (offset : Z)
    (k : StyleKey) (styles : Styles) (text : string) :
  getStyleTagSectionMarkdown (flag_slot proto inlineStyles offset k styles) text
  = wrap_if proto inlineStyles offset (getStyleTagSectionMarkdown styles text) k.
Proof.
  unfold flag_slot, wrap_if.
  destruct (truthy (array_get proto (style_array inlineStyles k) offset)); [|reflexivity].
  apply getStyleTagSectionMarkdown_snoc.
Qed.

(** C5, as the code has it: the toggle markups of a run are applied in the
    order in which [getStylesAtOffset] inserts the keys, SUBSCRIPT,
    SUPERSCRIPT, CODE, STRIKETHROUGH, UNDERLINE, ITALIC, BOLD, each around
    the result so far; a run with BOLD and UNDERLINE alone renders content
    [x] as [**__x__**], BOLD outermost. *)
Theorem toggle_markup_order (proto : ObjectPrototype) (inlineStyles : InlineStyles)
    (offset : Z) (content : string) :
  getStyleTagSectionMarkdown (getStylesAtOffset proto inlineStyles offset) content
  = fold_left (wrap_if proto inlineStyles offset) toggle_insertion_order content
  /\ (truthy (array_get proto (style_array inlineStyles BOLD) offset) = true ->
      truthy (array_get proto (style_array inlineStyles UNDERLINE) offset) = true ->
      (forall k, k ∈ toggle_keys -> k <> BOLD -> k <> UNDERLINE ->
                 truthy (array_get proto (style_array inlineStyles k) offset) = false) ->
      getStyleTagSectionMarkdown (getStylesAtOffset proto inlineStyles offset) content
      = "**__" +:+ content +:+ "__**").
Proof.
  assert (Horder :
    getStyleTagSectionMarkdown (getStylesAtOffset proto inlineStyles offset) content
    = fold_left (wrap_if proto inlineStyles offset) toggle_insertion_order content).
  { unfold getStylesAtOffset. rewrite !tag_flag_slot.
    rewrite !tag_copy_slot by (unfold property_keys; set_solver).
    reflexivity. }
  split; [exact Horder|].
  intros Hbold Hunder Hothers. rewrite Horder.
  unfold toggle_insertion_order. cbn [fold_left]. unfold wrap_if.
  rewrite Hbold, Hunder.
  rewrite !Hothers by (unfold toggle_keys; first [set_solver | discriminate]).
  unfold addInlineStyleMarkup. simpl. rewrite !sapp_assoc. reflexivity.
Qed.

End ToggleMarkup.

(** * Errors *)

Section Errors.

(** ** Loops that throw *)

Lemma foldM_Ok_inv {A S : Type} (I : ObjectPrototype -> Prop) (body : S -> A -> M S)
    (l : list A) :
  (forall s x proto s' proto', body s x proto = Ok (s', proto') -> I proto -> I proto') ->
  forall s proto s' proto', foldM body l s proto = Ok (s', proto') -> I proto -> I proto'.
Proof.
  intros Hbody. induction l as [|x l IH]; intros s proto s' proto' H Hproto.
  - injection H as <- <-. exact Hproto.
  - rewrite foldM_cons in H. destruct (body s x proto) as [[s1 proto1]|] eqn:Hx;
      [|discriminate].
    eapply IH; [exact H|]. eapply Hbody; eassumption.
Qed.

Lemma foldM_Err_inv {A S : Type} (I : ObjectPrototype -> Prop) (body : S -> A -> M S)
    (l : list A) (e : error) :
  (forall s x proto s' proto', body s x proto = Ok (s', proto') -> I proto -> I proto') ->
  forall s proto, I proto -> foldM body l s proto = Err e ->
                  exists s' x proto', I proto' /\ x ∈ l /\ body s' x proto' = Err e.
Proof.
  intros Hbody. induction l as [|x l IH]; intros s proto Hproto H; [discriminate|].
  rewrite foldM_cons in H. destruct (body s x proto) as [[s1 proto1]|e1] eqn:Hx.
  - destruct (IH s1 proto1) as (s' & y & proto' & Hproto' & Hy & Hbody');
      [eapply Hbody; eassumption|exact H|].
    exists s', y, proto'. split; [assumption|].
    split; [apply list_elem_of_further|]; assumption.
  - injection H as ->. exists s, x, proto. split; [assumption|].
    split; [apply list_elem_of_here|assumption].
Qed.

(** A loop meets an element on which its body throws whatever the state it
    is reached in: the loop throws. *)
Lemma foldM_Err {A S : Type} (I : ObjectPrototype -> Prop) (body : S -> A -> M S)
    (l : list A) (x : A) :
  (forall s y proto s' proto', body s y proto = Ok (s', proto') -> I proto -> I proto') ->
  x ∈ l -> (forall s proto, I proto -> exists e, body s x proto = Err e) ->
  forall s proto, I proto -> exists e, foldM body l s proto = Err e.
Proof.
  intros Hbody Hx Herr. induction l as [|y l IH]; intros s proto Hproto.
  - apply elem_of_nil in Hx. contradiction.
  - rewrite foldM_cons. apply elem_of_cons in Hx as [<-|Hx].
    + destruct (Herr s proto Hproto) as [e He]. rewrite He. exists e. reflexivity.
    + destruct (body s y proto) as [[s1 proto1]|e] eqn:Hy; [|exists e; reflexivity].
      apply IH; [assumption|]. eapply Hbody; eassumption.
Qed.

(** ** The states a block can reach *)

Lemma reached_refl (block : Block) (proto : ObjectPrototype) : reached block proto proto.
Proof. split; [reflexivity|]. apply union_subseteq_l. Qed.

Lemma reached_writes (block : Block) (proto proto' : ObjectPrototype) :
  reached block proto proto' ->
  reached block proto (proto' ∪ prototype_writes (block_inlineStyleRanges block)).
Proof.
  intros [Hlo Hhi]. split.
  - etransitivity; [exact Hlo|]. apply union_subseteq_l.
  - apply union_least; [exact Hhi|]. apply union_subseteq_r.
Qed.

Lemma getStyleArrayForBlock_Err (block : Block) (proto : ObjectPrototype) (e : error) :
  getStyleArrayForBlock block proto = Err e -> e <> TypeError_entity_undefined.
Proof.
  rewrite getStyleArrayForBlock_eq.
  destruct (first_error _ _ _) as [e'|] eqn:Herr; [|discriminate]. intros [= <-].
  apply first_error_some in Herr as (pre & r & post & _ & _ & _ & [H|H]).
  - destruct H as (_ & _ & ->). discriminate.
  - destruct H as (_ & ->). discriminate.
Qed.

Lemma getStyleSections_Ok (block : Block) (styles : list StyleKey) (start end_ : Z)
    (proto0 proto proto' : ObjectPrototype) (sections : list StyleSection) :
  getStyleSections block styles start end_ proto = Ok (sections, proto') ->
  reached block proto0 proto -> reached block proto0 proto'.
Proof.
  unfold getStyleSections. destruct (0 <? text_length block).
  - unfold bind. destruct (getStyleArrayForBlock block proto) as [[s p]|] eqn:Hs;
      [|discriminate].
    cbn. intros [= _ <-]. apply getStyleArrayForBlock_slots in Hs as (_ & -> & _).
    apply reached_writes.
  - intros [= _ <-]. trivial.
Qed.

Lemma getStyleSections_Err (block : Block) (styles : list StyleKey) (start end_ : Z)
    (proto : ObjectPrototype) (e : error) :
  getStyleSections block styles start end_ proto = Err e -> e <> TypeError_entity_undefined.
Proof.
  unfold getStyleSections. destruct (0 <? text_length block); [|discriminate].
  unfold bind. destruct (getStyleArrayForBlock block proto) as [[s p]|e'] eqn:Hs;
    [discriminate|].
  intros [= <-]. eapply getStyleArrayForBlock_Err. exact Hs.
Qed.

Lemma styleSection_markdown_Ok (block : Block) (text text' : string)
    (section : StyleSection) (proto0 proto proto' : ObjectPrototype) :
  styleSection_markdown block text section proto = Ok (text', proto') ->
  reached block proto0 proto -> reached block proto0 proto'.
Proof.
  unfold styleSection_markdown, bind.
  destruct (getStyleSections block property_keys _ _ proto) as [[l p]|] eqn:Hs;
    [|discriminate].
  cbn. intros [= _ <-]. eapply getStyleSections_Ok. exact Hs.
Qed.

Lemma styleSection_markdown_Err (block : Block) (text : string) (section : StyleSection)
    (proto : ObjectPrototype) (e : error) :
  styleSection_markdown block text section proto = Err e ->
  e <> TypeError_entity_undefined.
Proof.
  unfold styleSection_markdown, bind.
  destruct (getStyleSections block property_keys _ _ proto) as [[l p]|e'] eqn:Hs;
    [discriminate|].
  intros [= <-]. eapply getStyleSections_Err. exact Hs.
Qed.

(** The binds of [getEntitySectionMarkdown], written out. *)
Lemma getEntitySectionMarkdown_eq (block : Block) (entityMap : gmap Z Entity)
    (section : EntitySection) (proto : ObjectPrototype) :
  getEntitySectionMarkdown block entityMap section proto
  = match getStyleSections block toggle_keys (sec_start section) (sec_end section) proto
    with
    | Ok (sections, proto1) =>
        match foldM (styleSection_markdown block) sections "" proto1 with
        | Ok (t, proto2) =>
            match sec_entityKey section with
            | Some entityKey =>
                lift (getEntityMarkdown proto2 entityMap entityKey (Some (Js.concat [t])))
                     proto2
            | None => Ok (Some (Js.concat [t]), proto2)
            end
        | Err e => Err e
        end
    | Err e => Err e
    end.
Proof.
  unfold getEntitySectionMarkdown, bind.
  destruct (getStyleSections block toggle_keys _ _ proto) as [[sections proto1]|e];
    [|reflexivity].
  destruct (foldM (styleSection_markdown block) sections "" proto1) as [[t proto2]|e];
    [|reflexivity].
  destruct (sec_entityKey section); reflexivity.
Qed.

(** How an entity section renders: the style arrays throw, or the styled
    text [t] is built and, for an entity section, handed to the entity
    markup in a state that the block can reach. *)
Lemma getEntitySectionMarkdown_cases (block : Block) (entityMap : gmap Z Entity)
    (section : EntitySection) (proto0 proto : ObjectPrototype) :
  reached block proto0 proto ->
  (exists e, e <> TypeError_entity_undefined
             /\ getEntitySectionMarkdown block entityMap section proto = Err e)
  \/ (exists t proto',
         reached block proto0 proto'
         /\ getEntitySectionMarkdown block entityMap section proto
            = match sec_entityKey section with
              | Some entityKey =>
                  lift (getEntityMarkdown proto' entityMap entityKey (Some t)) proto'
              | None => Ok (Some t, proto')
              end).
Proof.
  intros Hreached. rewrite getEntitySectionMarkdown_eq.
  destruct (getStyleSections block toggle_keys _ _ proto) as [[sections proto1]|e] eqn:Hs.
  - apply getStyleSections_Ok with (proto0 := proto0) in Hs; [|exact Hreached].
    destruct (foldM (styleSection_markdown block) sections "" proto1)
      as [[t proto2]|e] eqn:Ht.
    + right. exists (Js.concat [t]), proto2. split; [|reflexivity].
      eapply (foldM_Ok_inv (reached block proto0)); [|exact Ht|exact Hs].
      intros s x p s' p'. apply styleSection_markdown_Ok.
    + left. exists e. split; [|reflexivity].
      apply (foldM_Err_inv (fun _ => True)) in Ht as (t' & ss & p & _ & _ & Ht);
        [|trivial|trivial].
      eapply styleSection_markdown_Err. exact Ht.
  - left. exists e. split; [|reflexivity]. eapply getStyleSections_Err. exact Hs.
Qed.

Lemma getEntitySectionMarkdown_Ok (block : Block) (entityMap : gmap Z Entity)
    (section : EntitySection) (proto0 proto proto' : ObjectPrototype)
    (text : option string) :
  getEntitySectionMarkdown block entityMap section proto = Ok (text, proto') ->
  reached block proto0 proto -> reached block proto0 proto'.
Proof.
  intros H Hreached.
  destruct (getEntitySectionMarkdown_cases block entityMap section proto0 proto Hreached)
    as [(e & _ & He)|(t & p & Hp & Hsection)]; [congruence|].
  rewrite Hsection in H. destruct (sec_entityKey section) as [k|].
  - unfold lift in H. destruct (getEntityMarkdown p entityMap k (Some t)); [|discriminate].
    injection H as _ <-. exact Hp.
  - injection H as _ <-. exact Hp.
Qed.

Lemma emitted_snoc (rs : list EntityRange) (r : EntityRange) :
  emitted (rs ++ [r])
  = emitted rs ++ gap_section (coverage_end rs) r ++ [entity_section r].
Proof.
  unfold emitted. rewrite fold_left_app. cbn [fold_left].
  rewrite <- entitySections_lastOffset.
  destruct (fold_left entitySections_step rs ([], 0)) as [sections lastOffset].
  rewrite entitySections_step_eq. reflexivity.
Qed.

(** The key of an entity section is the key of one of the ranges. *)
Lemma getEntitySections_key (rs : list EntityRange) (blockLength : Z)
    (section : EntitySection) (k : Z) :
  section ∈ getEntitySections rs blockLength -> sec_entityKey section = Some k ->
  exists r, r ∈ rs /\ er_key r = k.
Proof.
  rewrite getEntitySections_final, elem_of_app. intros [Hin|Hin] Hk.
  - clear blockLength. induction rs as [|r rs IH] using rev_ind.
    + apply elem_of_nil in Hin. contradiction.
    + rewrite emitted_snoc, !elem_of_app in Hin. destruct Hin as [Hin|[Hin|Hin]].
      * destruct (IH Hin) as (r' & Hr' & Hkey). exists r'.
        split; [apply elem_of_app; left|]; assumption.
      * unfold gap_section in Hin. destruct (_ <? _).
        -- apply list_elem_of_singleton in Hin. subst section. discriminate.
        -- apply elem_of_nil in Hin. contradiction.
      * apply list_elem_of_singleton in Hin. subst section. injection Hk as <-.
        exists r. split; [|reflexivity]. apply elem_of_app. right. apply list_elem_of_here.
  - unfold final_section in Hin. destruct (_ <? _).
    + apply list_elem_of_singleton in Hin. subst section. discriminate.
    + apply elem_of_nil in Hin. contradiction.
Qed.

(** Every range has its entity section. *)
Lemma getEntitySections_range (rs : list EntityRange) (blockLength : Z) (r : EntityRange) :
  r ∈ rs -> entity_section r ∈ getEntitySections rs blockLength.
Proof.
  intros Hr. rewrite getEntitySections_final, elem_of_app. left.
  induction rs as [|r' rs IH] using rev_ind.
  - apply elem_of_nil in Hr. contradiction.
  - rewrite emitted_snoc, !elem_of_app. apply elem_of_app in Hr as [Hr|Hr].
    + left. apply IH. exact Hr.
    + apply list_elem_of_singleton in Hr. subst r'. right. right. apply list_elem_of_here.
Qed.

Lemma getEntityMarkdown_present (proto : ObjectPrototype) (entityMap : gmap Z Entity)
    (entityKey : Z) (text : option string) :
  is_Some (entityMap !! entityKey) ->
  exists markdown, getEntityMarkdown proto entityMap entityKey text = Ok markdown.
Proof.
  intros [entity Hentity]. unfold getEntityMarkdown. rewrite Hentity.
  destruct (_ || _); [eexists; reflexivity|].
  destruct (String.eqb _ _); eexists; reflexivity.
Qed.

Lemma getEntityMarkdown_missing (proto : ObjectPrototype) (entityMap : gmap Z Entity)
    (entityKey : Z) (text : option string) :
  entityMap !! entityKey = None ->
  getEntityMarkdown proto entityMap entityKey text
  = if bool_decide (entityKey ∈ proto) then Ok text else Err TypeError_entity_undefined.
Proof. intros Hmissing. unfold getEntityMarkdown. rewrite Hmissing. reflexivity. Qed.

Lemma getEntitySectionMarkdown_missing (block : Block) (entityMap : gmap Z Entity)
    (section : EntitySection) (k : Z) (proto0 proto : ObjectPrototype) :
  sec_entityKey section = Some k -> entityMap !! k = None ->
  k ∉ proto0 -> k ∉ prototype_writes (block_inlineStyleRanges block) ->
  reached block proto0 proto ->
  exists e, getEntitySectionMarkdown block entityMap section proto = Err e.
Proof.
  intros Hk Hmissing Hproto Hwrites Hreached.
  destruct (getEntitySectionMarkdown_cases block entityMap section proto0 proto Hreached)
    as [(e & _ & He)|(t & p & [_ Hp] & Hsection)].
  - exists e. exact He.
  - exists TypeError_entity_undefined.
    rewrite Hsection, Hk, (getEntityMarkdown_missing _ _ _ _ Hmissing).
    rewrite bool_decide_eq_false_2; [reflexivity|].
    intros Hin. apply Hp, elem_of_union in Hin as [Hin|Hin]; contradiction.
Qed.

Lemma getEntitySectionMarkdown_present (block : Block) (entityMap : gmap Z Entity)
    (section : EntitySection) (proto : ObjectPrototype) :
  (forall k, sec_entityKey section = Some k -> is_Some (entityMap !! k)) ->
  getEntitySectionMarkdown block entityMap section proto <> Err TypeError_entity_undefined.
Proof.
  intros Hpresent.
  destruct (getEntitySectionMarkdown_cases block entityMap section proto proto
              (reached_refl block proto))
    as [(e & Hne & Hsection)|(t & p & _ & Hsection)]; rewrite Hsection.
  - congruence.
  - destruct (sec_entityKey section) as [k|]; [|discriminate].
    destruct (getEntityMarkdown_present p entityMap k (Some t)) as [markdown Hm];
      [apply Hpresent; reflexivity|].
    rewrite Hm. discriminate.
Qed.

Lemma blockContent_step_Err (block : Block) (entityMap : gmap Z Entity) (n : nat)
    (blockMarkdown : list (option string)) (index : nat) (section : EntitySection)
    (proto : ObjectPrototype) (e : error) :
  blockContent_step block entityMap n blockMarkdown (index, section) proto = Err e
  <-> getEntitySectionMarkdown block entityMap section proto = Err e.
Proof.
  unfold blockContent_step, bind, ret.
  destruct (getEntitySectionMarkdown block entityMap section proto) as [[t p]|e'];
    split; congruence.
Qed.

Lemma blockContent_step_Ok (block : Block) (entityMap : gmap Z Entity) (n : nat)
    (blockMarkdown blockMarkdown' : list (option string)) (indexed : nat * EntitySection)
    (proto0 proto proto' : ObjectPrototype) :
  blockContent_step block entityMap n blockMarkdown indexed proto
  = Ok (blockMarkdown', proto') ->
  reached block proto0 proto -> reached block proto0 proto'.
Proof.
  destruct indexed as [index section]. unfold blockContent_step, bind.
  destruct (getEntitySectionMarkdown block entityMap section proto) as [[t p]|] eqn:Hs;
    [|discriminate].
  cbn. intros [= _ <-]. eapply getEntitySectionMarkdown_Ok. exact Hs.
Qed.

(** X19: the lookup of an entity key.  Rendering an entity section whose key
    is not in the entity map throws and gives no string, provided that
    [Object.prototype] does not hold the key: it held none before, and no
    range of the block tagged [__proto__] covers that offset.  An atomic
    block whose first range has such a key throws the lookup error, and a
    block that is not atomic and has a range with such a key throws.  A key
    that [Object.prototype] does hold is looked up as [true], and the text
    goes through without an error.  When the keys of all ranges are in the
    map, the lookup error is thrown neither by a section nor by the
    block. *)
Theorem entity_lookup_throws (block : Block) (entityMap : gmap Z Entity)
    (proto : ObjectPrototype) :
  (forall section k,
      sec_entityKey section = Some k -> entityMap !! k = None ->
      k ∉ proto -> k ∉ prototype_writes (block_inlineStyleRanges block) ->
      exists e, getEntitySectionMarkdown block entityMap section proto = Err e)
  /\ (forall r rs,
         isAtomicBlock block = true -> block_entityRanges block = r :: rs ->
         entityMap !! er_key r = None ->
         getBlockContentMarkdown block entityMap proto
         = if bool_decide (er_key r ∈ proto) then Ok (None, proto)
           else Err TypeError_entity_undefined)
  /\ (forall r,
         isAtomicBlock block = false -> r ∈ block_entityRanges block ->
         entityMap !! er_key r = None ->
         er_key r ∉ proto -> er_key r ∉ prototype_writes (block_inlineStyleRanges block) ->
         exists e, getBlockContentMarkdown block entityMap proto = Err e)
  /\ (forall k text,
         entityMap !! k = None -> k ∈ proto ->
         getEntityMarkdown proto entityMap k text = Ok text)
  /\ ((forall r, r ∈ block_entityRanges block -> is_Some (entityMap !! er_key r)) ->
      getBlockContentMarkdown block entityMap proto <> Err TypeError_entity_undefined
      /\ forall section proto',
           section ∈ getEntitySections (block_entityRanges block) (text_length block) ->
           getEntitySectionMarkdown block entityMap section proto'
           <> Err TypeError_entity_undefined).
Proof.
  split; [|split; [|split; [|split]]].
  - intros section k Hk Hmissing Hproto Hwrites.
    apply (getEntitySectionMarkdown_missing block entityMap section k proto proto);
      [assumption..|apply reached_refl].
  - intros r rs Hatomic Hranges Hmissing.
    unfold getBlockContentMarkdown. rewrite Hatomic, Hranges.
    unfold bind, get_prototype, lift.
    rewrite (getEntityMarkdown_missing _ _ _ _ Hmissing).
    destruct (bool_decide (er_key r ∈ proto)); reflexivity.
  - intros r Hatomic Hr Hmissing Hproto Hwrites.
    unfold getBlockContentMarkdown. rewrite Hatomic.
    set (sections := getEntitySections (block_entityRanges block) (text_length block)).
    pose proof (getEntitySections_range _ (text_length block) r Hr) as Hsec.
    fold sections in Hsec.
    apply list_elem_of_lookup in Hsec as [i Hi].
    destruct (foldM_Err (reached block proto)
                (blockContent_step block entityMap (List.length sections))
                (imap pair sections) (i, entity_section r)) with (s := @nil (option string))
                (proto := proto) as [e He].
    + intros s y p s' p'. apply blockContent_step_Ok.
    + apply (elem_of_lookup_imap_2 pair sections (entity_section r) i Hi).
    + intros acc p Hp.
      destruct (getEntitySectionMarkdown_missing block entityMap (entity_section r)
                  (er_key r) proto p eq_refl Hmissing Hproto Hwrites Hp) as (e & He).
      exists e. apply blockContent_step_Err. exact He.
    + apply reached_refl.
    + exists e. unfold bind. rewrite He. reflexivity.
  - intros k text Hmissing Hk. rewrite (getEntityMarkdown_missing _ _ _ _ Hmissing).
    rewrite bool_decide_eq_true_2 by exact Hk. reflexivity.
  - intros Hpresent.
    assert (Hsections : forall section proto',
      section ∈ getEntitySections (block_entityRanges block) (text_length block) ->
      getEntitySectionMarkdown block entityMap section proto'
      <> Err TypeError_entity_undefined).
    { intros section proto' Hsection. apply getEntitySectionMarkdown_present.
      intros k Hk.
      destruct (getEntitySections_key _ _ _ _ Hsection Hk) as (r & Hr & <-).
      apply Hpresent. exact Hr. }
    split; [|exact Hsections].
    unfold getBlockContentMarkdown. destruct (isAtomicBlock block).
    + destruct (block_entityRanges block) as [|r rs] eqn:Hranges; [discriminate|].
      unfold bind, get_prototype, lift.
      destruct (getEntityMarkdown_present proto entityMap (er_key r) None)
        as [markdown Hm].
      * apply Hpresent. rewrite ?Hranges. apply list_elem_of_here.
      * rewrite Hm. discriminate.
    + unfold bind. destruct (foldM _ _ _ _) as [[blockMarkdown p]|e] eqn:Hfold;
        [discriminate|].
      intros [= ->].
      apply (foldM_Err_inv (fun _ => True)) in Hfold
        as (acc & [i section] & p & _ & Hin & Hstep); [|trivial|trivial].
      apply blockContent_step_Err in Hstep.
      apply elem_of_lookup_imap_1 in Hin as (j & section' & Heq & Hj).
      injection Heq as _ Hsection. subst section'.
      apply (Hsections section p); [|exact Hstep].
      apply list_elem_of_lookup. exists j. exact Hj.
Qed.

End Errors.

(** * Block content *)

Section BlockContent.

Lemma mapM_cons {A B : Type} (f : A -> M B) (x : A) (l : list A) (proto : ObjectPrototype) :
  mapM f (x :: l) proto
  = match f x proto with
    | Ok (y, proto1) =>
        match mapM f l proto1 with
        | Ok (ys, proto2) => Ok (y :: ys, proto2)
        | Err e => Err e
        end
    | Err e => Err e
    end.
Proof.
  cbn [mapM]. unfold bind. destruct (f x proto) as [[y proto1]|e]; [|reflexivity].
  destruct (mapM f l proto1) as [[ys proto2]|e]; reflexivity.
Qed.

Lemma mapM_length {A B : Type} (f : A -> M B) (l : list A) (ys : list B)
    (proto proto' : ObjectPrototype) :
  mapM f l proto = Ok (ys, proto') -> List.length ys = List.length l.
Proof.
  revert ys proto proto'. induction l as [|x l IH]; intros ys proto proto' H.
  - injection H as <- _. reflexivity.
  - rewrite mapM_cons in H. destruct (f x proto) as [[y proto1]|]; [|discriminate].
    destruct (mapM f l proto1) as [[ys' proto2]|] eqn:Hl; [|discriminate].
    injection H as <- _. simpl. rewrite (IH ys' proto1 proto2 Hl). reflexivity.
Qed.

Lemma blockContent_fold (block : Block) (entityMap : gmap Z Entity) (n : nat)
    (sections : list EntitySection) :
  forall (off : nat) (acc : list (option string)) (proto : ObjectPrototype),
    foldM (blockContent_step block entityMap n)
          (imap (fun i section => ((off + i)%nat, section)) sections) acc proto
    = (texts <- mapM (getEntitySectionMarkdown block entityMap) sections;;
       ret (acc ++ imap (fun i t => trim_at n (off + i) t) texts)) proto.
Proof.
  induction sections as [|section sections IH]; intros off acc proto.
  - cbn. unfold ret. rewrite List.app_nil_r. reflexivity.
  - rewrite imap_cons, foldM_cons. unfold bind at 1. rewrite mapM_cons.
    unfold blockContent_step at 1. unfold bind at 1.
    destruct (getEntitySectionMarkdown block entityMap section proto) as [[t proto1]|e];
      [|reflexivity].
    unfold ret at 1.
    rewrite (imap_ext _ (fun i section => ((S off + i)%nat, section)))
      by (intros i x _; simpl; f_equal; lia).
    rewrite IH. unfold bind.
    destruct (mapM (getEntitySectionMarkdown block entityMap) sections proto1)
      as [[ts proto2]|e]; [|reflexivity].
    unfold ret. rewrite imap_cons, <- List.app_assoc. do 4 f_equal.
    apply imap_ext. intros i x _. simpl. f_equal. lia.
Qed.

Lemma trim_at_last (texts : list (option string)) (off n : nat) :
  (0 < off)%nat -> (n = off + List.length texts)%nat ->
  imap (fun i t => trim_at n (off + i) t) texts
  = alter_last (fmap trimTrailingZeros) texts.
Proof.
  revert off. induction texts as [|t texts IH]; intros off Hoff Hn; [reflexivity|].
  rewrite imap_cons.
  rewrite (imap_ext _ (fun i t => trim_at n (S off + i) t))
    by (intros i x _; simpl; f_equal; lia).
  rewrite IH by (simpl in Hn; lia).
  unfold trim_at at 1.
  replace (off + 0 =? 0)%nat with false by (symmetry; apply Nat.eqb_neq; lia).
  destruct texts as [|t' texts].
  - replace (off + 0 =? n - 1)%nat with true
      by (symmetry; apply Nat.eqb_eq; simpl in Hn; lia).
    reflexivity.
  - replace (off + 0 =? n - 1)%nat with false
      by (symmetry; apply Nat.eqb_neq; simpl in Hn; lia).
    reflexivity.
Qed.

Lemma trim_at_edges (texts : list (option string)) :
  imap (fun i t => trim_at (List.length texts) i t) texts = trim_edges texts.
Proof.
  unfold trim_edges. destruct texts as [|t texts]; [reflexivity|].
  rewrite imap_cons.
  rewrite (imap_ext _ (fun i t' => trim_at (List.length (t :: texts)) (1 + i) t'))
    by reflexivity.
  rewrite trim_at_last by (simpl; lia).
  unfold trim_at, trim_first. cbn [Nat.eqb].
  destruct texts as [|t' texts]; reflexivity.
Qed.

Lemma trim_edges_one (t : option string) :
  trim_edges [t] = [trimTrailingZeros <$> (trimLeadingZeros <$> t)].
Proof. reflexivity. Qed.

Lemma trim_edges_many (first final : option string) (middle : list (option string)) :
  trim_edges (first :: middle ++ [final])
  = (trimLeadingZeros <$> first) :: middle ++ [trimTrailingZeros <$> final].
Proof.
  unfold trim_edges, trim_first.
  rewrite app_comm_cons, alter_last_snoc. reflexivity.
Qed.

(** The content of a block that is not atomic. *)
Lemma getBlockContentMarkdown_sections (block : Block) (entityMap : gmap Z Entity)
    (proto : ObjectPrototype) :
  isAtomicBlock block = false ->
  getBlockContentMarkdown block entityMap proto
  = (texts <- mapM (getEntitySectionMarkdown block entityMap)
                   (getEntitySections (block_entityRanges block) (text_length block));;
     ret (Some (Js.join (trim_edges texts)))) proto.
Proof.
  intros Hatomic. unfold getBlockContentMarkdown. rewrite Hatomic.
  rewrite (imap_ext pair (fun i section => ((0 + i)%nat, section))) by reflexivity.
  unfold bind at 1. rewrite blockContent_fold. unfold bind.
  destruct (mapM _ _ proto) as [[texts proto']|e] eqn:Htexts; [|reflexivity].
  unfold ret. rewrite <- (mapM_length _ _ _ _ _ Htexts).
  rewrite List.app_nil_l.
  rewrite (imap_ext _ (fun i t => trim_at (List.length texts) i t)) by reflexivity.
  rewrite trim_at_edges. reflexivity.
Qed.

(** ** Blocks without ranges *)

Lemma no_styles_same (len : Z) (styles : list StyleKey) (i : Z) :
  same_slots ∅ (no_styles len) styles i = true.
Proof.
  unfold same_slots. apply forallb_forall. intros k _.
  apply bool_decide_eq_true. rewrite !array_get_fresh. simpl.
  rewrite !lookup_empty. reflexivity.
Qed.

Lemma no_styles_at (len i : Z) : getStylesAtOffset ∅ (no_styles len) i = [].
Proof.
  unfold getStylesAtOffset, copy_slot, flag_slot. rewrite !array_get_fresh. simpl.
  rewrite !lookup_empty. reflexivity.
Qed.

(** The arrays of a block without inline style ranges. *)
Lemma getStyleArrayForBlock_plain (block : Block) (proto : ObjectPrototype) :
  block_inlineStyleRanges block = [] ->
  getStyleArrayForBlock block proto = Ok (no_styles (text_length block), proto).
Proof.
  intros Hranges. rewrite getStyleArrayForBlock_eq, Hranges. cbn.
  rewrite union_empty_r_L. reflexivity.
Qed.

Lemma charAt_none (s : string) (i : nat) :
  Js.charAt s i = None -> (String.length s <= i)%nat.
Proof.
  unfold Js.charAt. revert i.
  induction s as [|a s IH]; intros [|i] H; simpl in *; try discriminate; try lia.
  apply IH in H. lia.
Qed.

(** Inside the text [text[i]] is a character, whatever [Object.prototype]
    holds. *)
Lemma text_get_inside (proto : ObjectPrototype) (text : string) (i : Z) :
  0 <= i < Z.of_nat (String.length text) ->
  text_get proto text i = EChar <$> Js.charAtZ text i.
Proof.
  intros [Hlo Hhi]. unfold text_get.
  destruct (Js.charAtZ text i) as [c|] eqn:Hc; [reflexivity|].
  unfold Js.charAtZ in Hc. destruct (Z.ltb_spec i 0); [lia|].
  apply charAt_none in Hc. lia.
Qed.

(** The characters of a text, read one by one. *)
Lemma text_chars_own (text : string) :
  map (Js.charAtZ text) (seqZ 0 (Z.of_nat (String.length text)))
  = map Some (list_ascii_of_string text).
Proof.
  induction text as [|c text IH]; [reflexivity|].
  cbn [String.length list_ascii_of_string map]. rewrite seqZ_cons by lia.
  cbn [map]. f_equal.
  replace (Z.pred (Z.of_nat (S (String.length text))))
    with (Z.of_nat (String.length text)) by lia.
  rewrite <- IH. change (Z.succ 0) with (1 + 0). rewrite <- fmap_add_seqZ.
  rewrite <- list_fmap_compose. apply list_fmap_ext.
  intros j i Hi. apply lookup_seqZ in Hi as [-> _]. unfold Js.charAtZ. simpl.
  ltb_false (1 + (0 + Z.of_nat j)) (0).
  ltb_false (0 + Z.of_nat j) (0).
  replace (Z.to_nat (1 + (0 + Z.of_nat j))) with (S (Z.to_nat (0 + Z.of_nat j))) by lia.
  reflexivity.
Qed.

Lemma text_chars (proto : ObjectPrototype) (text : string) :
  map (text_get proto text) (seqZ 0 (Z.of_nat (String.length text)))
  = map (fun c => Some (EChar c)) (list_ascii_of_string text).
Proof.
  transitivity (map (fmap EChar) (map (Js.charAtZ text)
                                      (seqZ 0 (Z.of_nat (String.length text))))).
  - rewrite map_map. apply list_fmap_ext. intros j i Hi.
    apply lookup_seqZ in Hi as [-> Hj]. apply text_get_inside. lia.
  - rewrite text_chars_own, map_map. reflexivity.
Qed.

Lemma getSectionText_chars (text : string) :
  getSectionText (map (fun c => Some (EChar c)) (list_ascii_of_string text))
  = escape_text text.
Proof.
  unfold getSectionText. destruct text as [|c text]; [reflexivity|].
  replace (0 <? _) with true by (symmetry; apply Z.ltb_lt; simpl; lia).
  generalize (String c text). clear. intros text.
  induction text as [|c text IH]; [reflexivity|].
  cbn [list_ascii_of_string map Js.join fold_right escape_text].
  unfold Js.join in IH. rewrite IH. unfold escape_char, escape1.
  walk_ifs ltac:(reflexivity).
  reflexivity.
Qed.

Lemma getStyleSections_plain (block : Block) (styles : list StyleKey) (n : nat)
    (proto : ObjectPrototype) :
  block_inlineStyleRanges block = [] ->
  text_length block = Z.of_nat (S n) ->
  clean_on proto 0 (text_length block) ->
  getStyleSections block styles 0 (text_length block) proto
  = Ok ([mkStyleSection []
           (map (fun c => Some (EChar c)) (list_ascii_of_string (block_text block)))
           0 (text_length block)],
        proto).
Proof.
  intros Hranges Hlen Hclean.
  rewrite (getStyleSections_fold block styles 0 (text_length block) proto proto
             (no_styles (text_length block)))
    by (first [apply getStyleArrayForBlock_plain; exact Hranges | lia]).
  f_equal. f_equal.
  rewrite styleSections_fold_inside by (simpl; lia).
  rewrite run_step_clean by exact Hclean.
  rewrite Z.sub_0_r, Hlen, run_single by (intros; apply no_styles_same).
  rewrite no_styles_at. rewrite <- Hlen. unfold text_length. rewrite text_chars.
  reflexivity.
Qed.

Lemma getEntitySectionMarkdown_plain (block : Block) (entityMap : gmap Z Entity) (n : nat)
    (proto : ObjectPrototype) :
  block_inlineStyleRanges block = [] ->
  text_length block = Z.of_nat (S n) ->
  clean_on proto 0 (text_length block) ->
  getEntitySectionMarkdown block entityMap (mkEntitySection 0 (text_length block) None)
                           proto
  = Ok (Some (escape_text (block_text block)), proto).
Proof.
  intros Hranges Hlen Hclean. rewrite getEntitySectionMarkdown_eq.
  cbn [sec_start sec_end sec_entityKey].
  rewrite (getStyleSections_plain block toggle_keys n proto Hranges Hlen Hclean).
  rewrite foldM_cons. unfold styleSection_markdown at 1. cbn [ss_start ss_end ss_styles].
  unfold bind at 1.
  rewrite (getStyleSections_plain block property_keys n proto Hranges Hlen Hclean).
  cbn [foldM ret fold_left].
  unfold addStylePropertyMarkdown, getStyleTagSectionMarkdown, forEach.
  cbn [ss_styles ss_text styles_get truthy orb fold_left Js.concat fold_right].
  rewrite getSectionText_chars.
  rewrite sapp_nil_l, sapp_nil_r. reflexivity.
Qed.

(** The content of a block without ranges. *)
Lemma getBlockContentMarkdown_plain (block : Block) (entityMap : gmap Z Entity)
    (proto : ObjectPrototype) :
  block_inlineStyleRanges block = [] ->
  block_entityRanges block = [] ->
  clean_on proto 0 (text_length block) ->
  getBlockContentMarkdown block entityMap proto
  = Ok (Some (trimTrailingZeros (trimLeadingZeros (escape_text (block_text block)))),
        proto).
Proof.
  intros Hstyles Hentities Hclean.
  rewrite getBlockContentMarkdown_sections
    by (unfold isAtomicBlock; rewrite Hentities; reflexivity).
  rewrite Hentities. unfold getEntitySections. cbn [fold_left].
  destruct (String.length (block_text block)) as [|n] eqn:Hn.
  - assert (Htext : block_text block = "")
      by (destruct (block_text block); [reflexivity|discriminate]).
    unfold text_length. rewrite Hn, Htext. reflexivity.
  - assert (Hlen : text_length block = Z.of_nat (S n))
      by (unfold text_length; rewrite Hn; reflexivity).
    ltb_true 0 (text_length block).
    cbn [app]. unfold bind. rewrite mapM_cons.
    rewrite (getEntitySectionMarkdown_plain block entityMap n proto Hstyles Hlen Hclean).
    cbn [mapM ret]. rewrite trim_edges_one.
    cbn [fmap option_fmap option_map Js.join fold_right].
    rewrite sapp_nil_r. reflexivity.
Qed.

(** The symbol of a type that names nothing inherited joins as the prefix of
    the type. *)
Lemma symbol_text_prefix (proto : ObjectPrototype) (block : Block) :
  (block_type block ∉ prototype_names) -> ~ names_index proto (block_type block) ->
  Js.join [symbol_text <$> getBlockTagSymbol proto block] = block_prefix block.
Proof.
  intros Hnames Hindex. unfold getBlockTagSymbol, block_prefix.
  assert (Hnone : inherited_property proto (block_type block) = None)
    by (apply inherited_property_none; split; assumption).
  rewrite Hnone. clear Hnone Hnames Hindex. generalize (block_type block). intros type.
  destruct (String.eqb_spec type "") as [->|_]; [reflexivity|].
  cbn [assoc blockTypesMapping].
  repeat match goal with
         | |- context [String.eqb type ?x] =>
             destruct (String.eqb_spec type x) as [->|?]; [reflexivity|]
         end.
  reflexivity.
Qed.

Lemma join_cons (p : option string) (l : list (option string)) :
  Js.join (p :: l) = Js.join [p] +:+ Js.join l.
Proof. destruct p as [s|]; cbn; [rewrite sapp_nil_r|]; reflexivity. Qed.

(** C7: blanks are replaced only in the text of the first entity section, at
    its leading end, and in the text of the last one, at its trailing end;
    each blank of the run at that end becomes one [&nbsp;] and the rest of
    the text stays; the texts of the sections in between are joined as they
    are.  The block with text ["  mid  "] and no ranges has the content
    [&nbsp;&nbsp;mid&nbsp;&nbsp;] ([Object.prototype] holding no offset of
    the text, as in a fresh realm). *)
Theorem whitespace_edges :
  (forall s, trimLeadingZeros s = leading_blanks_replaced s
             /\ trimTrailingZeros s = trailing_blanks_replaced s)
  /\ (forall block entityMap proto,
         isAtomicBlock block = false ->
         getBlockContentMarkdown block entityMap proto
         = (texts <- mapM (getEntitySectionMarkdown block entityMap)
                          (getEntitySections (block_entityRanges block)
                                             (text_length block));;
            ret (Some (Js.join (trim_edges texts)))) proto)
  /\ (forall first middle final,
         trim_edges (first :: middle ++ [final])
         = (trimLeadingZeros <$> first) :: middle ++ [trimTrailingZeros <$> final])
  /\ (forall t, trim_edges [t] = [trimTrailingZeros <$> (trimLeadingZeros <$> t)])
  /\ (forall entityMap type depth data proto,
         clean_on proto 0 7 ->
         getBlockContentMarkdown (mkBlock type "  mid  " depth [] [] data) entityMap proto
         = Ok (Some "&nbsp;&nbsp;mid&nbsp;&nbsp;", proto)).
Proof.
  split; [|split; [|split; [|split]]].
  - intros s. split; [apply trimLeadingZeros_replaced|apply trimTrailingZeros_replaced].
  - intros block entityMap proto. apply getBlockContentMarkdown_sections.
  - intros first middle final. apply trim_edges_many.
  - apply trim_edges_one.
  - intros entityMap type depth data proto Hclean.
    rewrite getBlockContentMarkdown_plain by (first [reflexivity | exact Hclean]).
    reflexivity.
Qed.

(** C8, as the code has it: a block without inline style ranges and without
    entity ranges, whose type names nothing that the table of symbols
    inherits, renders as the prefix of its type, then its text escaped
    character by character with the blanks at its leading and at its
    trailing end replaced by [&nbsp;], inside the style span when the block
    has style data, then the line terminator ([Object.prototype] holding no
    offset of the text, as in a fresh realm). *)
Theorem plain_block_markdown (block : Block) (entityMap : gmap Z Entity)
    (proto : ObjectPrototype) :
  block_inlineStyleRanges block = [] ->
  block_entityRanges block = [] ->
  clean_on proto 0 (text_length block) ->
  (block_type block ∉ prototype_names) ->
  ~ names_index proto (block_type block) ->
  getBlockMarkdown block entityMap proto
  = Ok (block_prefix block
        +:+ block_style_span (block_data block)
              (trimTrailingZeros (trimLeadingZeros (escape_text (block_text block))))
        +:+ String newline "",
        proto).
Proof.
  intros Hstyles Hentities Hclean Hnames Hindex. unfold getBlockMarkdown.
  unfold bind, get_prototype.
  rewrite (getBlockContentMarkdown_plain block entityMap proto Hstyles Hentities Hclean).
  unfold ret. f_equal. f_equal.
  rewrite join_cons, (symbol_text_prefix _ _ Hnames Hindex).
  unfold getBlockStyleProperty, block_style_span.
  destruct (String.eqb (getBlockStyle (block_data block)) "");
    cbn [Js.join fold_right Js.tpl]; rewrite ?sapp_nil_r; reflexivity.
Qed.

End BlockContent.

(** * Concrete blocks *)

Section Examples.

(** The examples run in a fresh realm: [Object.prototype] holds nothing. *)
Lemma clean_on_fresh (a b : Z) : clean_on ∅ a b.
Proof. intros i _. apply not_elem_of_empty. Qed.

(** C2: with the text [abcd] and one entity range over [[2,3)], the sections
    are [[0,1)], [[2,3)] and [[3,4)]: offset 1 is in none of them, and the
    character [b] is missing from the content. *)
Theorem entity_gap_drops_character :
  getEntitySections (block_entityRanges gap_block) (text_length gap_block)
  = [mkEntitySection 0 1 None; mkEntitySection 2 3 (Some 0); mkEntitySection 3 4 None]
  /\ Forall (fun section => ~ (sec_start section <= 1 < sec_end section))
            (getEntitySections (block_entityRanges gap_block) (text_length gap_block))
  /\ getBlockContentMarkdown gap_block link_map ∅ = Ok (Some "a[c](u)d", ∅).
Proof.
  split; [reflexivity|]. split; [|vm_compute; reflexivity].
  repeat constructor; simpl; lia.
Qed.

(** The content of an atomic block is the entity markup of its first range,
    asked for without a text. *)
Lemma getBlockContentMarkdown_atomic (block : Block) (entityMap : gmap Z Entity)
    (r : EntityRange) (rs : list EntityRange) (proto : ObjectPrototype) :
  isAtomicBlock block = true -> block_entityRanges block = r :: rs ->
  getBlockContentMarkdown block entityMap proto
  = lift (getEntityMarkdown proto entityMap (er_key r) None) proto.
Proof.
  intros Hatomic Hranges. unfold getBlockContentMarkdown.
  rewrite Hatomic, Hranges. reflexivity.
Qed.

(** C3: the atomic block of section 8 renders an IMAGE entity as [!(a.png)];
    for a LINK entity with url [u] the text slot is not empty: the call
    passes no text, and the content is [[undefined](u)], where the entity
    markup of the empty text is [[](u)].  This is so whatever
    [Object.prototype] holds. *)
Theorem atomic_link_undefined_text :
  isAtomicBlock atomic_block = true
  /\ (forall proto,
         getBlockContentMarkdown atomic_block image_map proto
         = Ok (Some "!(a.png)", proto))
  /\ (forall proto,
         getBlockContentMarkdown atomic_block link_map proto
         = Ok (Some "[undefined](u)", proto))
  /\ (forall proto, getEntityMarkdown proto link_map 0 (Some "") = Ok (Some "[](u)")).
Proof.
  split; [reflexivity|]. split; [|split]; intros proto.
  - rewrite (getBlockContentMarkdown_atomic _ _ (mkEntityRange 0 0 0) []) by reflexivity.
    reflexivity.
  - rewrite (getBlockContentMarkdown_atomic _ _ (mkEntityRange 0 0 0) []) by reflexivity.
    reflexivity.
  - reflexivity.
Qed.

(** C4: in the block [ab] whose first character is an entity with key 0, not
    in the map, and is covered by a range tagged [__proto__], building the
    style arrays puts the index 0 on [Object.prototype]; the lookup of the
    key then finds the inherited [true] instead of failing, and the block
    renders, with every style on its first character, where a block with a
    missing key throws. *)
Theorem entity_lookup_inherited :
  block_entityRanges prototype_key_block = [mkEntityRange 0 0 1]
  /\ (∅ : gmap Z Entity) !! 0 = None
  /\ getStyleArrayForBlock prototype_key_block ∅ = Ok (no_styles 2, {[0]})
  /\ getEntityMarkdown {[0]} ∅ 0 (Some "a") = Ok (Some "a")
  /\ getBlockContentMarkdown prototype_key_block ∅ ∅
     = Ok (Some ("***__~~`<sup><sub><span style=" +:+ String dquote
                 "color: true;background-color: true;font-size: true;font-family: true;"
                 +:+ String dquote ">a</span></sub></sup>`~~__***b"),
           {[0]})
  /\ getBlockContentMarkdown missing_key_block ∅ ∅ = Err TypeError_entity_undefined.
Proof. repeat split; vm_compute; reflexivity. Qed.

(** The lookup on concrete blocks: a block with a range whose key 7 is not
    in the map, the atomic block with an empty map, and a block whose key is
    in the map. *)
Lemma entity_lookup_throws_witness :
  (exists e, getBlockContentMarkdown missing_key_block link_map ∅ = Err e)
  /\ getBlockContentMarkdown atomic_block ∅ ∅ = Err TypeError_entity_undefined
  /\ getBlockContentMarkdown gap_block link_map ∅ <> Err TypeError_entity_undefined.
Proof.
  split; [|split].
  - apply (proj1 (proj2 (proj2 (entity_lookup_throws missing_key_block link_map ∅)))
             (mkEntityRange 7 0 1)).
    + reflexivity.
    + apply list_elem_of_here.
    + reflexivity.
    + apply not_elem_of_empty.
    + apply not_elem_of_empty.
  - rewrite (proj1 (proj2 (entity_lookup_throws atomic_block ∅ ∅))
               (mkEntityRange 0 0 0) []) by reflexivity.
    reflexivity.
  - apply (proj2 (proj2 (proj2 (proj2 (entity_lookup_throws gap_block link_map ∅))))).
    intros r Hr. apply list_elem_of_singleton in Hr. subst r.
    exists (mkEntity "LINK" (mkEntityData (Some "u") None)). reflexivity.
Defined.

(** C5 as stated fails: in the run of a block with BOLD and UNDERLINE over
    its one character, UNDERLINE is applied first and BOLD is outermost; the
    content is not [__**x**__]. *)
Lemma toggle_order_counterexample :
  getStyleSections bold_underline_block toggle_keys 0 1 ∅
  = Ok ([mkStyleSection [(UNDERLINE, VTrue); (BOLD, VTrue)] [Some (EChar "x")] 0 1], ∅)
  /\ getStyleTagSectionMarkdown [(UNDERLINE, VTrue); (BOLD, VTrue)] "x" = "**__x__**"
  /\ getStyleTagSectionMarkdown [(UNDERLINE, VTrue); (BOLD, VTrue)] "x" <> "__**x**__"
  /\ getBlockContentMarkdown bold_underline_block ∅ ∅ <> Ok (Some "__**x**__", ∅).
Proof. repeat split; vm_compute; first [reflexivity | discriminate]. Qed.

(** C5, as the code has it, on arrays with BOLD and UNDERLINE at offset 0. *)
Lemma toggle_markup_order_witness :
  getStyleTagSectionMarkdown
    (getStylesAtOffset ∅
       (set_slot (set_slot (no_styles 1) BOLD 0 VTrue) UNDERLINE 0 VTrue) 0) "x"
  = "**__" +:+ "x" +:+ "__**".
Proof.
  apply (proj2 (toggle_markup_order ∅
                  (set_slot (set_slot (no_styles 1) BOLD 0 VTrue) UNDERLINE 0 VTrue)
                  0 "x")).
  - reflexivity.
  - reflexivity.
  - intros k Hk Hbold Hunder. unfold toggle_keys in Hk.
    repeat (apply elem_of_cons in Hk as [->|Hk]; [first [reflexivity|contradiction]|]).
    apply elem_of_nil in Hk. contradiction.
Defined.

(** C6 on the text [abcdefgh]: the three runs, and the starts of the runs
    of [[1,6)] over BOLD alone. *)
Lemma getStyleSections_runs_witness :
  getStyleSections bold_italic_block toggle_keys 0 7 ∅
  = Ok ([ mkStyleSection [(BOLD, VTrue)] [Some (EChar "a"); Some (EChar "b")] 0 2;
          mkStyleSection [(ITALIC, VTrue); (BOLD, VTrue)]
                         [Some (EChar "c"); Some (EChar "d"); Some (EChar "e")] 2 5;
          mkStyleSection [(ITALIC, VTrue)] [Some (EChar "f"); Some (EChar "g")] 5 7 ],
        ∅)
  /\ exists inlineStyles proto' sections,
       getStyleArrayForBlock bold_italic_block ∅ = Ok (inlineStyles, proto')
       /\ getStyleSections bold_italic_block [BOLD] 1 6 ∅
          = Ok (sections, if 0 <? text_length bold_italic_block then proto' else ∅)
       /\ forall i,
            i ∈ map ss_start sections
            <-> 1 <= i < 6
                /\ (i = 1
                    \/ exists k, k ∈ [BOLD]
                                 /\ array_get proto' (style_array inlineStyles k) i
                                    <> array_get proto' (style_array inlineStyles k)
                                                 (i - 1)).
Proof.
  split.
  - apply (proj1 (getStyleSections_runs bold_italic_block ∅)).
    + vm_compute. discriminate.
    + reflexivity.
    + apply clean_on_fresh.
  - apply (proj2 (getStyleSections_runs bold_italic_block ∅)).
    + apply first_error_none. reflexivity.
    + lia.
    + vm_compute. discriminate.
Defined.

(** C7 on the block [abcd] with a link: its content is the join of its
    section texts, trimmed at the two edges. *)
Lemma whitespace_edges_witness :
  getBlockContentMarkdown gap_block link_map ∅
  = (texts <- mapM (getEntitySectionMarkdown gap_block link_map)
                   (getEntitySections (block_entityRanges gap_block)
                                      (text_length gap_block));;
     ret (Some (Js.join (trim_edges texts)))) ∅
  /\ getBlockContentMarkdown (mkBlock "unstyled" "  mid  " 0 [] [] []) ∅ ∅
     = Ok (Some "&nbsp;&nbsp;mid&nbsp;&nbsp;", ∅).
Proof.
  split.
  - apply (proj1 (proj2 whitespace_edges) gap_block link_map ∅). reflexivity.
  - apply (proj2 (proj2 (proj2 (proj2 whitespace_edges)))). apply clean_on_fresh.
Defined.

(** C8 as stated fails: for a block without ranges whose text begins with a
    blank, the output is not the prefix, the escaped text and the
    terminator, and neither is it for a block with style data. *)
Lemma plain_block_counterexample :
  block_inlineStyleRanges leading_blank_block = []
  /\ block_entityRanges leading_blank_block = []
  /\ getBlockMarkdown leading_blank_block ∅ ∅ = Ok ("&nbsp;a" +:+ String newline "", ∅)
  /\ getBlockMarkdown leading_blank_block ∅ ∅
     <> Ok (block_prefix leading_blank_block
            +:+ escape_text (block_text leading_blank_block) +:+ String newline "", ∅)
  /\ block_inlineStyleRanges centered_block = []
  /\ block_entityRanges centered_block = []
  /\ getBlockMarkdown centered_block ∅ ∅
     = Ok ("<span style=" +:+ String dquote "text-align:center;" +:+ String dquote
           ">hi</span>" +:+ String newline "", ∅)
  /\ getBlockMarkdown centered_block ∅ ∅
     <> Ok (block_prefix centered_block
            +:+ escape_text (block_text centered_block) +:+ String newline "", ∅).
Proof. repeat split; vm_compute; first [reflexivity | discriminate]. Qed.

(** C8, as the code has it, on the first of these blocks. *)
Lemma plain_block_markdown_witness :
  getBlockMarkdown leading_blank_block ∅ ∅
  = Ok (block_prefix leading_blank_block
        +:+ block_style_span (block_data leading_blank_block)
              (trimTrailingZeros
                 (trimLeadingZeros (escape_text (block_text leading_blank_block))))
        +:+ String newline "",
        ∅).
Proof.
  apply (plain_block_markdown leading_blank_block ∅ ∅).
  - reflexivity.
  - reflexivity.
  - apply clean_on_fresh.
  - unfold prototype_names. intros Hin. apply list_elem_of_In in Hin. simpl in Hin.
    repeat (destruct Hin as [Hin|Hin]; [discriminate|]). contradiction.
  - apply names_index_empty.
Defined.


End Examples.

(** * More on the run splitter *)

Section Runs.

(** X4: [sameStyleAsPrevious] answers [true] exactly at an index inside the
    text, after its first offset, at which every listed key has the value it
    has at the offset before. *)
Theorem sameStyleAsPrevious_true (proto : ObjectPrototype) (inlineStyles : InlineStyles)
    (styles : list StyleKey) (index : Z) :
  sameStyleAsPrevious proto inlineStyles styles index = true
  <-> 0 < index < styles_length inlineStyles
      /\ forall k, k ∈ styles ->
                   array_get proto (style_array inlineStyles k) index
                   = array_get proto (style_array inlineStyles k) (index - 1).
Proof.
  unfold sameStyleAsPrevious.
  destruct (Z.ltb_spec 0 index) as [Hlo|Hlo];
    destruct (Z.ltb_spec index (styles_length inlineStyles)) as [Hhi|Hhi]; simpl;
    try (split; [discriminate|intros [? _]; lia]).
  rewrite fold_same_slots. simpl. rewrite forallb_forall. split.
  - intros Hall. split; [lia|]. intros k Hk.
    apply list_elem_of_In, Hall in Hk. apply bool_decide_eq_true in Hk. exact Hk.
  - intros [_ Hall] k Hk. apply bool_decide_eq_true, Hall, list_elem_of_In, Hk.
Qed.

Section Step.

Context (proto : ObjectPrototype) (text : string) (inlineStyles : InlineStyles)
        (styles : list StyleKey) (start : Z).

Lemma styleSections_step_ok (acc : list StyleSection) (i : Z) :
  tiles start i acc ->
  Forall (run_ok proto text inlineStyles styles) acc ->
  Forall (run_ok proto text inlineStyles styles)
         (styleSections_step proto text inlineStyles styles start acc i).
Proof.
  intros Htiles Hacc. unfold styleSections_step.
  assert (Hnew : run_ok proto text inlineStyles styles
                   (mkStyleSection (getStylesAtOffset proto inlineStyles i)
                                   [text_get proto text i] i (i + 1))).
  { split; [reflexivity|]. split.
    - cbn [ss_text ss_start ss_end]. replace (i + 1 - i) with 1 by lia. reflexivity.
    - cbn [ss_start ss_end]. intros j k Hj. lia. }
  destruct (negb (i =? start)) eqn:Hstart; cbn [andb];
    [|apply Forall_app; split; [assumption|constructor; [assumption|constructor]]].
  destruct (sameStyleAsPrevious proto inlineStyles styles i) eqn:Hsame;
    [|apply Forall_app; split; [assumption|constructor; [assumption|constructor]]].
  destruct acc as [|x acc _] using rev_ind.
  - simpl in Htiles. apply negb_true_iff, Z.eqb_neq in Hstart. congruence.
  - rewrite alter_last_snoc. apply tiles_snoc in Htiles as (_ & Hlt & Hend).
    apply Forall_app in Hacc as [Hacc Hx]. apply Forall_app. split; [assumption|].
    constructor; [|constructor].
    apply Forall_inv in Hx. destruct Hx as (Hstyles & Htext & Hconst).
    split; [exact Hstyles|]. cbn [ss_text ss_start ss_end]. split.
    + rewrite Htext, Hend.
      replace (i + 1 - ss_start x) with ((i - ss_start x) + 1) by lia.
      rewrite seqZ_app by lia. rewrite map_app.
      replace (ss_start x + (i - ss_start x)) with i by lia. reflexivity.
    + intros j k Hj Hk. destruct (decide (j = i)) as [->|Hne].
      * apply sameStyleAsPrevious_true in Hsame as [_ Hall]. apply Hall, Hk.
      * apply Hconst; [lia|exact Hk].
Qed.

Lemma styleSections_fold_ok (n : nat) :
  forall (a : Z) (acc : list StyleSection),
    tiles start a acc ->
    Forall (run_ok proto text inlineStyles styles) acc ->
    Forall (run_ok proto text inlineStyles styles)
           (fold_left (styleSections_step proto text inlineStyles styles start)
                      (seqZ a (Z.of_nat n)) acc).
Proof.
  induction n as [|n IH]; intros a acc Htiles Hacc; [exact Hacc|].
  rewrite seqZ_cons by lia. cbn [fold_left].
  replace (Z.pred (Z.of_nat (S n))) with (Z.of_nat n) by lia.
  apply IH.
  - apply styleSections_step_tiles. exact Htiles.
  - apply styleSections_step_ok; assumption.
Qed.

End Step.

Lemma run_ok_constant (proto : ObjectPrototype) (text : string)
    (inlineStyles : InlineStyles) (styles : list StyleKey) (section : StyleSection)
    (k : StyleKey) (j : Z) :
  run_ok proto text inlineStyles styles section -> k ∈ styles ->
  ss_start section <= j < ss_end section ->
  array_get proto (style_array inlineStyles k) j
  = array_get proto (style_array inlineStyles k) (ss_start section).
Proof.
  intros (_ & _ & Hconst) Hk Hj.
  replace j with (ss_start section + Z.of_nat (Z.to_nat (j - ss_start section))) by lia.
  assert (Hd : ss_start section + Z.of_nat (Z.to_nat (j - ss_start section))
               < ss_end section) by lia.
  induction (Z.to_nat (j - ss_start section)) as [|d IH].
  - rewrite Z.add_0_r. reflexivity.
  - rewrite Hconst by (try assumption; lia).
    replace (ss_start section + Z.of_nat (S d) - 1)
      with (ss_start section + Z.of_nat d) by lia.
    apply IH. lia.
Qed.

Lemma tiles_le (a b : Z) (sections : list StyleSection) : tiles a b sections -> a <= b.
Proof.
  revert a. induction sections as [|s l IH]; intros a; simpl; [lia|].
  intros (_ & Hlt & Hrest). apply IH in Hrest. lia.
Qed.

Lemma run_texts_joined (proto : ObjectPrototype) (text : string)
    (inlineStyles : InlineStyles) (styles : list StyleKey)
    (sections : list StyleSection) :
  forall a b,
    tiles a b sections -> Forall (run_ok proto text inlineStyles styles) sections ->
    List.concat (map ss_text sections) = map (text_get proto text) (seqZ a (b - a)).
Proof.
  induction sections as [|s l IH]; intros a b Htiles Hok.
  - simpl in Htiles. subst b. rewrite Z.sub_diag. reflexivity.
  - simpl in Htiles. destruct Htiles as (Hs & Hlt & Hrest).
    apply Forall_cons in Hok as [(_ & Htext & _) Hl].
    pose proof (tiles_le _ _ _ Hrest) as Hle.
    cbn [map List.concat]. rewrite (IH _ _ Hrest Hl), Htext, Hs.
    replace (b - a) with ((ss_end s - a) + (b - ss_end s)) by lia.
    rewrite seqZ_app, map_app by lia.
    replace (a + (ss_end s - a)) with (ss_end s) by lia.
    replace (ss_end s - a + (b - ss_end s) - (ss_end s - a)) with (b - ss_end s) by lia.
    reflexivity.
Qed.

Lemma getStyleSections_ok (block : Block) (styles : list StyleKey) (start end_ : Z)
    (inlineStyles : InlineStyles) (proto proto' : ObjectPrototype) :
  getStyleArrayForBlock block proto = Ok (inlineStyles, proto') ->
  0 < text_length block -> start <= end_ ->
  exists sections,
    getStyleSections block styles start end_ proto = Ok (sections, proto')
    /\ tiles start end_ sections
    /\ Forall (run_ok proto' (block_text block) inlineStyles styles) sections.
Proof.
  intros Harrays Htext Hrange. eexists. split; [|split].
  - apply getStyleSections_fold; eassumption.
  - apply (getStyleSections_tiles block styles start end_ proto proto'); [assumption..|].
    apply getStyleSections_fold; assumption.
  - replace (end_ - start) with (Z.of_nat (Z.to_nat (end_ - start))) by lia.
    apply styleSections_fold_ok; [reflexivity|constructor].
Qed.

(** X1: whatever the inline style ranges, the runs that [getStyleSections]
    returns for [[start, end)] tile it: the first begins at [start], each
    begins where the one before ends, none is empty, the last ends at
    [end]. *)
Theorem getStyleSections_partition (block : Block) (styles : list StyleKey)
    (start end_ : Z) (inlineStyles : InlineStyles) (proto proto' : ObjectPrototype) :
  getStyleArrayForBlock block proto = Ok (inlineStyles, proto') ->
  0 < text_length block -> start <= end_ ->
  exists sections,
    getStyleSections block styles start end_ proto = Ok (sections, proto')
    /\ tiles start end_ sections.
Proof.
  intros Harrays Htext Hrange.
  destruct (getStyleSections_ok block styles start end_ inlineStyles proto proto')
    as (sections & Hs & Htiles & _); [assumption..|].
  exists sections. split; assumption.
Qed.

(** X2: every run carries the styles found at its first offset and, as its
    text, the characters [text[i]] of its own interval; joined in order, the
    texts of the runs are the characters of [[start, end)], none lost and
    none repeated. *)
Theorem getStyleSections_contents (block : Block) (styles : list StyleKey)
    (start end_ : Z) (inlineStyles : InlineStyles) (proto proto' : ObjectPrototype) :
  getStyleArrayForBlock block proto = Ok (inlineStyles, proto') ->
  0 < text_length block -> start <= end_ ->
  exists sections,
    getStyleSections block styles start end_ proto = Ok (sections, proto')
    /\ Forall (fun section =>
                 ss_styles section = getStylesAtOffset proto' inlineStyles (ss_start section)
                 /\ ss_text section
                    = map (text_get proto' (block_text block))
                          (seqZ (ss_start section) (ss_end section - ss_start section)))
              sections
    /\ List.concat (map ss_text sections)
       = map (text_get proto' (block_text block)) (seqZ start (end_ - start)).
Proof.
  intros Harrays Htext Hrange.
  destruct (getStyleSections_ok block styles start end_ inlineStyles proto proto')
    as (sections & Hs & Htiles & Hok); [assumption..|].
  exists sections. split; [assumption|]. split.
  - eapply Forall_impl; [exact Hok|]. intros s (H1 & H2 & _). split; assumption.
  - eapply run_texts_joined; eassumption.
Qed.

(** X3: inside a run every selected key has one value: at each offset of the
    run the slot of the key is the slot at the first offset of the run. *)
Theorem getStyleSections_constant (block : Block) (styles : list StyleKey)
    (start end_ : Z) (inlineStyles : InlineStyles) (proto proto' : ObjectPrototype) :
  getStyleArrayForBlock block proto = Ok (inlineStyles, proto') ->
  0 < text_length block -> start <= end_ ->
  exists sections,
    getStyleSections block styles start end_ proto = Ok (sections, proto')
    /\ forall section k j,
         section ∈ sections -> k ∈ styles ->
         ss_start section <= j < ss_end section ->
         array_get proto' (style_array inlineStyles k) j
         = array_get proto' (style_array inlineStyles k) (ss_start section).
Proof.
  intros Harrays Htext Hrange.
  destruct (getStyleSections_ok block styles start end_ inlineStyles proto proto')
    as (sections & Hs & _ & Hok); [assumption..|].
  exists sections. split; [assumption|].
  intros section k j Hsection Hk Hj.
  rewrite Forall_forall in Hok.
  eapply run_ok_constant; [apply Hok; exact Hsection|assumption..].
Qed.

End Runs.


(** * The styles object *)

Section StylesObject.

Lemma styles_get_snoc (k k' : StyleKey) (v : slot) (styles : Styles) :
  styles_get k (styles ++ [(k', v)])
  = match styles_get k styles with
    | Some x => Some x
    | None => if decide (k' = k) then Some v else None
    end.
Proof.
  induction styles as [|[k'' v''] styles IH]; simpl; [reflexivity|].
  destruct (decide (k'' = k)); [reflexivity|exact IH].
Qed.

Lemma styles_get_copy_slot (proto : ObjectPrototype) (inlineStyles : InlineStyles)
    (offset : Z) (k k' : StyleKey)
    (styles : Styles) :
  styles_get k (copy_slot proto inlineStyles offset k' styles)
  = match styles_get k styles with
    | Some x => Some x
    | None =>
        if decide (k' = k)
        then if truthy (array_get proto (style_array inlineStyles k') offset)
             then array_get proto (style_array inlineStyles k') offset else None
        else None
    end.
Proof.
  unfold copy_slot.
  destruct (array_get proto (style_array inlineStyles k') offset) as [v|] eqn:Hv.
  - destruct (truthy (Some v)); [apply styles_get_snoc|].
    destruct (styles_get k styles); [reflexivity|]. destruct (decide (k' = k)); reflexivity.
  - simpl. destruct (styles_get k styles); [reflexivity|].
    destruct (decide (k' = k)); reflexivity.
Qed.

Lemma styles_get_flag_slot (proto : ObjectPrototype) (inlineStyles : InlineStyles)
    (offset : Z) (k k' : StyleKey)
    (styles : Styles) :
  styles_get k (flag_slot proto inlineStyles offset k' styles)
  = match styles_get k styles with
    | Some x => Some x
    | None =>
        if decide (k' = k)
        then if truthy (array_get proto (style_array inlineStyles k') offset)
             then Some VTrue else None
        else None
    end.
Proof.
  unfold flag_slot. destruct (truthy (array_get proto (style_array inlineStyles k') offset)).
  - apply styles_get_snoc.
  - destruct (styles_get k styles); [reflexivity|]. destruct (decide (k' = k)); reflexivity.
Qed.

Lemma keys_copy_slot (proto : ObjectPrototype) (inlineStyles : InlineStyles) (offset : Z)
    (k : StyleKey)
    (styles : Styles) :
  map fst (copy_slot proto inlineStyles offset k styles)
  = map fst styles
    ++ (if truthy (array_get proto (style_array inlineStyles k) offset) then [k] else []).
Proof.
  unfold copy_slot. destruct (array_get proto (style_array inlineStyles k) offset) as [v|].
  - destruct (truthy (Some v)); [rewrite map_app; reflexivity|].
    rewrite List.app_nil_r. reflexivity.
  - simpl. rewrite List.app_nil_r. reflexivity.
Qed.

Lemma keys_flag_slot (proto : ObjectPrototype) (inlineStyles : InlineStyles) (offset : Z)
    (k : StyleKey)
    (styles : Styles) :
  map fst (flag_slot proto inlineStyles offset k styles)
  = map fst styles
    ++ (if truthy (array_get proto (style_array inlineStyles k) offset) then [k] else []).
Proof.
  unfold flag_slot. destruct (truthy (array_get proto (style_array inlineStyles k) offset)).
  - rewrite map_app. reflexivity.
  - rewrite List.app_nil_r. reflexivity.
Qed.

Lemma filter_cons_app {A : Type} (p : A -> bool) (x : A) (l : list A) :
  List.filter p (x :: l) = (if p x then [x] else []) ++ List.filter p l.
Proof. simpl. destruct (p x); reflexivity. Qed.

Lemma getStylesAtOffset_fst (proto : ObjectPrototype) (inlineStyles : InlineStyles)
    (offset : Z) :
  map fst (getStylesAtOffset proto inlineStyles offset)
  = List.filter (fun k => truthy (array_get proto (style_array inlineStyles k) offset))
                all_keys.
Proof.
  unfold getStylesAtOffset, all_keys.
  rewrite !keys_flag_slot, !keys_copy_slot, !filter_cons_app.
  simpl List.filter. rewrite List.app_nil_r, <- !List.app_assoc. reflexivity.
Qed.

Lemma getStylesAtOffset_get (proto : ObjectPrototype) (inlineStyles : InlineStyles)
    (offset : Z) (k : StyleKey) :
  styles_get k (getStylesAtOffset proto inlineStyles offset)
  = style_at proto inlineStyles offset k.
Proof.
  unfold getStylesAtOffset, style_at.
  rewrite !styles_get_flag_slot, !styles_get_copy_slot. cbn [styles_get].
  destruct k; simpl;
    (destruct (array_get proto (style_array inlineStyles _) offset) as [v|];
     [destruct (truthy (Some v))|]; reflexivity).
Qed.

(** X5: the styles object built at an offset has exactly the keys whose slot
    is truthy there, in the fixed order COLOR, BGCOLOR, FONTSIZE, FONTFAMILY,
    SUBSCRIPT, SUPERSCRIPT, CODE, STRIKETHROUGH, UNDERLINE, ITALIC, BOLD, each
    once; a property key maps to its slot, a toggle key to [true]. *)
Theorem getStylesAtOffset_keys (proto : ObjectPrototype) (inlineStyles : InlineStyles)
    (offset : Z) :
  map fst (getStylesAtOffset proto inlineStyles offset)
  = List.filter (fun k => truthy (array_get proto (style_array inlineStyles k) offset)) all_keys
  /\ forall k, styles_get k (getStylesAtOffset proto inlineStyles offset)
               = style_at proto inlineStyles offset k.
Proof. split; [apply getStylesAtOffset_fst|apply getStylesAtOffset_get]. Qed.

Lemma style_at_property (proto : ObjectPrototype) (inlineStyles : InlineStyles)
    (offset : Z) (k : StyleKey) :
  k ∈ property_keys ->
  style_at proto inlineStyles offset k
  = if truthy (array_get proto (style_array inlineStyles k) offset)
    then array_get proto (style_array inlineStyles k) offset else None.
Proof.
  intros Hk. unfold style_at. rewrite bool_decide_eq_true_2 by exact Hk. reflexivity.
Qed.

(** X6: a run whose styles were read at [offset] renders as its escaped text
    alone when none of the four property slots is truthy there; otherwise
    the escaped text is inside one span whose style attribute lists [color],
    [background-color], [font-size] and [font-family], in this order, for the
    truthy slots only.  The toggle slots play no part. *)
Theorem addStylePropertyMarkdown_at (proto : ObjectPrototype)
    (inlineStyles : InlineStyles) (offset : Z)
    (text : list (option element)) (start end_ : Z) :
  addStylePropertyMarkdown
    (mkStyleSection (getStylesAtOffset proto inlineStyles offset) text start end_)
  = if existsb (fun k => truthy (array_get proto (style_array inlineStyles k) offset))
               property_keys
    then "<span style=" +:+ String dquote EmptyString
         +:+ declaration proto inlineStyles offset COLOR "color"
         +:+ declaration proto inlineStyles offset BGCOLOR "background-color"
         +:+ declaration proto inlineStyles offset FONTSIZE "font-size"
         +:+ declaration proto inlineStyles offset FONTFAMILY "font-family"
         +:+ String dquote EmptyString +:+ ">" +:+ getSectionText text +:+ "</span>"
    else getSectionText text.
Proof.
  unfold addStylePropertyMarkdown, declaration. cbn [ss_styles ss_text].
  rewrite !getStylesAtOffset_get.
  rewrite !style_at_property by (unfold property_keys; set_solver).
  cbn [existsb property_keys].
  generalize (getSectionText text). intros content.
  destruct (array_get proto (style_array inlineStyles COLOR) offset) as [c|];
    [destruct (truthy (Some c)) eqn:Hc|];
    (destruct (array_get proto (style_array inlineStyles BGCOLOR) offset) as [b|];
     [destruct (truthy (Some b)) eqn:Hb|]);
    (destruct (array_get proto (style_array inlineStyles FONTSIZE) offset) as [s|];
     [destruct (truthy (Some s)) eqn:Hs|]);
    (destruct (array_get proto (style_array inlineStyles FONTFAMILY) offset) as [f|];
     [destruct (truthy (Some f)) eqn:Hf|]);
    rewrite ?Hc, ?Hb, ?Hs, ?Hf; cbn [truthy orb];
    rewrite ?sapp_assoc, ?sapp_nil_r; reflexivity.
Qed.

End StylesObject.


(** * More on the entity sectioner *)

Section EntityCoverage.

Lemma entitySections_fold_from (rs : list EntityRange) :
  forall (acc : list EntitySection) (prev : Z),
    fold_left entitySections_step rs (acc, prev)
    = (acc ++ sections_from prev rs, end_from prev rs).
Proof.
  induction rs as [|r rs IH]; intros acc prev.
  - simpl. rewrite List.app_nil_r. reflexivity.
  - cbn [fold_left sections_from end_from].
    rewrite entitySections_step_eq, IH, <- !List.app_assoc. reflexivity.
Qed.

Lemma getEntitySections_from (rs : list EntityRange) (blockLength : Z) :
  getEntitySections rs blockLength
  = sections_from 0 rs ++ final_section (end_from 0 rs) blockLength.
Proof.
  unfold getEntitySections, final_section. rewrite entitySections_fold_from.
  cbn [app]. destruct (end_from 0 rs <? blockLength); [reflexivity|].
  rewrite List.app_nil_r. reflexivity.
Qed.

Lemma cover_count_app (j : Z) (l1 l2 : list EntitySection) :
  cover_count j (l1 ++ l2) = (cover_count j l1 + cover_count j l2)%nat.
Proof. unfold cover_count. rewrite List.filter_app, List.length_app. reflexivity. Qed.

Lemma cover_count_cons (j : Z) (section : EntitySection) (l : list EntitySection) :
  cover_count j (section :: l) = (cover_count j [section] + cover_count j l)%nat.
Proof. apply (cover_count_app j [section] l). Qed.

Lemma cover_count_one (j a b : Z) (key : option Z) :
  cover_count j [mkEntitySection a b key] = if (a <=? j) && (j <? b) then 1%nat else 0%nat.
Proof. unfold cover_count, covers. simpl. destruct ((a <=? j) && (j <? b)); reflexivity. Qed.

Lemma cover_count_gap (j prev : Z) (r : EntityRange) :
  cover_count j (gap_section prev r)
  = if (prev <=? j) && (j <? er_offset r - 1) then 1%nat else 0%nat.
Proof.
  unfold gap_section. destruct (Z.ltb_spec prev (er_offset r)).
  - apply cover_count_one.
  - destruct (Z.leb_spec prev j); destruct (Z.ltb_spec j (er_offset r - 1));
      simpl; try reflexivity; lia.
Qed.

Lemma cover_count_final (j last blockLength : Z) :
  cover_count j (final_section last blockLength)
  = if (last <=? j) && (j <? blockLength) then 1%nat else 0%nat.
Proof.
  unfold final_section. destruct (Z.ltb_spec last blockLength).
  - apply cover_count_one.
  - destruct (Z.leb_spec last j); destruct (Z.ltb_spec j blockLength);
      simpl; try reflexivity; lia.
Qed.

Lemma end_from_ge (rs : list EntityRange) :
  forall prev, ranges_sorted prev rs -> prev <= end_from prev rs.
Proof.
  induction rs as [|r rs IH]; intros prev Hs; simpl in *; [lia|].
  destruct Hs as (Hoff & Hlen & Hrest). apply IH in Hrest. lia.
Qed.

(** Before the coverage so far, the sections still to come cover nothing and
    have no seam. *)
Lemma cover_count_before (blockLength j : Z) (rs : list EntityRange) :
  forall prev,
    ranges_sorted prev rs -> j < prev ->
    cover_count j (sections_from prev rs ++ final_section (end_from prev rs) blockLength)
    = 0%nat
    /\ gap_seam prev j rs = false.
Proof.
  induction rs as [|r rs IH]; intros prev Hs Hj.
  - simpl. rewrite cover_count_final. split; [|reflexivity].
    destruct (Z.leb_spec prev j); [lia|reflexivity].
  - simpl in Hs. destruct Hs as (Hoff & Hlen & Hrest).
    cbn [sections_from end_from gap_seam].
    destruct (IH _ Hrest) as [Hcount Hseam]; [lia|].
    rewrite <- List.app_assoc, cover_count_app, cover_count_gap.
    rewrite <- List.app_comm_cons, cover_count_cons.
    unfold entity_section at 1. rewrite cover_count_one.
    rewrite Hcount, Hseam.
    destruct (Z.leb_spec prev j); [lia|].
    destruct (Z.leb_spec (er_offset r) j); [lia|].
    destruct (Z.ltb_spec prev (er_offset r)); destruct (Z.eqb_spec j (er_offset r - 1));
      simpl; split; try reflexivity; lia.
Qed.

Lemma cover_count_from (blockLength j : Z) (rs : list EntityRange) :
  forall prev,
    ranges_sorted prev rs -> prev <= j < blockLength ->
    cover_count j (sections_from prev rs ++ final_section (end_from prev rs) blockLength)
    = if gap_seam prev j rs then 0%nat else 1%nat.
Proof.
  induction rs as [|r rs IH]; intros prev Hs Hj.
  - simpl. rewrite cover_count_final.
    destruct (Z.leb_spec prev j); destruct (Z.ltb_spec j blockLength);
      simpl; try reflexivity; lia.
  - simpl in Hs. destruct Hs as (Hoff & Hlen & Hrest).
    cbn [sections_from end_from gap_seam].
    rewrite <- List.app_assoc, cover_count_app, cover_count_gap.
    rewrite <- List.app_comm_cons, cover_count_cons.
    unfold entity_section at 1. rewrite cover_count_one.
    destruct (Z_lt_le_dec j (er_offset r + er_length r)) as [Hin|Hout].
    + destruct (cover_count_before blockLength j rs _ Hrest Hin) as [-> ->].
      destruct (Z.leb_spec prev j); [|lia].
      destruct (Z.ltb_spec j (er_offset r - 1)); destruct (Z.leb_spec (er_offset r) j);
        destruct (Z.ltb_spec j (er_offset r + er_length r));
        destruct (Z.ltb_spec prev (er_offset r));
        destruct (Z.eqb_spec j (er_offset r - 1)); simpl; try reflexivity; lia.
    + rewrite (IH _ Hrest) by lia.
      destruct (Z.ltb_spec j (er_offset r - 1)); [lia|].
      destruct (Z.ltb_spec j (er_offset r + er_length r)); [lia|].
      destruct (Z.eqb_spec j (er_offset r - 1)); [lia|].
      rewrite !andb_false_r. reflexivity.
Qed.

(** X7: for entity ranges that are sorted and do not overlap, every offset of
    the text is in one section and in one only, except the last offset of
    each gap before a range (the offset just before a range that begins
    after the coverage so far), which is in none.  No offset is in two
    sections. *)
Theorem getEntitySections_cover (rs : list EntityRange) (blockLength j : Z) :
  ranges_sorted 0 rs -> 0 <= j < blockLength ->
  cover_count j (getEntitySections rs blockLength)
  = if gap_seam 0 j rs then 0%nat else 1%nat.
Proof.
  intros Hs Hj. rewrite getEntitySections_from. apply cover_count_from; assumption.
Qed.

(** X8: whatever the ranges, the entity sections carry the keys of the
    ranges, one section for each range and in the order of the ranges; the
    other sections carry no key. *)
Theorem getEntitySections_keys (rs : list EntityRange) (blockLength : Z) :
  omap sec_entityKey (getEntitySections rs blockLength) = map er_key rs.
Proof.
  rewrite getEntitySections_from, omap_app.
  assert (Hfinal : omap sec_entityKey (final_section (end_from 0 rs) blockLength) = []).
  { unfold final_section. destruct (_ <? _); reflexivity. }
  rewrite Hfinal, List.app_nil_r. clear Hfinal. generalize 0.
  induction rs as [|r rs IH]; intros prev; [reflexivity|].
  cbn [sections_from map]. rewrite omap_app.
  assert (Hgap : omap sec_entityKey (gap_section prev r) = []).
  { unfold gap_section. destruct (_ <? _); reflexivity. }
  rewrite Hgap. unfold entity_section at 1. simpl. rewrite IH. reflexivity.
Qed.

End EntityCoverage.


(** * When the style arrays throw *)

Section ArraysThrow.

(** X9: building the style arrays throws exactly when some range makes it
    throw: a range that covers an offset and whose tag is [length], the text
    not being empty, or is the numeral of an index that [Object.prototype]
    holds when the loop comes to the range, from before or from an earlier
    range tagged [__proto__].  The error is that of such a range, and no
    overlap of ranges plays a part.  Otherwise the builder returns the
    arrays and leaves on [Object.prototype] the offsets of the ranges tagged
    [__proto__]. *)
Theorem getStyleArrayForBlock_throws (block : Block) (proto : ObjectPrototype) :
  ((exists e, getStyleArrayForBlock block proto = Err e)
   <-> some_range_throws (text_length block) proto (block_inlineStyleRanges block))
  /\ (forall e,
         getStyleArrayForBlock block proto = Err e ->
         exists pre r post,
           block_inlineStyleRanges block = pre ++ r :: post
           /\ range_throws (text_length block) (proto ∪ prototype_writes pre) r e)
  /\ (~ some_range_throws (text_length block) proto (block_inlineStyleRanges block) ->
      exists inlineStyles,
        getStyleArrayForBlock block proto
        = Ok (inlineStyles, proto ∪ prototype_writes (block_inlineStyleRanges block))).
Proof.
  rewrite getStyleArrayForBlock_eq.
  destruct (first_error (text_length block) proto (block_inlineStyleRanges block))
    as [e|] eqn:Herror.
  - pose proof (first_error_some _ _ _ _ Herror) as (pre & r & post & Hranges & Hthrows).
    split; [|split].
    + split; [|intros _; exists e; reflexivity].
      intros _. exists pre, r, post, e. split; assumption.
    + intros e' [= <-]. exists pre, r, post. split; assumption.
    + intros Hno. exfalso. apply Hno. exists pre, r, post, e. split; assumption.
  - apply first_error_none in Herror. split; [|split].
    + split; [intros [e [=]]|]. intros Hthrows. contradiction.
    + intros e [=].
    + intros _. eexists. reflexivity.
Qed.

End ArraysThrow.

(** * Escaping *)

Section Escaping.

Lemma join_app (l1 l2 : list (option string)) :
  Js.join (l1 ++ l2) = Js.join l1 +:+ Js.join l2.
Proof.
  unfold Js.join. induction l1 as [|[s|] l1 IH]; simpl; [reflexivity| |exact IH].
  rewrite IH, sapp_assoc. reflexivity.
Qed.

Lemma getSectionText_join (text : list (option element)) :
  getSectionText text = Js.join (map escape_char text).
Proof. unfold getSectionText. destruct text; reflexivity. Qed.

Lemma chars_app (s t : string) :
  list_ascii_of_string (s +:+ t) = list_ascii_of_string s ++ list_ascii_of_string t.
Proof.
  induction s as [|c s IH]; [reflexivity|].
  rewrite sapp_cons. simpl. rewrite IH. reflexivity.
Qed.

Lemma escape_char_no_angle (ch : option element) (s : string) :
  escape_char ch = Some s ->
  Forall (fun c => c <> "<"%char /\ c <> ">"%char) (list_ascii_of_string s).
Proof.
  destruct ch as [[c|]|]; [| |discriminate]; unfold escape_char;
    [|intros [= <-]; repeat constructor; discriminate].
  destruct (Ascii.eqb c newline);
    [intros [= <-]; repeat constructor; discriminate|].
  destruct (Ascii.eqb c "&"); [intros [= <-]; repeat constructor; discriminate|].
  destruct (Ascii.eqb_spec c "<"); [intros [= <-]; repeat constructor; discriminate|].
  destruct (Ascii.eqb_spec c ">"); [intros [= <-]; repeat constructor; discriminate|].
  intros [= <-]. repeat constructor; assumption.
Qed.

(** X10: the text that [getSectionText] returns never holds the character [<]
    nor the character [>], whatever the elements of the section. *)
Theorem getSectionText_no_angle (text : list (option element)) :
  Forall (fun c => c <> "<"%char /\ c <> ">"%char)
         (list_ascii_of_string (getSectionText text)).
Proof.
  rewrite getSectionText_join. unfold Js.join.
  induction text as [|ch text IH]; [constructor|].
  cbn [map fold_right]. destruct (escape_char ch) as [s|] eqn:Hs; [|exact IH].
  rewrite chars_app. apply Forall_app. split; [|exact IH].
  eapply escape_char_no_angle. exact Hs.
Qed.

(** X11: escaping goes character by character: the text of two arrays of
    characters put end to end is the text of the first followed by the text
    of the second; and characters other than the newline, [&], [<] and [>]
    come out as they are. *)
Theorem getSectionText_app :
  (forall text1 text2 : list (option element),
      getSectionText (text1 ++ text2) = getSectionText text1 +:+ getSectionText text2)
  /\ (forall s : string,
         Forall (fun c => c <> newline /\ c <> "&"%char /\ c <> "<"%char /\ c <> ">"%char)
                (list_ascii_of_string s) ->
         getSectionText (map (fun c => Some (EChar c)) (list_ascii_of_string s)) = s).
Proof.
  split.
  - intros text1 text2. rewrite !getSectionText_join, map_app. apply join_app.
  - intros s Hs. rewrite getSectionText_join. unfold Js.join.
    induction s as [|c s IH]; [reflexivity|].
    cbn [list_ascii_of_string] in Hs. apply Forall_cons in Hs as [(Hn & Ha & Hl & Hg) Hs].
    cbn [list_ascii_of_string map fold_right escape_char].
    destruct (Ascii.eqb_spec c newline); [contradiction|].
    destruct (Ascii.eqb_spec c "&"); [contradiction|].
    destruct (Ascii.eqb_spec c "<"); [contradiction|].
    destruct (Ascii.eqb_spec c ">"); [contradiction|].
    rewrite (IH Hs). reflexivity.
Qed.

End Escaping.

(** * Block style and the document *)

Section Document.

Lemma forEach_cons {K V S : Type} (k : K) (v : V) (obj : list (K * V))
    (callback : S -> K -> V -> S) (init : S) :
  forEach ((k, v) :: obj) callback init = forEach obj callback (callback init k v).
Proof. reflexivity. Qed.

Lemma getBlockStyle_from (data : list (string * string)) (styles : string) :
  forEach data (fun styles key value => styles +:+ key +:+ ":" +:+ value +:+ ";") styles
  = styles +:+ getBlockStyle data.
Proof.
  unfold getBlockStyle. revert styles.
  induction data as [|[key value] data IH]; intros styles.
  - unfold forEach. simpl. rewrite sapp_nil_r. reflexivity.
  - rewrite !forEach_cons, IH, (IH ("" +:+ _)).
    rewrite sapp_nil_l, !sapp_assoc. reflexivity.
Qed.

Lemma getBlockStyle_cons (key value : string) (data : list (string * string)) :
  getBlockStyle ((key, value) :: data)
  = key +:+ ":" +:+ value +:+ ";" +:+ getBlockStyle data.
Proof.
  unfold getBlockStyle at 1.
  rewrite forEach_cons, getBlockStyle_from, sapp_nil_l, !sapp_assoc. reflexivity.
Qed.

Lemma getBlockStyle_nonempty (data : list (string * string)) :
  data <> [] -> getBlockStyle data <> "".
Proof.
  destruct data as [|[key value] data]; [congruence|]. intros _.
  rewrite getBlockStyle_cons. intros H. apply (f_equal String.length) in H.
  rewrite !length_sapp in H. simpl in H. lia.
Qed.

(** X12: the style string of a block is made of one declaration [key:value;]
    for each entry of its data, in order; it is empty only for empty data, so
    the content of a block is put in a span exactly when the block has an
    entry in its data, even an entry with an empty key and an empty value. *)
Theorem getBlockStyleProperty_span (data : list (string * string) )
    (content : option string) :
  getBlockStyle data
  = Js.concat (map (fun kv => fst kv +:+ ":" +:+ snd kv +:+ ";") data)
  /\ (data = [] -> getBlockStyleProperty data content = content)
  /\ (data <> [] ->
      getBlockStyle data <> ""
      /\ getBlockStyleProperty data content
         = Some ("<span style=" +:+ String dquote EmptyString +:+ getBlockStyle data
                 +:+ String dquote EmptyString +:+ ">" +:+ Js.tpl content +:+ "</span>")).
Proof.
  split; [|split].
  - induction data as [|[key value] data IH]; [reflexivity|].
    rewrite getBlockStyle_cons. cbn [map Js.concat fold_right fst snd].
    unfold Js.concat in IH. rewrite <- IH.
    rewrite !sapp_assoc. reflexivity.
  - intros ->. reflexivity.
  - intros Hdata. split; [apply getBlockStyle_nonempty, Hdata|].
    unfold getBlockStyleProperty.
    destruct (String.eqb_spec (getBlockStyle data) ""); [|reflexivity].
    exfalso. apply (getBlockStyle_nonempty data Hdata). assumption.
Qed.


Lemma mapM_app {A B : Type} (f : A -> M B) (l1 l2 : list A) (proto : ObjectPrototype) :
  mapM f (l1 ++ l2) proto
  = (ys1 <- mapM f l1;; ys2 <- mapM f l2;; ret (ys1 ++ ys2)) proto.
Proof.
  revert proto. induction l1 as [|x l1 IH]; intros proto.
  - unfold bind. cbn. destruct (mapM f l2 proto) as [[ys2 proto2]|]; reflexivity.
  - rewrite <- List.app_comm_cons, mapM_cons. unfold bind at 1. rewrite mapM_cons.
    destruct (f x proto) as [[y proto1]|]; [|reflexivity]. rewrite IH. unfold bind.
    destruct (mapM f l1 proto1) as [[ys1 proto2]|]; [|reflexivity].
    destruct (mapM f l2 proto2) as [[ys2 proto3]|]; reflexivity.
Qed.

Lemma mapM_ext_in {A B : Type} (f g : A -> M B) (l : list A) :
  (forall x proto, x ∈ l -> f x proto = g x proto) ->
  forall proto, mapM f l proto = mapM g l proto.
Proof.
  induction l as [|x l IH]; intros Hfg proto; [reflexivity|].
  rewrite !mapM_cons. rewrite Hfg by apply list_elem_of_here.
  destruct (g x proto) as [[y proto1]|]; [|reflexivity].
  rewrite IH; [reflexivity|]. intros y' p Hy. apply Hfg, list_elem_of_further, Hy.
Qed.

Lemma concat_app (l1 l2 : list string) :
  Js.concat (l1 ++ l2) = Js.concat l1 +:+ Js.concat l2.
Proof.
  unfold Js.concat. induction l1 as [|s l1 IH]; [reflexivity|].
  simpl. rewrite IH, sapp_assoc. reflexivity.
Qed.

Lemma draftToMarkdown_fold (entityMap : gmap Z Entity) (bs : list Block) :
  forall (acc : list string) (proto : ObjectPrototype),
    foldM (fun markdown block =>
             content <- getBlockMarkdown block entityMap;;
             let content :=
               if isList (block_type block)
               then getDepthPadding (block_depth block) +:+ content
               else content in
             ret (markdown ++ [content]))
          bs acc proto
    = (outputs <- mapM (block_output entityMap) bs;; ret (acc ++ outputs)) proto.
Proof.
  induction bs as [|b bs IH]; intros acc proto.
  - cbn. unfold ret. rewrite List.app_nil_r. reflexivity.
  - rewrite foldM_cons.
    transitivity
      (match block_output entityMap b proto with
       | Ok (output, proto1) =>
           match mapM (block_output entityMap) bs proto1 with
           | Ok (outputs, proto2) => Ok (acc ++ output :: outputs, proto2)
           | Err e => Err e
           end
       | Err e => Err e
       end).
    + unfold block_output, bind.
      destruct (getBlockMarkdown b entityMap proto) as [[content proto1]|];
        [|reflexivity].
      unfold ret at 1 3. rewrite IH. unfold bind, ret.
      destruct (mapM _ bs proto1) as [[outputs proto2]|]; [|reflexivity].
      rewrite <- List.app_assoc. reflexivity.
    + unfold bind. rewrite mapM_cons.
      destruct (block_output entityMap b proto) as [[output proto1]|]; [|reflexivity].
      destruct (mapM _ bs proto1) as [[outputs proto2]|]; reflexivity.
Qed.

Lemma draftToMarkdown_outputs (entities : gmap Z Entity) (bs : list Block)
    (proto : ObjectPrototype) :
  draftToMarkdown (mkContentState bs entities) proto
  = (outputs <- mapM (block_output entities) bs;; ret (Js.concat outputs)) proto.
Proof.
  unfold draftToMarkdown. cbn [blocks entityMap].
  unfold bind at 1. rewrite draftToMarkdown_fold. unfold bind.
  destruct (mapM (block_output entities) bs proto) as [[outputs proto1]|]; reflexivity.
Qed.

(** ** The state that a document leaves *)

Lemma getBlockContentMarkdown_Ok (block : Block) (entityMap : gmap Z Entity)
    (proto proto' : ObjectPrototype) (content : option string) :
  getBlockContentMarkdown block entityMap proto = Ok (content, proto') ->
  reached block proto proto'.
Proof.
  unfold getBlockContentMarkdown. destruct (isAtomicBlock block).
  - destruct (block_entityRanges block) as [|r rs].
    + intros [= _ <-]. apply reached_refl.
    + unfold bind, get_prototype, lift.
      destruct (getEntityMarkdown proto entityMap (er_key r) None); [|discriminate].
      intros [= _ <-]. apply reached_refl.
  - unfold bind. destruct (foldM _ _ _ proto) as [[blockMarkdown p]|] eqn:Hfold;
      [|discriminate].
    intros [= _ <-].
    eapply (foldM_Ok_inv (reached block proto)); [|exact Hfold|apply reached_refl].
    intros s x p0 s' p'. apply blockContent_step_Ok.
Qed.

Lemma block_output_Ok (entityMap : gmap Z Entity) (block : Block)
    (proto proto' : ObjectPrototype) (output : string) :
  block_output entityMap block proto = Ok (output, proto') -> reached block proto proto'.
Proof.
  unfold block_output, getBlockMarkdown, bind, get_prototype.
  destruct (getBlockContentMarkdown block entityMap proto) as [[content p]|] eqn:Hc;
    [|discriminate].
  intros [= _ <-]. eapply getBlockContentMarkdown_Ok. exact Hc.
Qed.

Lemma document_writes_cons (b : Block) (bs : list Block) :
  document_writes (b :: bs)
  = prototype_writes (block_inlineStyleRanges b) ∪ document_writes bs.
Proof. reflexivity. Qed.

Lemma outputs_Ok (entityMap : gmap Z Entity) (bs : list Block) :
  forall (proto proto' : ObjectPrototype) (outputs : list string),
    mapM (block_output entityMap) bs proto = Ok (outputs, proto') ->
    proto ⊆ proto' /\ proto' ⊆ proto ∪ document_writes bs.
Proof.
  induction bs as [|b bs IH]; intros proto proto' outputs H.
  - injection H as _ <-. split; [reflexivity|]. apply union_subseteq_l.
  - rewrite mapM_cons in H.
    destruct (block_output entityMap b proto) as [[output proto1]|] eqn:Hb; [|discriminate].
    destruct (mapM (block_output entityMap) bs proto1) as [[outputs' proto2]|] eqn:Hbs;
      [|discriminate].
    injection H as _ <-. apply block_output_Ok in Hb as [Hlo Hhi].
    apply IH in Hbs as [Hlo' Hhi']. rewrite document_writes_cons. split.
    + etransitivity; eassumption.
    + intros i Hi. apply Hhi', elem_of_union in Hi as [Hi|Hi].
      * apply Hhi, elem_of_union in Hi as [Hi|Hi].
        -- apply elem_of_union_l. exact Hi.
        -- apply elem_of_union_r, elem_of_union_l. exact Hi.
      * apply elem_of_union_r, elem_of_union_r. exact Hi.
Qed.

(** X13: the markdown of a document is the markdown of its blocks joined in
    order: for the blocks [bs1] followed by the blocks [bs2] it is the
    markdown of [bs1] followed by the markdown of [bs2], rendered in the
    state in which [bs1] leaves [Object.prototype]; an error of a block is
    the error of the document, the first one in document order.  That state
    holds what it held before and, at most, the offsets of the ranges of
    [bs1] tagged [__proto__]: without such a range it is the state before,
    and [bs2] is rendered as it would be alone. *)
Theorem draftToMarkdown_app (entityMap : gmap Z Entity) (bs1 bs2 : list Block)
    (proto : ObjectPrototype) :
  draftToMarkdown (mkContentState (bs1 ++ bs2) entityMap) proto
  = (markdown1 <- draftToMarkdown (mkContentState bs1 entityMap);;
     markdown2 <- draftToMarkdown (mkContentState bs2 entityMap);;
     ret (markdown1 +:+ markdown2)) proto
  /\ (forall markdown1 proto1,
         draftToMarkdown (mkContentState bs1 entityMap) proto = Ok (markdown1, proto1) ->
         proto ⊆ proto1 /\ proto1 ⊆ proto ∪ document_writes bs1)
  /\ (document_writes bs1 = ∅ ->
      draftToMarkdown (mkContentState (bs1 ++ bs2) entityMap) proto
      = match draftToMarkdown (mkContentState bs1 entityMap) proto with
        | Ok (markdown1, _) =>
            match draftToMarkdown (mkContentState bs2 entityMap) proto with
            | Ok (markdown2, proto2) => Ok (markdown1 +:+ markdown2, proto2)
            | Err e => Err e
            end
        | Err e => Err e
        end).
Proof.
  assert (Happ :
    draftToMarkdown (mkContentState (bs1 ++ bs2) entityMap) proto
    = (markdown1 <- draftToMarkdown (mkContentState bs1 entityMap);;
       markdown2 <- draftToMarkdown (mkContentState bs2 entityMap);;
       ret (markdown1 +:+ markdown2)) proto).
  { rewrite draftToMarkdown_outputs. unfold bind at 1. rewrite mapM_app. unfold bind.
    rewrite draftToMarkdown_outputs. unfold bind.
    destruct (mapM (block_output entityMap) bs1 proto) as [[o1 proto1]|]; [|reflexivity].
    unfold ret. cbv beta iota. rewrite draftToMarkdown_outputs. unfold bind.
    destruct (mapM (block_output entityMap) bs2 proto1) as [[o2 proto2]|]; [|reflexivity].
    unfold ret. rewrite concat_app. reflexivity. }
  assert (Hstate : forall markdown1 proto1,
    draftToMarkdown (mkContentState bs1 entityMap) proto = Ok (markdown1, proto1) ->
    proto ⊆ proto1 /\ proto1 ⊆ proto ∪ document_writes bs1).
  { intros markdown1 proto1. rewrite draftToMarkdown_outputs. unfold bind.
    destruct (mapM (block_output entityMap) bs1 proto) as [[o1 p1]|] eqn:H1;
      [|discriminate].
    intros [= _ <-]. eapply outputs_Ok. exact H1. }
  split; [exact Happ|]. split; [exact Hstate|].
  intros Hnone. rewrite Happ. unfold bind.
  destruct (draftToMarkdown (mkContentState bs1 entityMap) proto)
    as [[markdown1 proto1]|] eqn:H1; [|reflexivity].
  destruct (Hstate _ _ eq_refl) as [Hlo Hhi].
  rewrite Hnone, union_empty_r_L in Hhi.
  assert (Heq : proto1 = proto) by (apply set_eq; intros i; split; [apply Hhi|apply Hlo]).
  rewrite Heq. reflexivity.
Qed.

Lemma getEntityMarkdown_agree (proto : ObjectPrototype)
    (entityMap1 entityMap2 : gmap Z Entity) (k : Z) (text : option string) :
  entityMap1 !! k = entityMap2 !! k ->
  getEntityMarkdown proto entityMap1 k text = getEntityMarkdown proto entityMap2 k text.
Proof. intros H. unfold getEntityMarkdown. rewrite H. reflexivity. Qed.

Lemma getEntitySectionMarkdown_agree (block : Block) (entityMap1 entityMap2 : gmap Z Entity)
    (section : EntitySection) (proto : ObjectPrototype) :
  (forall k, sec_entityKey section = Some k -> entityMap1 !! k = entityMap2 !! k) ->
  getEntitySectionMarkdown block entityMap1 section proto
  = getEntitySectionMarkdown block entityMap2 section proto.
Proof.
  intros H. rewrite !getEntitySectionMarkdown_eq.
  destruct (getStyleSections block toggle_keys _ _ proto) as [[sections proto1]|];
    [|reflexivity].
  destruct (foldM _ _ _ proto1) as [[t proto2]|]; [|reflexivity].
  destruct (sec_entityKey section) as [k|]; [|reflexivity].
  rewrite (getEntityMarkdown_agree proto2 entityMap1 entityMap2) by (apply H; reflexivity).
  reflexivity.
Qed.

(** X14: the markdown of a block depends on the entity map only through the
    entities of the keys of the block's own entity ranges: two maps that
    agree on those keys give the same result and leave the same state, and
    for a block without entity ranges the map plays no part. *)
Theorem getBlockMarkdown_entities (block : Block) (entityMap1 entityMap2 : gmap Z Entity)
    (proto : ObjectPrototype) :
  (forall r, r ∈ block_entityRanges block ->
             entityMap1 !! er_key r = entityMap2 !! er_key r) ->
  getBlockMarkdown block entityMap1 proto = getBlockMarkdown block entityMap2 proto.
Proof.
  intros Hagree. unfold getBlockMarkdown, bind, get_prototype.
  assert (Hcontent : getBlockContentMarkdown block entityMap1 proto
                     = getBlockContentMarkdown block entityMap2 proto);
    [|rewrite Hcontent; reflexivity].
  destruct (isAtomicBlock block) eqn:Hatomic.
  - unfold getBlockContentMarkdown. rewrite Hatomic.
    destruct (block_entityRanges block) as [|r rs] eqn:Hranges; [reflexivity|].
    unfold bind, get_prototype.
    rewrite (getEntityMarkdown_agree proto entityMap1 entityMap2); [reflexivity|].
    apply Hagree. rewrite ?Hranges. apply list_elem_of_here.
  - rewrite !getBlockContentMarkdown_sections by assumption. unfold bind.
    rewrite (mapM_ext_in (getEntitySectionMarkdown block entityMap1)
                         (getEntitySectionMarkdown block entityMap2)); [reflexivity|].
    intros section p Hsection. apply getEntitySectionMarkdown_agree.
    intros k Hk. destruct (getEntitySections_key _ _ _ _ Hsection Hk) as (r & Hr & <-).
    apply Hagree, Hr.
Qed.

End Document.

(** * More on leading and trailing blanks *)

Section TrimMore.

Lemma leading_blanks_app_blanks (a : nat) (x : string) :
  leading_blanks (Js.repeat " " a +:+ x) = (a + leading_blanks x)%nat.
Proof.
  induction a as [|a IH]; [reflexivity|].
  change (Js.repeat " " (S a) +:+ x) with (String " " (Js.repeat " " a +:+ x)).
  simpl. rewrite IH. reflexivity.
Qed.

Lemma trailing_blanks_app_blanks (x : string) (b : nat) :
  trailing_blanks (x +:+ Js.repeat " " b) = (b + trailing_blanks x)%nat.
Proof.
  induction b as [|b IH].
  - simpl. rewrite sapp_nil_r. reflexivity.
  - change (Js.repeat " " (S b)) with (" " +:+ Js.repeat " " b).
    rewrite <- repeat_snoc, <- sapp_assoc, trailing_blanks_snoc, IH. reflexivity.
Qed.

Lemma trimLeadingZeros_blanks (a : nat) (x : string) :
  leading_blanks x = O ->
  trimLeadingZeros (Js.repeat " " a +:+ x) = Js.repeat "&nbsp;" a +:+ x.
Proof.
  intros Hx. rewrite trimLeadingZeros_replaced. unfold leading_blanks_replaced.
  rewrite leading_blanks_app_blanks, Hx, Nat.add_0_r.
  rewrite <- (length_repeat_char " " a) at 2. rewrite substring_from_app. reflexivity.
Qed.

Lemma trimTrailingZeros_blanks (x : string) (b : nat) :
  trailing_blanks x = O ->
  trimTrailingZeros (x +:+ Js.repeat " " b) = x +:+ Js.repeat "&nbsp;" b.
Proof.
  intros Hx. rewrite trimTrailingZeros_replaced. unfold trailing_blanks_replaced.
  rewrite trailing_blanks_app_blanks, Hx, Nat.add_0_r, length_sapp, length_repeat_char.
  replace (String.length x + b - b)%nat with (String.length x) by lia.
  rewrite substring_to_app. reflexivity.
Qed.

Lemma leading_blanks_app (m y : string) :
  leading_blanks m = O -> m <> "" -> leading_blanks (m +:+ y) = O.
Proof.
  destruct m as [|c m]; [congruence|]. intros Hm _.
  rewrite sapp_cons. simpl in *. destruct (Ascii.eqb c " "); [discriminate|reflexivity].
Qed.

Lemma trailing_blanks_app (y m : string) :
  trailing_blanks m = O -> m <> "" -> trailing_blanks (y +:+ m) = O.
Proof.
  intros Hm Hne.
  destruct (String.length m) as [|n] eqn:Hlen; [destruct m; [congruence|discriminate]|].
  destruct (string_snoc_inv m n Hlen) as (m' & c & -> & _).
  rewrite trailing_blanks_snoc in Hm. rewrite <- sapp_assoc, trailing_blanks_snoc.
  destruct (Ascii.eqb c " "); [discriminate|reflexivity].
Qed.

Lemma leading_blanks_nbsp (a : nat) : leading_blanks (Js.repeat "&nbsp;" a) = O.
Proof. destruct a; reflexivity. Qed.

Lemma trailing_blanks_nbsp (b : nat) : trailing_blanks (Js.repeat "&nbsp;" b) = O.
Proof.
  destruct b as [|b]; [reflexivity|].
  change (Js.repeat "&nbsp;" (S b)) with ("&nbsp;" +:+ Js.repeat "&nbsp;" b).
  rewrite <- repeat_snoc.
  change "&nbsp;" with ("&nbsp" +:+ String ";" "") at 2.
  rewrite <- sapp_assoc, trailing_blanks_snoc. reflexivity.
Qed.

(** A string is what comes before its trailing blanks, then those blanks. *)
Lemma trailing_split (x : string) :
  exists m, x = m +:+ Js.repeat " " (trailing_blanks x) /\ trailing_blanks m = O.
Proof.
  remember (String.length x) as n eqn:Hn. revert x Hn.
  induction n as [|n IH]; intros x Hn.
  - destruct x; [|discriminate]. exists "". split; reflexivity.
  - destruct (string_snoc_inv x n (eq_sym Hn)) as (p & c & -> & Hp).
    rewrite trailing_blanks_snoc. destruct (Ascii.eqb_spec c " ") as [->|Hc].
    + destruct (IH p (eq_sym Hp)) as (m & Hm & Hm0). exists m. split; [|exact Hm0].
      change (Js.repeat " " (S (trailing_blanks p)))
        with (" " +:+ Js.repeat " " (trailing_blanks p)).
      rewrite <- repeat_snoc, <- sapp_assoc, <- Hm. reflexivity.
    + exists (p +:+ String c ""). split; [rewrite sapp_nil_r; reflexivity|].
      rewrite trailing_blanks_snoc. destruct (Ascii.eqb_spec c " "); [contradiction|reflexivity].
Qed.

Lemma leading_blanks_zero (t : string) :
  leading_blanks t = O <-> Js.charAt t 0 <> Some " "%char.
Proof.
  destruct t as [|c t]; simpl.
  - split; [discriminate|reflexivity].
  - destruct (Ascii.eqb_spec c " ") as [->|Hc]; split; try congruence; try discriminate.
Qed.

Lemma trailing_blanks_zero (t : string) :
  trailing_blanks t = O -> Js.charAt t (String.length t - 1) <> Some " "%char.
Proof.
  intros Ht. destruct (String.length t) as [|n] eqn:Hlen.
  - destruct t; [discriminate|discriminate].
  - destruct (string_snoc_inv t n Hlen) as (p & c & -> & Hp).
    rewrite trailing_blanks_snoc in Ht.
    replace (S n - 1)%nat with (String.length p + 0)%nat by lia.
    rewrite charAt_app_r. simpl.
    destruct (Ascii.eqb_spec c " "); [discriminate|congruence].
Qed.

(** X15: what [trimLeadingZeros] returns never begins with a blank and what
    [trimTrailingZeros] returns never ends with one; a string that does not
    begin (end) with a blank is returned as it is. *)
Theorem trim_edges_clean (s : string) :
  Js.charAt (trimLeadingZeros s) 0 <> Some " "%char
  /\ Js.charAt (trimTrailingZeros s) (String.length (trimTrailingZeros s) - 1)
     <> Some " "%char
  /\ (Js.charAt s 0 <> Some " "%char -> trimLeadingZeros s = s)
  /\ (Js.charAt s (String.length s - 1) <> Some " "%char -> trimTrailingZeros s = s).
Proof.
  split; [|split; [|split]].
  - apply leading_blanks_zero. rewrite trimLeadingZeros_replaced.
    apply leading_blanks_replaced_none.
  - apply trailing_blanks_zero. rewrite trimTrailingZeros_replaced.
    apply trailing_blanks_replaced_none.
  - intros Hs. rewrite trimLeadingZeros_replaced.
    apply leading_blanks_replaced_id, leading_blanks_zero, Hs.
  - intros Hs. rewrite trimTrailingZeros_replaced. apply trailing_blanks_replaced_id.
    destruct (trailing_split s) as (m & Hm & _).
    destruct (trailing_blanks s) as [|b]; [reflexivity|]. exfalso. apply Hs.
    rewrite Hm at 2. rewrite Hm at 1.
    change (Js.repeat " " (S b)) with (" " +:+ Js.repeat " " b).
    rewrite <- repeat_snoc, <- sapp_assoc, length_sapp. simpl String.length.
    replace (String.length (m +:+ Js.repeat " " b) + 1 - 1)%nat
      with (String.length (m +:+ Js.repeat " " b) + 0)%nat by lia.
    rewrite charAt_app_r. reflexivity.
Qed.

(** X16: the two trimming functions commute: trimming the leading end and
    then the trailing end gives the same string as trimming the trailing end
    and then the leading end. *)
Theorem trim_commute (s : string) :
  trimTrailingZeros (trimLeadingZeros s) = trimLeadingZeros (trimTrailingZeros s).
Proof.
  rewrite (blanks_split s).
  set (a := leading_blanks s). set (x := Js.substring_from a s).
  assert (Hx : leading_blanks x = O) by apply leading_blanks_rest.
  clearbody a x. clear s.
  destruct (String.eqb_spec x "") as [->|Hne].
  - rewrite sapp_nil_r.
    pose proof (trimLeadingZeros_blanks a "" eq_refl) as HL.
    pose proof (trimTrailingZeros_blanks "" a eq_refl) as HT.
    rewrite !sapp_nil_r in HL. rewrite !sapp_nil_l in HT. rewrite HL, HT.
    rewrite trimTrailingZeros_replaced, trimLeadingZeros_replaced.
    rewrite trailing_blanks_replaced_id by apply trailing_blanks_nbsp.
    rewrite leading_blanks_replaced_id by apply leading_blanks_nbsp. reflexivity.
  - destruct (trailing_split x) as (m & Hm & Hm0).
    set (b := trailing_blanks x) in Hm. clearbody b.
    assert (Hmne : m <> "").
    { intros ->. rewrite sapp_nil_l in Hm. subst x.
      destruct b as [|b]; [apply Hne; reflexivity|].
      rewrite <- (sapp_nil_r (Js.repeat " " (S b))), leading_blanks_app_blanks in Hx.
      discriminate. }
    assert (Hml : leading_blanks m = O).
    { subst x. destruct m as [|c m]; [congruence|].
      rewrite sapp_cons in Hx. simpl in *. destruct (Ascii.eqb c " "); [discriminate|reflexivity]. }
    subst x.
    rewrite trimLeadingZeros_blanks by assumption.
    rewrite <- !sapp_assoc.
    rewrite trimTrailingZeros_blanks by (apply trailing_blanks_app; assumption).
    rewrite trimTrailingZeros_blanks by (apply trailing_blanks_app; assumption).
    rewrite !sapp_assoc.
    rewrite trimLeadingZeros_blanks by (apply leading_blanks_app; assumption).
    reflexivity.
Qed.

End TrimMore.

(** * A toggle over the whole text *)

Section WholeText.

(** One run: [getStyleSections] on the whole text when no selected key
    changes inside it and [Object.prototype] holds no offset of the text. *)
Lemma getStyleSections_single (block : Block) (styles : list StyleKey)
    (inlineStyles : InlineStyles) (n : nat) (proto : ObjectPrototype) :
  getStyleArrayForBlock block proto = Ok (inlineStyles, proto) ->
  styles_length inlineStyles = text_length block ->
  text_length block = Z.of_nat (S n) ->
  clean_on proto 0 (text_length block) ->
  (forall i, 0 < i < text_length block -> same_slots ∅ inlineStyles styles i = true) ->
  getStyleSections block styles 0 (text_length block) proto
  = Ok ([mkStyleSection (getStylesAtOffset ∅ inlineStyles 0)
           (map (fun c => Some (EChar c)) (list_ascii_of_string (block_text block)))
           0 (text_length block)],
        proto).
Proof.
  intros Harrays Hlength Hlen Hclean Hsame.
  rewrite (getStyleSections_fold block styles 0 _ proto proto inlineStyles Harrays) by lia.
  f_equal. f_equal.
  rewrite styleSections_fold_inside by lia.
  rewrite run_step_clean by exact Hclean.
  rewrite Z.sub_0_r, Hlen, run_single by (intros i Hi; apply Hsame; lia).
  rewrite <- Hlen. unfold text_length at 1. rewrite text_chars. reflexivity.
Qed.

Lemma toggle_kind (k : StyleKey) :
  k ∈ toggle_keys -> style_kind (key_name k) = Some (k, VTrue).
Proof.
  intros Hk. unfold toggle_keys in Hk.
  repeat (apply elem_of_cons in Hk as [->|Hk]; [reflexivity|]).
  apply elem_of_nil in Hk. contradiction.
Qed.

Section OneToggle.

Context (block : Block) (k : StyleKey) (proto : ObjectPrototype).
Hypothesis Hk : k ∈ toggle_keys.
Hypothesis Hranges :
  block_inlineStyleRanges block = [mkInlineStyleRange (key_name k) 0 (text_length block)].
Hypothesis Hclean : clean_on proto 0 (text_length block).

Lemma one_toggle_arrays :
  getStyleArrayForBlock block proto = Ok (toggle_arrays block k, proto).
Proof.
  assert (Hkinds : Forall (fun r => style_kind (isr_style r) <> None)
                          (block_inlineStyleRanges block)).
  { rewrite Hranges. constructor; [|constructor]. cbn [isr_style].
    rewrite (toggle_kind k Hk). discriminate. }
  destruct (first_error_kinds (text_length block) _ Hkinds) as [Hwrites Herror].
  rewrite getStyleArrayForBlock_eq, Herror, Hwrites, union_empty_r_L, Hranges.
  reflexivity.
Qed.

Lemma one_toggle_slot (k' : StyleKey) (j : Z) :
  style_array (toggle_arrays block k) k' !! j
  = if bool_decide (k = k') && (0 <=? j) && (j <? text_length block)
    then Some VTrue else None.
Proof.
  unfold toggle_arrays. rewrite range_pure_lookup. unfold writes_to. cbn [isr_style].
  rewrite (toggle_kind k Hk). cbn [isr_offset isr_length]. rewrite Z.add_0_l.
  destruct (bool_decide (k = k') && (0 <=? j) && (j <? text_length block));
    [reflexivity|]. simpl. apply lookup_empty.
Qed.

Lemma one_toggle_same (styles : list StyleKey) (i : Z) :
  0 < i < text_length block -> same_slots ∅ (toggle_arrays block k) styles i = true.
Proof.
  intros Hi. unfold same_slots. apply forallb_forall. intros k' _.
  apply bool_decide_eq_true. rewrite !array_get_fresh, !one_toggle_slot.
  destruct (bool_decide (k = k')); [|reflexivity]. cbn [andb].
  destruct (Z.leb_spec 0 i); [|lia]. destruct (Z.ltb_spec i (text_length block)); [|lia].
  destruct (Z.leb_spec 0 (i - 1)); [|lia].
  destruct (Z.ltb_spec (i - 1) (text_length block)); [reflexivity|lia].
Qed.

Lemma one_toggle_styles : 0 < text_length block ->
  getStylesAtOffset ∅ (toggle_arrays block k) 0 = [(k, VTrue)].
Proof.
  intros Hlen. unfold getStylesAtOffset, copy_slot, flag_slot.
  rewrite !array_get_fresh, !one_toggle_slot.
  ltb_true 0 (text_length block). rewrite !andb_true_r.
  pose proof Hk as Hk'. unfold toggle_keys in Hk'.
  repeat (apply elem_of_cons in Hk' as [->|Hk']; [reflexivity|]).
  apply elem_of_nil in Hk'. contradiction.
Qed.

Lemma one_toggle_section (entityMap : gmap Z Entity) (n : nat) :
  text_length block = Z.of_nat (S n) ->
  getEntitySectionMarkdown block entityMap (mkEntitySection 0 (text_length block) None)
                           proto
  = Ok (Some (addInlineStyleMarkup (key_name k) (escape_text (block_text block))), proto).
Proof.
  intros Hlen. rewrite getEntitySectionMarkdown_eq.
  cbn [sec_start sec_end sec_entityKey].
  assert (Hlength : styles_length (toggle_arrays block k) = text_length block)
    by (unfold toggle_arrays, range_pure; apply fold_write_pure_length).
  rewrite (getStyleSections_single block toggle_keys (toggle_arrays block k) n proto
             one_toggle_arrays Hlength Hlen Hclean)
    by (intros i Hi; apply one_toggle_same, Hi).
  rewrite foldM_cons. unfold styleSection_markdown at 1. cbn [ss_start ss_end ss_styles].
  unfold bind at 1.
  rewrite (getStyleSections_single block property_keys (toggle_arrays block k) n proto
             one_toggle_arrays Hlength Hlen Hclean)
    by (intros i Hi; apply one_toggle_same, Hi).
  rewrite one_toggle_styles by lia.
  cbn [foldM ret fold_left]. unfold addStylePropertyMarkdown. cbn [ss_styles ss_text].
  rewrite getSectionText_chars.
  assert (Hprops : forall p, p ∈ property_keys -> styles_get p [(k, VTrue)] = None).
  { intros p Hp. simpl. destruct (decide (k = p)) as [->|]; [|reflexivity].
    exfalso. clear -Hk Hp. unfold toggle_keys, property_keys in *.
    repeat (apply elem_of_cons in Hp as [->|Hp];
            [repeat (apply elem_of_cons in Hk as [Hk|Hk]; [discriminate|]);
             apply elem_of_nil in Hk; contradiction|]).
    apply elem_of_nil in Hp. contradiction. }
  rewrite !Hprops by (apply list_elem_of_In; simpl; tauto).
  cbn [truthy orb]. unfold getStyleTagSectionMarkdown, forEach.
  cbn [fold_left fst snd Js.concat fold_right].
  rewrite sapp_nil_l, sapp_nil_r. reflexivity.
Qed.

End OneToggle.

Lemma toggle_markup_no_blank (k : StyleKey) (content : string) :
  k ∈ toggle_keys ->
  trimTrailingZeros (trimLeadingZeros (addInlineStyleMarkup (key_name k) content))
  = addInlineStyleMarkup (key_name k) content.
Proof.
  intros Hk. unfold toggle_keys in Hk.
  assert (Hwrap : exists pre post,
             addInlineStyleMarkup (key_name k) content = pre +:+ content +:+ post
             /\ leading_blanks pre = O /\ pre <> ""
             /\ trailing_blanks post = O /\ post <> "").
  { repeat (apply elem_of_cons in Hk as [->|Hk];
            [eexists _, _; split; [reflexivity|];
             repeat split; try reflexivity; discriminate|]).
    apply elem_of_nil in Hk. contradiction. }
  destruct Hwrap as (pre & post & -> & Hpre & Hpre' & Hpost & Hpost').
  rewrite trimLeadingZeros_replaced, leading_blanks_replaced_id
    by (apply leading_blanks_app; assumption).
  rewrite trimTrailingZeros_replaced, trailing_blanks_replaced_id; [reflexivity|].
  rewrite <- sapp_assoc. apply trailing_blanks_app; assumption.
Qed.

(** X17: a block without entity ranges whose one inline style range is a
    toggle over its whole text renders its content as the markup of that
    toggle around the escaped text; blanks at the ends of the text are inside
    the markup and are not replaced ([Object.prototype] holding no offset of
    the text, as in a fresh realm). *)
Theorem whole_text_toggle (block : Block) (entityMap : gmap Z Entity) (k : StyleKey)
    (proto : ObjectPrototype) :
  k ∈ toggle_keys ->
  block_inlineStyleRanges block
  = [mkInlineStyleRange (key_name k) 0 (text_length block)] ->
  block_entityRanges block = [] ->
  0 < text_length block ->
  clean_on proto 0 (text_length block) ->
  getBlockContentMarkdown block entityMap proto
  = Ok (Some (addInlineStyleMarkup (key_name k) (escape_text (block_text block))), proto).
Proof.
  intros Hk Hranges Hentities Hlen Hclean.
  rewrite getBlockContentMarkdown_sections
    by (unfold isAtomicBlock; rewrite Hentities; reflexivity).
  rewrite Hentities. unfold getEntitySections. cbn [fold_left].
  ltb_true 0 (text_length block). cbn [app]. unfold bind. rewrite mapM_cons.
  assert (Hn : text_length block = Z.of_nat (S (Z.to_nat (text_length block - 1))))
    by lia.
  rewrite (one_toggle_section block k proto Hk Hranges Hclean entityMap _ Hn).
  cbn [mapM ret]. rewrite trim_edges_one.
  cbn [fmap option_fmap option_map Js.join fold_right].
  rewrite sapp_nil_r, toggle_markup_no_blank by assumption. reflexivity.
Qed.

(** X18: an atomic block whose first entity is in the map and is neither a
    LINK, a MENTION nor an IMAGE has the content [undefined]: its markdown is
    what the symbol of its type joins as and the line terminator when it has
    no style data, and with style data the span holds the word [undefined].
    For a type that names nothing inherited from [Object.prototype], the
    symbol joins as the prefix of the type. *)
Theorem atomic_block_other_entity (block : Block) (entityMap : gmap Z Entity)
    (r : EntityRange) (rs : list EntityRange) (entity : Entity)
    (proto : ObjectPrototype) :
  isAtomicBlock block = true ->
  block_entityRanges block = r :: rs ->
  entityMap !! er_key r = Some entity ->
  entity_type entity <> "LINK" -> entity_type entity <> "MENTION" ->
  entity_type entity <> "IMAGE" ->
  getBlockContentMarkdown block entityMap proto = Ok (None, proto)
  /\ getBlockMarkdown block entityMap proto
     = Ok (Js.join [symbol_text <$> getBlockTagSymbol proto block]
           +:+ (if String.eqb (getBlockStyle (block_data block)) "" then ""
                else "<span style=" +:+ String dquote EmptyString
                     +:+ getBlockStyle (block_data block)
                     +:+ String dquote EmptyString +:+ ">undefined</span>")
           +:+ String newline "",
           proto)
  /\ ((block_type block ∉ prototype_names) -> ~ names_index proto (block_type block) ->
      Js.join [symbol_text <$> getBlockTagSymbol proto block] = block_prefix block).
Proof.
  intros Hatomic Hranges Hentity Hlink Hmention Himage.
  assert (Hcontent : getBlockContentMarkdown block entityMap proto = Ok (None, proto)).
  { unfold getBlockContentMarkdown. rewrite Hatomic, Hranges.
    unfold bind, get_prototype, lift, getEntityMarkdown. rewrite Hentity.
    destruct (String.eqb_spec (entity_type entity) "LINK"); [contradiction|].
    destruct (String.eqb_spec (entity_type entity) "MENTION"); [contradiction|].
    destruct (String.eqb_spec (entity_type entity) "IMAGE"); [contradiction|].
    reflexivity. }
  split; [exact Hcontent|]. split; [|apply symbol_text_prefix].
  unfold getBlockMarkdown, bind, get_prototype. rewrite Hcontent. unfold ret.
  rewrite join_cons. unfold getBlockStyleProperty.
  destruct (String.eqb (getBlockStyle (block_data block)) "");
    cbn [Js.join fold_right Js.tpl]; rewrite ?sapp_nil_r, ?sapp_nil_l, ?sapp_assoc;
    reflexivity.
Qed.

End WholeText.

(** * Symbols of block types *)

Section Symbols.

(** X20: what the lookup of a block type in the table of symbols gives.  For
    the empty type it is the type itself; for one of the ten types of the
    table, the symbol of section 4.7; for a type that names nothing the table
    inherits, [undefined], which joins as nothing.  The table is an object
    literal: a type that is a property name of [Object.prototype] gives the
    inherited value, which joins as a text that is not empty, and so does the
    numeral of an index that [Object.prototype] holds, which joins as
    [true]. *)
Theorem getBlockTagSymbol_lookup (proto : ObjectPrototype) (block : Block) :
  ((block_type block ∉ prototype_names) -> ~ names_index proto (block_type block) ->
   Js.join [symbol_text <$> getBlockTagSymbol proto block] = block_prefix block)
  /\ (block_type block ∈ prototype_names ->
      exists v, getBlockTagSymbol proto block = Some (SInherited v)
                /\ v <> ITrue /\ inherited_text v <> "")
  /\ (names_index proto (block_type block) ->
      getBlockTagSymbol proto block = Some (SInherited ITrue)).
Proof.
  split; [apply symbol_text_prefix|]. split.
  - intros Hin. unfold getBlockTagSymbol, inherited_property.
    apply list_elem_of_In in Hin. unfold prototype_names in Hin. simpl in Hin.
    repeat (destruct Hin as [<-|Hin];
            [eexists; split; [reflexivity|split; discriminate]|]).
    contradiction.
  - intros Hname. pose proof Hname as (i & _ & Hi).
    unfold getBlockTagSymbol.
    destruct (index_name_head i) as (c & rest & Hhead & Hc). rewrite <- Hi in Hhead.
    apply inherited_property_true in Hname. rewrite Hname, Hhead.
    unfold numeral_head in Hc. simpl in Hc.
    repeat (destruct Hc as [<-|Hc]; [reflexivity|]). contradiction.
Qed.

End Symbols.

(** * The further properties on concrete blocks *)

Section MoreExamples.

Lemma bold_italic_arrays_built :
  getStyleArrayForBlock bold_italic_block ∅ = Ok (bold_italic_arrays, ∅).
Proof.
  rewrite getStyleArrayForBlock_eq.
  replace (first_error _ _ _) with (@None error) by reflexivity.
  replace (prototype_writes _) with (∅ : ObjectPrototype) by reflexivity.
  rewrite union_empty_r_L. reflexivity.
Qed.

(** X1 on a concrete input. *)
Lemma getStyleSections_partition_witness :
  exists sections,
    getStyleSections bold_italic_block toggle_keys 0 7 ∅ = Ok (sections, ∅)
    /\ tiles 0 7 sections.
Proof.
  apply (getStyleSections_partition bold_italic_block toggle_keys 0 7
           bold_italic_arrays ∅ ∅).
  - exact bold_italic_arrays_built.
  - reflexivity.
  - lia.
Defined.

(** X2 on a concrete input. *)
Lemma getStyleSections_contents_witness :
  exists sections,
    getStyleSections bold_italic_block toggle_keys 0 7 ∅ = Ok (sections, ∅)
    /\ Forall (fun section =>
                 ss_styles section
                 = getStylesAtOffset ∅ bold_italic_arrays (ss_start section)
                 /\ ss_text section
                    = map (text_get ∅ (block_text bold_italic_block))
                          (seqZ (ss_start section) (ss_end section - ss_start section)))
              sections
    /\ List.concat (map ss_text sections)
       = map (text_get ∅ (block_text bold_italic_block)) (seqZ 0 (7 - 0)).
Proof.
  apply (getStyleSections_contents bold_italic_block toggle_keys 0 7
           bold_italic_arrays ∅ ∅).
  - exact bold_italic_arrays_built.
  - reflexivity.
  - lia.
Defined.

(** X3 on a concrete input. *)
Lemma getStyleSections_constant_witness :
  exists sections,
    getStyleSections bold_italic_block toggle_keys 0 7 ∅ = Ok (sections, ∅)
    /\ forall section k j,
         section ∈ sections -> k ∈ toggle_keys ->
         ss_start section <= j < ss_end section ->
         array_get ∅ (style_array bold_italic_arrays k) j
         = array_get ∅ (style_array bold_italic_arrays k) (ss_start section).
Proof.
  apply (getStyleSections_constant bold_italic_block toggle_keys 0 7
           bold_italic_arrays ∅ ∅).
  - exact bold_italic_arrays_built.
  - reflexivity.
  - lia.
Defined.

(** X4 on a concrete input. *)
Lemma sameStyleAsPrevious_true_witness :
  0 < 1 < styles_length bold_italic_arrays
  /\ forall k, k ∈ [BOLD] ->
               array_get ∅ (style_array bold_italic_arrays k) 1
               = array_get ∅ (style_array bold_italic_arrays k) (1 - 1).
Proof.
  apply (proj1 (sameStyleAsPrevious_true ∅ bold_italic_arrays [BOLD] 1)). reflexivity.
Defined.

(** X7 on a concrete input. *)
Lemma getEntitySections_cover_witness :
  cover_count 1 (getEntitySections (block_entityRanges gap_block) 4) = 0%nat
  /\ cover_count 2 (getEntitySections (block_entityRanges gap_block) 4) = 1%nat.
Proof.
  split.
  - apply (getEntitySections_cover (block_entityRanges gap_block) 4 1); simpl; lia.
  - apply (getEntitySections_cover (block_entityRanges gap_block) 4 2); simpl; lia.
Defined.

(** X9 on concrete inputs: a range tagged [3] after a range tagged
    [__proto__] over offset 3 throws, and so does a range tagged [length];
    the range tagged [__proto__] alone does not, and leaves its offset on
    [Object.prototype]. *)
Lemma getStyleArrayForBlock_throws_witness :
  (exists e, getStyleArrayForBlock numeral_tag_block ∅ = Err e)
  /\ (exists e, getStyleArrayForBlock length_tag_block ∅ = Err e)
  /\ exists inlineStyles,
       getStyleArrayForBlock prototype_key_block ∅
       = Ok (inlineStyles,
             ∅ ∪ prototype_writes (block_inlineStyleRanges prototype_key_block)).
Proof.
  split; [|split].
  - apply (proj2 (proj1 (getStyleArrayForBlock_throws numeral_tag_block ∅))).
    exists [mkInlineStyleRange "__proto__" 3 1], (mkInlineStyleRange "3" 0 1), [],
           TypeError_boolean_property.
    split; [reflexivity|]. split; [reflexivity|]. split; [reflexivity|].
    right. split; [|reflexivity]. exists 3. split; [|reflexivity].
    apply (bool_decide_eq_true_1 _). reflexivity.
  - apply (proj2 (proj1 (getStyleArrayForBlock_throws length_tag_block ∅))).
    exists [], (mkInlineStyleRange "length" 0 1), [], TypeError_number_property.
    split; [reflexivity|]. split; [reflexivity|]. split; [reflexivity|].
    left. split; [reflexivity|]. split; [discriminate|reflexivity].
  - apply (proj2 (proj2 (getStyleArrayForBlock_throws prototype_key_block ∅))).
    apply first_error_none. reflexivity.
Defined.

(** X11 on a concrete input. *)
Lemma getSectionText_app_witness :
  getSectionText (map (fun c => Some (EChar c)) (list_ascii_of_string "a b")) = "a b".
Proof.
  apply (proj2 getSectionText_app "a b"). repeat constructor; discriminate.
Defined.

(** X12 on a concrete input. *)
Lemma getBlockStyleProperty_span_witness :
  getBlockStyle [("text-align", "center")] <> ""
  /\ getBlockStyleProperty [("text-align", "center")] (Some "hi")
     = Some ("<span style=" +:+ String dquote EmptyString
             +:+ getBlockStyle [("text-align", "center")]
             +:+ String dquote EmptyString +:+ ">" +:+ Js.tpl (Some "hi") +:+ "</span>").
Proof.
  apply (proj2 (proj2 (getBlockStyleProperty_span [("text-align", "center")] (Some "hi")))).
  discriminate.
Defined.

(** X13 on concrete inputs: two blocks without a range tagged
    [__proto__]. *)
Lemma draftToMarkdown_app_witness :
  draftToMarkdown (mkContentState ([gap_block] ++ [leading_blank_block]) link_map) ∅
  = match draftToMarkdown (mkContentState [gap_block] link_map) ∅ with
    | Ok (markdown1, _) =>
        match draftToMarkdown (mkContentState [leading_blank_block] link_map) ∅ with
        | Ok (markdown2, proto2) => Ok (markdown1 +:+ markdown2, proto2)
        | Err e => Err e
        end
    | Err e => Err e
    end.
Proof.
  apply (proj2 (proj2 (draftToMarkdown_app link_map [gap_block] [leading_blank_block] ∅))).
  reflexivity.
Defined.

(** After a block with a range tagged [__proto__] over offset 0, the first
    character of the next block carries every style: the two blocks are not
    rendered as each would be alone. *)
Lemma draftToMarkdown_state (markdown1 markdown2 : string)
    (proto1 proto2 : ObjectPrototype) :
  draftToMarkdown (mkContentState [prototype_block] ∅) ∅ = Ok (markdown1, proto1) ->
  draftToMarkdown (mkContentState [plain_block] ∅) ∅ = Ok (markdown2, proto2) ->
  proto1 = {[0]}
  /\ draftToMarkdown (mkContentState [prototype_block; plain_block] ∅) ∅
     <> Ok (markdown1 +:+ markdown2, proto1).
Proof.
  vm_compute. intros [= <- <-] [= <- <-]. split; [reflexivity|discriminate].
Qed.

(** X14 on a concrete input. *)
Lemma getBlockMarkdown_entities_witness :
  getBlockMarkdown gap_block link_map ∅ = getBlockMarkdown gap_block larger_map ∅.
Proof.
  apply (getBlockMarkdown_entities gap_block link_map larger_map ∅).
  intros r Hr. apply list_elem_of_singleton in Hr. subst r. reflexivity.
Defined.

(** X15 on a concrete input. *)
Lemma trim_edges_clean_witness : trimLeadingZeros "a b " = "a b ".
Proof.
  apply (proj1 (proj2 (proj2 (trim_edges_clean "a b ")))). discriminate.
Defined.

(** X17 on a concrete input. *)
Lemma whole_text_toggle_witness :
  getBlockContentMarkdown bold_block ∅ ∅
  = Ok (Some (addInlineStyleMarkup (key_name BOLD) (escape_text (block_text bold_block))),
        ∅).
Proof.
  apply (whole_text_toggle bold_block ∅ BOLD ∅).
  - apply list_elem_of_here.
  - reflexivity.
  - reflexivity.
  - reflexivity.
  - apply clean_on_fresh.
Defined.

(** X18 on a concrete input. *)
Lemma atomic_block_other_entity_witness :
  getBlockContentMarkdown atomic_block embed_map ∅ = Ok (None, ∅).
Proof.
  apply (proj1 (atomic_block_other_entity atomic_block embed_map
                  (mkEntityRange 0 0 0) []
                  (mkEntity "EMBED" (mkEntityData (Some "u") None)) ∅
                  eq_refl eq_refl eq_refl
                  ltac:(discriminate) ltac:(discriminate) ltac:(discriminate))).
Defined.

(** X20 on concrete inputs: a heading, a type named [constructor], and the
    type [3] when [Object.prototype] holds the index 3. *)
Lemma getBlockTagSymbol_lookup_witness :
  Js.join [symbol_text <$> getBlockTagSymbol ∅ (mkBlock "header-two" "a" 0 [] [] [])]
  = "## "
  /\ (exists v,
         getBlockTagSymbol ∅ (mkBlock "constructor" "a" 0 [] [] []) = Some (SInherited v)
         /\ v <> ITrue /\ inherited_text v <> "")
  /\ getBlockTagSymbol {[3]} (mkBlock "3" "a" 0 [] [] []) = Some (SInherited ITrue).
Proof.
  split; [|split].
  - apply (proj1 (getBlockTagSymbol_lookup ∅ (mkBlock "header-two" "a" 0 [] [] []))).
    + unfold prototype_names. intros Hin. apply list_elem_of_In in Hin. simpl in Hin.
      repeat (destruct Hin as [Hin|Hin]; [discriminate|]). contradiction.
    + apply names_index_empty.
  - apply (proj1 (proj2 (getBlockTagSymbol_lookup ∅
                           (mkBlock "constructor" "a" 0 [] [] [])))).
    apply list_elem_of_In. simpl. tauto.
  - apply (proj2 (proj2 (getBlockTagSymbol_lookup {[3]} (mkBlock "3" "a" 0 [] [] [])))).
    exists 3. split; [apply elem_of_singleton; reflexivity|reflexivity].
Defined.

End MoreExamples.
